(** * MutateX [utils.py]: a shallow embedding and its verified properties

    The Python module [mutatex/utils.py] is embedded function by function.
    Text is [string] (code points below 256), integers are [Z], tuples and
    lists are [list], a function that logs and may raise runs in the monad
    [M], which collects the records handed to [logging] and ends either in a
    value or in the exception raised. *)

From Stdlib Require Import String Ascii List ZArith Lia Bool Arith.
From Stdlib Require Import Permutation Sorted DecimalString.
From Stdlib Require DecimalPos.
Import ListNotations.

Local Open Scope string_scope.
Local Open Scope list_scope.
Local Open Scope nat_scope.

(* ===================================================================== *)
(** * Part I: definitions                                                  *)
(* ===================================================================== *)

(** ** Exceptions, logging and the monad of the module's functions *)

Inductive exn : Type :=
| IOError | TypeError | ValueError | IndexError | KeyError.

Inductive result (A : Type) : Type :=
| Ok (a : A)
| Raise (e : exn).
Arguments Ok {A} a.
Arguments Raise {A} e.

Inductive level : Type := INFO | WARNING | ERROR.

(** One call of [log.info], [log.warning] or [log.error]: the level, the
    format string as written in the source and the rendered arguments of
    its [%] operator. *)
Record log_record : Type := LogRecord {
  log_level : level;
  log_format : string;
  log_args : list string
}.

Definition M (A : Type) : Type := (list log_record * result A)%type.

Definition ret {A} (a : A) : M A := ([], Ok a).
Definition raise {A} (e : exn) : M A := ([], Raise e).
Definition bind {A B} (m : M A) (f : A -> M B) : M B :=
  match m with
  | (l1, Ok a) => let (l2, r) := f a in (l1 ++ l2, r)
  | (l1, Raise e) => (l1, Raise e)
  end.
Definition log (lv : level) (fmt : string) (args : list string) : M unit :=
  ([LogRecord lv fmt args], Ok tt).

Declare Scope py_scope.
Delimit Scope py_scope with py.
Notation "x <- m ;; k" := (bind m (fun x => k))
  (at level 61, m at next level, right associativity) : py_scope.
Notation "m ;; k" := (bind m (fun _ => k))
  (at level 61, right associativity) : py_scope.
Local Open Scope py_scope.

Definition logged {A} (m : M A) : list log_record := fst m.
Definition outcome {A} (m : M A) : result A := snd m.

(** ** Python built-ins used by the module *)

Module Py.

Definition code (c : ascii) : nat := nat_of_ascii c.

(** [str.isspace] on one character, for code points below 256. *)
Definition isspace (c : ascii) : bool :=
  let n := code c in
  ((9 <=? n) && (n <=? 13)) || ((28 <=? n) && (n <=? 32))
  || (n =? 133) || (n =? 160).

(** The class [[0-9]] of [re], also the decimal digits [int] reads. *)
Definition is_09 (c : ascii) : bool :=
  let n := code c in (48 <=? n) && (n <=? 57).

(** The class [[A-Z]] of [re]. *)
Definition is_AZ (c : ascii) : bool :=
  let n := code c in (65 <=? n) && (n <=? 90).

(** [str.isdigit] on one character: the decimal digits and, below 256, the
    superscripts two, three and one. *)
Definition isdigit (c : ascii) : bool :=
  let n := code c in is_09 c || (n =? 178) || (n =? 179) || (n =? 185).

Fixpoint lstrip (s : string) : string :=
  match s with
  | String c s' => if isspace c then lstrip s' else s
  | EmptyString => EmptyString
  end.

(** [rstrip] keeps a character when it is not a space or when something
    that is kept follows it. *)
Fixpoint rstrip (s : string) : string :=
  match s with
  | String c s' =>
      match rstrip s' with
      | EmptyString => if isspace c then EmptyString else String c EmptyString
      | t => String c t
      end
  | EmptyString => EmptyString
  end.

(** [s.strip()] *)
Definition strip (s : string) : string := rstrip (lstrip s).

(** [s.startswith(p)] *)
Definition startswith (p s : string) : bool := String.prefix p s.

(** [s[1:]] *)
Definition tail (s : string) : string :=
  match s with
  | String _ s' => s'
  | EmptyString => EmptyString
  end.

(** [s[i]] for [0 <= i]; [None] stands for [IndexError]. *)
Definition index (i : nat) (s : string) : option ascii := String.get i s.

(** [s.split(sep)] for a one-character separator: always at least one
    piece, empty pieces kept. *)
Fixpoint split (sep : ascii) (s : string) : list string :=
  match s with
  | EmptyString => [EmptyString]
  | String c s' =>
      if Ascii.eqb c sep then EmptyString :: split sep s'
      else match split sep s' with
           | p :: ps => String c p :: ps
           | [] => [String c EmptyString]
           end
  end.

(** [sep.join(l)] *)
Definition join (sep : string) (l : list string) : string := String.concat sep l.

(** [re.sub("[^0-9]", "", s)] *)
Fixpoint keep_digits (s : string) : string :=
  match s with
  | String c s' => if is_09 c then String c (keep_digits s') else keep_digits s'
  | EmptyString => EmptyString
  end.

(** [len(set(l))]: the number of distinct elements. *)
Definition len_set {A} (dec : forall x y : A, {x = y} + {x <> y}) (l : list A) : nat :=
  List.length (nodup dec l).

(** [x in l] *)
Definition mem {A} (dec : forall x y : A, {x = y} + {x <> y}) (x : A) (l : list A) : bool :=
  if in_dec dec x l then true else false.

(** [set(p).issubset(set(q))] *)
Definition issubset {A} (dec : forall x y : A, {x = y} + {x <> y}) (p q : list A) : bool :=
  forallb (fun x => mem dec x q) p.

(** [sorted(l, key=...)]: Python's sort is stable, so the result is fixed by
    the keys alone: ascending keys, equal keys in their order in [l]. The
    insertion sort below is stable; [le] is the order of the keys. *)
Section StableSort.
Context {A K : Type} (key : A -> K) (le : K -> K -> bool).

Fixpoint insert_sorted (x : A) (l : list A) : list A :=
  match l with
  | [] => [x]
  | y :: l' => if le (key x) (key y) then x :: l else y :: insert_sorted x l'
  end.

Fixpoint sorted (l : list A) : list A :=
  match l with
  | [] => []
  | x :: l' => insert_sorted x (sorted l')
  end.
End StableSort.

(** [list(set(l))]: the distinct elements of [l], in the order in which
    the set hands them over. That order depends on the hashes of the
    elements, which change from one run of the interpreter to the next,
    and the program does not fix it. It is a parameter here: the key
    [order], by which the distinct elements are arranged. Every
    arrangement of them is that of some key. *)
Definition list_set {A} (dec : forall x y : A, {x = y} + {x <> y}) (order : A -> nat)
  (l : list A) : list A :=
  sorted order Nat.leb (nodup dec l).

(** Digits of [int(s)] after the sign: decimal digits, with single
    underscores allowed between two digits. [seen] says whether the
    previous character was a digit. *)
Fixpoint int_digits (acc : Z) (seen : bool) (s : string) : option Z :=
  match s with
  | EmptyString => if seen then Some acc else None
  | String c s' =>
      if is_09 c then int_digits (10 * acc + Z.of_nat (code c - 48))%Z true s'
      else if Ascii.eqb c "_"%char then
             if seen then int_digits acc false s' else None
           else None
  end.

(** The white space [int] drops around a number: the white space of C
    (tab to carriage return, and the space) and, below 256, the next-line
    character and the no-break space, which [int] first turns into a
    space. The separators 28 to 31, which [str.strip] drops, are no white
    space for [int]. *)
Definition int_space (c : ascii) : bool :=
  let n := code c in
  ((9 <=? n) && (n <=? 13)) || (n =? 32) || (n =? 133) || (n =? 160).

Fixpoint int_lstrip (s : string) : string :=
  match s with
  | String c s' => if int_space c then int_lstrip s' else s
  | EmptyString => EmptyString
  end.

Fixpoint int_rstrip (s : string) : string :=
  match s with
  | String c s' =>
      match int_rstrip s' with
      | EmptyString => if int_space c then EmptyString else String c EmptyString
      | t => String c t
      end
  | EmptyString => EmptyString
  end.

(** [int(s)] on text: the white space around the number is dropped, one
    sign is read, then the digits; [None] stands for [ValueError]. *)
Definition int (s : string) : option Z :=
  match int_rstrip (int_lstrip s) with
  | String c s' =>
      if Ascii.eqb c "-"%char then option_map Z.opp (int_digits 0 false s')
      else if Ascii.eqb c "+"%char then int_digits 0 false s'
      else int_digits 0 false (String c s')
  | EmptyString => None
  end.

(** ["%d" % n] *)
Definition fmt_d (n : Z) : string := NilZero.string_of_int (Z.to_int n).

End Py.

(** ** The tables of [Bio.PDB.Polypeptide]

    The module reads two tables of Biopython: the keys of [d1_to_index],
    the twenty one-letter codes, and [three_to_one], which maps the twenty
    standard three-letter residue names to them and raises [KeyError] on
    any other name. *)

Module Polypeptide.

Definition aa1 : list ascii :=
  list_ascii_of_string "ACDEFGHIKLMNPQRSTVWY".

Definition aa3 : list string :=
  ["ALA"; "CYS"; "ASP"; "GLU"; "PHE"; "GLY"; "HIS"; "ILE"; "LYS"; "LEU";
   "MET"; "ASN"; "PRO"; "GLN"; "ARG"; "SER"; "THR"; "VAL"; "TRP"; "TYR"].

Definition d1_to_index_keys : list ascii := aa1.

Fixpoint lookup (name : string) (table : list (string * ascii)) : option ascii :=
  match table with
  | [] => None
  | (k, v) :: t => if String.eqb name k then Some v else lookup name t
  end.

(** [None] stands for the [KeyError] of an unknown name. *)
Definition three_to_one (name : string) : option ascii :=
  lookup name (combine aa3 aa1).

End Polypeptide.

(** ** [parse_mutlist_file] *)

(** A file is given by what [open] and the iteration over it yield: [None]
    when it cannot be opened, else its lines, each with its line end. *)
Definition text_file : Type := option (list string).

(** The body of [for line in fh], with [restypes] as accumulator. *)
Fixpoint parse_mutlist_lines (lines : list string) (restypes : list ascii)
  : M (list ascii) :=
  match lines with
  | [] => ret restypes
  | line :: rest =>
      if negb (String.eqb line "") && negb (Py.startswith "#" line) then
        let str_line := Py.strip line in
        if String.length str_line =? 0 then parse_mutlist_lines rest restypes
        else
          (if 1 <? String.length str_line
           then log WARNING "more than one character per line found in mutation list file; only the first letter will be considered" []
           else ret tt) ;;
          match Py.index 0 (Py.strip line) with
          | None => raise IndexError
          | Some mtype =>
              if negb (Py.mem ascii_dec mtype Polypeptide.d1_to_index_keys) then
                log ERROR "one or more residue types in the mutation list were incorrectly specified" [] ;;
                raise TypeError
              else parse_mutlist_lines rest (restypes ++ [mtype])
          end
      else parse_mutlist_lines rest restypes
  end.

Definition parse_mutlist_file (fname : string) (fh : text_file) : M (list ascii) :=
  match fh with
  | None =>
      log ERROR "Couldn't open mutation list file %s" [fname] ;;
      raise IOError
  | Some lines =>
      restypes <- parse_mutlist_lines lines [] ;;
      (if negb (Py.len_set ascii_dec restypes =? List.length restypes) then
         log ERROR "mutation list file contains duplicates" [] ;;
         raise TypeError
       else ret tt) ;;
      (if List.length restypes =? 0
       then log ERROR "No residue types found in mutation list" []
       else ret tt) ;;
      ret restypes
  end.

(** ** Regular expressions of [re], matched by derivatives *)

Module Re.

Inductive re : Type :=
| Void
| Eps
| Class (p : ascii -> bool)
| Seq (r1 r2 : re)
| Alt (r1 r2 : re)
| Star (r : re).

Definition Chr (c : ascii) : re := Class (Ascii.eqb c).
Definition Opt (r : re) : re := Alt r Eps.
Definition Plus (r : re) : re := Seq r (Star r).

Fixpoint nullable (r : re) : bool :=
  match r with
  | Void => false
  | Eps => true
  | Class _ => false
  | Seq r1 r2 => nullable r1 && nullable r2
  | Alt r1 r2 => nullable r1 || nullable r2
  | Star _ => true
  end.

Fixpoint deriv (c : ascii) (r : re) : re :=
  match r with
  | Void => Void
  | Eps => Void
  | Class p => if p c then Eps else Void
  | Seq r1 r2 =>
      if nullable r1 then Alt (Seq (deriv c r1) r2) (deriv c r2)
      else Seq (deriv c r1) r2
  | Alt r1 r2 => Alt (deriv c r1) (deriv c r2)
  | Star r1 => Seq (deriv c r1) (Star r1)
  end.

Fixpoint derivs (s : string) (r : re) : re :=
  match s with
  | EmptyString => r
  | String c s' => derivs s' (deriv c r)
  end.

(** [re.compile(r).fullmatch(s) is not None] *)
Definition fullmatch (r : re) (s : string) : bool := nullable (derivs s r).

End Re.

(** ** Monadic list traversal and sorting with a key that may raise *)

Fixpoint mapM {A B} (f : A -> M B) (l : list A) : M (list B) :=
  match l with
  | [] => ret []
  | x :: l' => y <- f x ;; ys <- mapM f l' ;; ret (y :: ys)
  end.

(** [sorted(l, key=key)]: the keys are computed first, one per element and
    in order, so a key that raises ends the call. *)
Definition sorted_by {A K} (key : A -> M K) (le : K -> K -> bool) (l : list A)
  : M (list A) :=
  keys <- mapM key l ;;
  ret (map snd (Py.sorted fst le (combine keys l))).

(** ** Residue identifiers *)

(** A MutateX residue specification: a tuple of strings such as
    [("AA12", "AB12")]. *)
Definition tuple : Type := list string.

Definition tuple_dec : forall x y : tuple, {x = y} + {x <> y} :=
  list_eq_dec string_dec.

(** ** [parse_poslist_file] *)

(** [re_position = '(([A-Z]?[A-Z][0-9]+)_?)+'] *)
Definition re_position : Re.re :=
  Re.Plus
    (Re.Seq
       (Re.Seq (Re.Seq (Re.Opt (Re.Class Py.is_AZ)) (Re.Class Py.is_AZ))
               (Re.Plus (Re.Class Py.is_09)))
       (Re.Opt (Re.Chr "_"))).

(** The two [log.error] calls and the [raise TypeError] that follow a failed
    format check. *)
Definition poslist_format_error {A} (line : string) : M A :=
  log ERROR "the position list file is not in the right format" [] ;;
  log ERROR "format error at %s" [Py.strip line] ;;
  raise TypeError.

(** The [log.error] and [raise TypeError] of a specification that matches
    no residue group, or more than one. *)
Definition poslist_match_error {A} (line : string) : M A :=
  log ERROR "%s residue is not written in the right format or it is not contained in pdbfile" [Py.strip line] ;;
  raise TypeError.

(** [len(set([len(x) for x in residue])) != 1 or
     len(set(residue)) != len(residue) or len(set(numbers)) != 1] *)
Definition poslist_bad_shape (residue : tuple) : bool :=
  let numbers := map Py.keep_digits residue in
  negb (Py.len_set Nat.eq_dec (map String.length residue) =? 1)
  || negb (Py.len_set string_dec residue =? List.length residue)
  || negb (Py.len_set string_dec numbers =? 1).

(** [s if str.isdigit(s[1]) else s[1:]] *)
Definition drop_restype (s : string) : M string :=
  match Py.index 1 s with
  | None => raise IndexError
  | Some c => if Py.isdigit c then ret s else ret (Py.tail s)
  end.

(** [pdb_residues_list.count(True)] *)
Definition count_matches (residue : tuple) (unique_residues : list tuple) : nat :=
  count_occ bool_dec
    (map (fun i => Py.issubset string_dec residue i) unique_residues) true.

(** The body of [for line in fh]: the tuple appended to [out]. *)
Definition parse_poslist_line (unique_residues : list tuple) (line : string)
  : M tuple :=
  if negb (Re.fullmatch re_position (Py.strip line)) then poslist_format_error line
  else
    let residue := Py.split "_" (Py.strip line) in
    if poslist_bad_shape residue then poslist_format_error line
    else
      (if negb (Py.mem tuple_dec residue unique_residues) then
         if negb (count_matches residue unique_residues =? 1)
         then poslist_match_error line
         else ret tt
       else ret tt) ;;
      toks <- mapM drop_restype residue ;;
      ret (Py.sorted (fun x => x) String.leb toks).

(** [parse_poslist_file] returns [list(set(out))]: the distinct tuples, in
    an order Python does not fix; [set_order] is the key of that order. *)
Definition parse_poslist_file (fname : string) (fh : text_file)
  (unique_residues : list tuple) (set_order : tuple -> nat) : M (list tuple) :=
  match fh with
  | None =>
      log ERROR "Couldn't open position list file %s" [fname] ;;
      raise IOError
  | Some lines =>
      out <- mapM (parse_poslist_line unique_residues) lines ;;
      ret (Py.list_set tuple_dec set_order out)
  end.

(** ** [filter_reslist] *)

(** [[ set([ x[1:] for x in r ]) for r in reslist ]] *)
Definition edit_reslist (reslist : list tuple) : list tuple :=
  map (fun r => map Py.tail r) reslist.

(** The inner [for i,u in enumerate(reslist)] with its [break]: the first
    entry whose edited form holds every token of [p]. *)
Fixpoint first_match (p : tuple) (reslist edited : list tuple) : option tuple :=
  match reslist, edited with
  | u :: reslist', e :: edited' =>
      if Py.issubset string_dec p e then Some u else first_match p reslist' edited'
  | _, _ => None
  end.

(** The outer [for p in ref], with [filtered_reslist] as accumulator. *)
Fixpoint filter_loop (reslist edited : list tuple) (ref filtered : list tuple)
  : M (list tuple) :=
  match ref with
  | [] => ret filtered
  | p :: ref' =>
      match first_match p reslist edited with
      | Some u =>
          filter_loop reslist edited ref'
            (if negb (Py.mem tuple_dec u filtered) then filtered ++ [u] else filtered)
      | None =>
          log ERROR "Position %s was not identified in the input PDB files. Exiting..." [Py.join "_" p] ;;
          raise TypeError
      end
  end.

(** [lambda x: (x[0][1], int(x[0][2:]))] *)
Definition reslist_key (x : tuple) : M (ascii * Z) :=
  match x with
  | [] => raise IndexError
  | x0 :: _ =>
      match Py.index 1 x0 with
      | None => raise IndexError
      | Some c =>
          match Py.int (Py.tail (Py.tail x0)) with
          | None => raise ValueError
          | Some n => ret (c, n)
          end
      end
  end.

(** The order of the keys: a one-character string, then an integer. *)
Definition key_le (k1 k2 : ascii * Z) : bool :=
  if Ascii.ltb (fst k1) (fst k2) then true
  else if Ascii.eqb (fst k1) (fst k2) then (snd k1 <=? snd k2)%Z
  else false.

Definition filter_reslist (reslist ref : list tuple) : M (list tuple) :=
  let edited_reslist := edit_reslist reslist in
  filtered_reslist <- filter_loop reslist edited_reslist ref [] ;;
  sorted_by reslist_key key_le filtered_reslist.

(** ** Structures as [Bio.PDB] hands them over

    [PDBParser.get_structure] is outside the module; what the module reads
    of its result is kept: the models in order, the chains of a model in
    order with their ids, the residues of a chain in order with their name
    and their id [(hetero flag, sequence number, insertion code)]. *)

Module PDB.

Record residue : Type := Residue {
  resname : string;
  hetflag : string;
  resseq : Z;
  icode : string
}.

Record chain : Type := Chain {
  chain_id : string;
  chain_residues : list residue
}.

Definition model : Type := list chain.
Definition structure : Type := list model.

(** [Residue.__repr__], the text [%s] puts in the warnings. *)
Definition repr (r : residue) : string :=
  ("<Residue " ++ resname r ++ " het=" ++ hetflag r ++ " resseq="
   ++ Py.fmt_d (resseq r) ++ " icode=" ++ icode r ++ ">")%string.

(** [model[id]]; [None] stands for [KeyError]. *)
Fixpoint getitem (m : model) (id : string) : option chain :=
  match m with
  | [] => None
  | c :: m' => if String.eqb (chain_id c) id then Some c else getitem m' id
  end.

End PDB.

(** What [parser.get_structure] gives: the structure, or the exception it
    raises ([IOError] for a file that cannot be opened, [ValueError] for an
    empty one). *)
Definition pdb_file : Type := result PDB.structure.

(** An entry of the list [get_residue_list] returns: a bare string or a
    tuple of strings. *)
Inductive resspec : Type :=
| Str (s : string)
| Tup (t : tuple).

(** [len(x)] on such an entry. *)
Definition py_len (x : resspec) : nat :=
  match x with
  | Str s => String.length s
  | Tup t => List.length t
  end.

(** ["%s%s%d" % (res_code, c, resid)] *)
Definition residue_name (res_code : ascii) (c : string) (resid : Z) : string :=
  String res_code (c ++ Py.fmt_d resid)%string.

(** The dictionary [sequences], in insertion order. *)
Definition dict : Type := list (string * string).

Fixpoint dict_get (k : string) (d : dict) : option string :=
  match d with
  | [] => None
  | (k', v) :: d' => if String.eqb k k' then Some v else dict_get k d'
  end.

(** [d[k] = v]: a key already present keeps its place. *)
Fixpoint dict_set (k v : string) (d : dict) : dict :=
  match d with
  | [] => [(k, v)]
  | (k', v') :: d' =>
      if String.eqb k k' then (k, v) :: d' else (k', v') :: dict_set k v d'
  end.

(** The state of the first loop: [residue_list] and [sequences]. *)
Definition scan_state : Type := (list resspec * dict)%type.

(** [for residue in chain] of the first loop. [warn] is the function's
    warning, [wrap] what it appends in non-multimer mode. *)
Fixpoint scan_residues (warn : PDB.residue -> M unit) (wrap : string -> resspec)
  (multimers : bool) (chain_name : string) (rs : list PDB.residue)
  (st : scan_state) : M scan_state :=
  match rs with
  | [] => ret st
  | residue :: rs' =>
      match Polypeptide.three_to_one (PDB.resname residue) with
      | None =>
          warn residue ;;
          scan_residues warn wrap multimers chain_name rs' st
      | Some res_code =>
          let (residue_list, sequences) := st in
          if negb multimers then
            scan_residues warn wrap multimers chain_name rs'
              (residue_list
                 ++ [wrap (residue_name res_code chain_name (PDB.resseq residue))],
               sequences)
          else
            match dict_get chain_name sequences with
            | None => raise KeyError
            | Some seq =>
                scan_residues warn wrap multimers chain_name rs'
                  (residue_list,
                   dict_set chain_name (seq ++ String res_code "")%string sequences)
            end
      end
  end.

(** [for chain in model] of the first loop. *)
Fixpoint scan_chains (warn : PDB.residue -> M unit) (wrap : string -> resspec)
  (multimers : bool) (chains : list PDB.chain) (st : scan_state) : M scan_state :=
  match chains with
  | [] => ret st
  | chain :: chains' =>
      let chain_name := PDB.chain_id chain in
      let (residue_list, sequences) := st in
      st' <- scan_residues warn wrap multimers chain_name (PDB.chain_residues chain)
               (residue_list, dict_set chain_name "" sequences) ;;
      scan_chains warn wrap multimers chains' st'
  end.

(** [np.unique] on an array of strings: its distinct values, ascending. *)
Definition np_unique (l : list string) : list string :=
  Py.sorted (fun x => x) String.leb (nodup string_dec l).

(** [np.unique] on an array of indices. *)
Definition np_unique_idx (l : list nat) : list nat :=
  Py.sorted (fun x => x) Nat.leb (nodup Nat.eq_dec l).

(** The position of [x] in [l], as [return_inverse=True] reports it. *)
Fixpoint index_of (x : string) (l : list string) : nat :=
  match l with
  | [] => 0
  | y :: l' => if String.eqb x y then 0 else S (index_of x l')
  end.

(** [a[mask]] *)
Fixpoint select {A} (a : list A) (mask : list bool) : list A :=
  match a, mask with
  | x :: a', b :: mask' => if b then x :: select a' mask' else select a' mask'
  | _, _ => []
  end.

(** The chains grouped by equal sequence: [collated_chains]. Unpacking the
    [zip] of an empty dictionary raises [ValueError]. *)
Definition collate_chains (sequences : dict) : M (list (list string)) :=
  match sequences with
  | [] => raise ValueError
  | _ =>
      let seq_ids := map fst sequences in
      let seqs := map snd sequences in
      let unique_seqs := np_unique seqs in
      let unique_idxs := map (fun s => index_of s unique_seqs) seqs in
      ret (map (fun i => select seq_ids (map (Nat.eqb i) unique_idxs))
               (np_unique_idx unique_idxs))
  end.

(** [lambda x: x[1]] *)
Definition second_char (x : string) : M ascii :=
  match Py.index 1 x with
  | None => raise IndexError
  | Some c => ret c
  end.

(** [for residue in model[cg[0]]] of the second loop. *)
Fixpoint emit_residues (warn : PDB.residue -> M unit) (cg : list string)
  (rs : list PDB.residue) : M (list resspec) :=
  match rs with
  | [] => ret []
  | residue :: rs' =>
      let resid := PDB.resseq residue in
      match Polypeptide.three_to_one (PDB.resname residue) with
      | None => warn residue ;; emit_residues warn cg rs'
      | Some res_code =>
          this_res <- sorted_by second_char Ascii.leb
                        (map (fun c => residue_name res_code c resid) cg) ;;
          rest <- emit_residues warn cg rs' ;;
          ret (Tup this_res :: rest)
      end
  end.

(** [for model in structure] of the second loop. *)
Fixpoint emit_models (warn : PDB.residue -> M unit) (cg : list string)
  (structure : PDB.structure) : M (list resspec) :=
  match structure with
  | [] => ret []
  | model :: structure' =>
      match cg with
      | [] => raise IndexError
      | cg0 :: _ =>
          match PDB.getitem model cg0 with
          | None => raise KeyError
          | Some chain =>
              here <- emit_residues warn cg (PDB.chain_residues chain) ;;
              rest <- emit_models warn cg structure' ;;
              ret (here ++ rest)
          end
      end
  end.

(** [for cg in collated_chains] *)
Fixpoint emit_groups (warn : PDB.residue -> M unit) (collated_chains : list (list string))
  (structure : PDB.structure) : M (list resspec) :=
  match collated_chains with
  | [] => ret []
  | cg :: rest =>
      here <- emit_models warn cg structure ;;
      more <- emit_groups warn rest structure ;;
      ret (here ++ more)
  end.

(** The [if multimers:] block shared by the two functions. *)
Definition multimer_block (warn : PDB.residue -> M unit) (sequences : dict)
  (structure : PDB.structure) : M (list resspec) :=
  collated_chains <- collate_chains sequences ;;
  emit_groups warn collated_chains structure.

(** ** [get_residue_list] (with [get_structure=False]) *)

Definition warn_residue_list (residue : PDB.residue) : M unit :=
  log WARNING "Residue %s couldn't be recognized; it will be skipped" [PDB.repr residue].

Definition get_residue_list (infile : pdb_file) (multimers : bool) : M (list resspec) :=
  match infile with
  | Raise IOError =>
      log ERROR "couldn't read or parse your PDB file" [] ;;
      raise IOError
  | Raise e => raise e
  | Ok structure =>
      let models := structure in
      (if 1 <? List.length models
       then log WARNING "%d models are present in the input PDB file; only the first will be used."
              [Py.fmt_d (Z.of_nat (List.length models))]
       else ret tt) ;;
      (if List.length models <? 1
       then log ERROR "the input PDB file does not contain any model. Exiting ..." [] ;;
            raise IOError
       else ret tt) ;;
      match models with
      | [] => raise IndexError
      | model :: _ =>
          st <- scan_chains warn_residue_list Str multimers model ([], []) ;;
          let (residue_list, sequences) := st in
          if multimers then
            more <- multimer_block warn_residue_list sequences structure ;;
            ret (residue_list ++ more)
          else ret residue_list
      end
  end.

(** ** [get_foldx_sequence] *)

Definition warn_foldx_sequence (pdb : string) (residue : PDB.residue) : M unit :=
  log WARNING "Residue %s in file %s couldn't be recognized; it will be skipped"
    [PDB.repr residue; pdb].

(** [for model in structure] of the first loop. *)
Fixpoint scan_models (warn : PDB.residue -> M unit) (wrap : string -> resspec)
  (multimers : bool) (models : list PDB.model) (st : scan_state) : M scan_state :=
  match models with
  | [] => ret st
  | model :: models' =>
      st' <- scan_chains warn wrap multimers model st ;;
      scan_models warn wrap multimers models' st'
  end.

Definition get_foldx_sequence (pdb : string) (parsed : pdb_file) (multimers : bool)
  : M (list resspec) :=
  match parsed with
  | Raise _ =>
      log ERROR "couldn't read or parse your PDB file" [] ;;
      raise IOError
  | Ok structure =>
      st <- scan_models (warn_foldx_sequence pdb) (fun s => Tup [s]) multimers
              structure ([], []) ;;
      let (residue_list, sequences) := st in
      if multimers then
        more <- multimer_block (warn_foldx_sequence pdb) sequences structure ;;
        ret (residue_list ++ more)
      else ret residue_list
  end.

(** ** Energy files: [save_energy_file] and [parse_ddg_file]

    The numbers are [numpy] floats; nothing below computes with them, so
    their type [F] and the reductions of [numpy] are left open. A written
    number is the text ["%.5f" % x]; [readback x] is the number
    [np.loadtxt] reads from that text. [np_min] and [np_max] give [None]
    where [numpy] raises [ValueError]: on an empty slice. *)

Section Energy.

Context {F : Type}.
Variables (np_average np_std : list F -> F).
Variables (np_min np_max : list F -> option F).
Variable readback : F -> F.

(** Arrays of dimension 0, 1 and 2. [Arr2 c rows] has shape
    [(length rows, c)]: each of its rows holds [c] numbers. *)
Inductive ndarray : Type :=
| Arr0 (x : F)
| Arr1 (v : list F)
| Arr2 (ncols : nat) (rows : list (list F)).

(** [len(a.shape)] *)
Definition ndim (a : ndarray) : nat :=
  match a with
  | Arr0 _ => 0
  | Arr1 _ => 1
  | Arr2 _ _ => 2
  end.

(** [a.shape[1]]; [None] stands for [IndexError]. *)
Definition shape1 (a : ndarray) : option nat :=
  match a with
  | Arr2 c _ => Some c
  | _ => None
  end.

(** [len(a)]; [None] stands for the [TypeError] of an unsized object. *)
Definition len0 (a : ndarray) : option nat :=
  match a with
  | Arr0 _ => None
  | Arr1 v => Some (List.length v)
  | Arr2 _ rows => Some (List.length rows)
  end.

Definition column (j : nat) (rows : list (list F)) : list F :=
  flat_map (fun r => match nth_error r j with Some x => [x] | None => [] end) rows.

Definition columns (c : nat) (rows : list (list F)) : list (list F) :=
  map (fun j => column j rows) (seq 0 c).

(** [a.T] *)
Definition transpose (a : ndarray) : ndarray :=
  match a with
  | Arr2 c rows => Arr2 (List.length rows) (columns c rows)
  | _ => a
  end.

(** [np.expand_dims(a, 1)] on a 1-D array. *)
Definition expand_dims_1 (a : ndarray) : ndarray :=
  match a with
  | Arr1 v => Arr2 1 (map (fun x => [x]) v)
  | _ => a
  end.

(** [a[0]]; [None] stands for [IndexError]. *)
Definition getitem0 (a : ndarray) : option ndarray :=
  match a with
  | Arr0 _ => None
  | Arr1 [] => None
  | Arr1 (x :: _) => Some (Arr0 x)
  | Arr2 _ [] => None
  | Arr2 _ (r :: _) => Some (Arr1 r)
  end.

(** The data lines of an energy file, each split into its numbers; lines
    without a number (blank, or a comment) are left out by [np.loadtxt]. *)
Definition energy_rows : Type := list (list F).

Definition same_width (rows : energy_rows) : bool :=
  match rows with
  | [] => true
  | r :: rows' => forallb (fun r' => List.length r' =? List.length r) rows'
  end.

(** [np.loadtxt(fname, comments='#')] with its default [ndmin=0]: axes of
    length one are squeezed out. [None] stands for any exception: a file
    that cannot be opened, or rows of different widths. *)
Definition loadtxt (file : option energy_rows) : option ndarray :=
  match file with
  | None => None
  | Some rows0 =>
      let rows := filter (fun r => negb (List.length r =? 0)) rows0 in
      if negb (same_width rows) then None
      else
        match rows with
        | [] => Some (Arr1 [])
        | [[x]] => Some (Arr0 x)
        | [r] => Some (Arr1 r)
        | r :: _ =>
            if List.length r =? 1 then Some (Arr1 (column 0 rows))
            else Some (Arr2 (List.length r) rows)
        end
  end.

Definition parse_ddg_file (fname : string) (file : option energy_rows)
  (reslist : option (list string)) (full : bool) : M ndarray :=
  match option_map transpose (loadtxt file) with
  | None =>
      log ERROR "Couldn't open energy file %s or file in the wrong format" [fname] ;;
      raise IOError
  | Some ddgs0 =>
      let ddgs := if ndim ddgs0 =? 1 then expand_dims_1 ddgs0 else ddgs0 in
      (match reslist with
       | Some rl =>
           match shape1 ddgs with
           | None => raise IndexError
           | Some n =>
               if negb (n =? List.length rl) then
                 match len0 ddgs with
                 | None => raise TypeError
                 | Some k =>
                     log ERROR "file %s has %d values, with %d required."
                       [fname; Py.fmt_d (Z.of_nat k); Py.fmt_d (Z.of_nat (List.length rl))] ;;
                     raise TypeError
                 end
               else ret tt
           end
       | None => ret tt
       end) ;;
      if full then ret ddgs
      else match getitem0 ddgs with
           | None => raise IndexError
           | Some row => ret row
           end
  end.

(** The axis of a reduction over a 2-D array. *)
Inductive axis : Type := Axis0 | Axis1.

(** The slices a reduction along [ax] runs over. *)
Definition slices (ax : axis) (ncols : nat) (rows : list (list F)) : list (list F) :=
  match ax with
  | Axis1 => rows
  | Axis0 => columns ncols rows
  end.

Fixpoint map_opt {A B} (f : A -> option B) (l : list A) : option (list B) :=
  match l with
  | [] => Some []
  | x :: l' =>
      match f x, map_opt f l' with
      | Some y, Some ys => Some (y :: ys)
      | _, _ => None
      end
  end.

(** What [np.savetxt] is given: the header and the rows of [out]. *)
Record written : Type := Written {
  header : string;
  lines : list (list F)
}.

(** The text [np.savetxt] wrote, as [np.loadtxt] reads it back. *)
Definition reread (w : written) : energy_rows := map (map readback) (lines w).

(** [np.array(out).T] for the list [out] of 1-D arrays of length [n]. *)
Definition stack_T (n : nat) (out : list (list F)) : list (list F) :=
  match out with
  | [] => []
  | _ => columns n out
  end.

(** [save_energy_file] on a 2-D [data] of shape [(length rows, ncols)].
    [writable] says whether [np.savetxt] can write [fname]. *)
Definition save_energy_file (fname : string) (writable : bool)
  (ncols : nat) (rows : list (list F))
  (do_avg do_std do_min do_max : bool) (ax : axis) : M written :=
  let sl := slices ax ncols rows in
  let out0 := if do_avg then [map np_average sl] else [] in
  let header0 := if do_avg then ["avg"] else [] in
  let out1 := if do_std then out0 ++ [map np_std sl] else out0 in
  let header1 := if do_std then header0 ++ ["std"] else header0 in
  out2 <- (if do_min then
             match map_opt np_min sl with
             | None => raise ValueError
             | Some v => ret (out1 ++ [v])
             end
           else ret out1) ;;
  let header2 := if do_min then header1 ++ ["min"] else header1 in
  out3 <- (if do_max then
             match map_opt np_max sl with
             | None => raise ValueError
             | Some v => ret (out2 ++ [v])
             end
           else ret out2) ;;
  let header3 := if do_max then header2 ++ ["max"] else header2 in
  let header := Py.join (String (ascii_of_nat 9) "") header3 in
  if writable then ret (Written header (stack_T (List.length sl) out3))
  else
    log ERROR "Couldn't write energy file %s" [fname] ;;
    raise IOError.

(** The round trip of [save_energy_file] with the average alone and
    [parse_ddg_file] with [full=False]. *)
Definition avg_roundtrip (fname : string) (ncols : nat) (data : list (list F))
  : M ndarray :=
  w <- save_energy_file fname true ncols data true false false false Axis1 ;;
  parse_ddg_file fname (Some (reread w)) None false.

End Energy.

Arguments ndarray F : clear implicits.
Arguments energy_rows F : clear implicits.
Arguments written F : clear implicits.

(** ** The parallel dispatcher: [foldx_worker] and [parallel_foldx_run] *)

(** A run object, as the dispatcher sees it: its [name] and the boolean its
    [run()] returns. *)
Record FoldXRun : Type := {
  name : string;
  run : bool
}.

Definition foldx_worker (r : FoldXRun) : M (string * bool) :=
  log INFO "starting FoldX run %s" [name r] ;;
  ret (name r, run r).

(** The pool of [ThreadPool(np)] while [imap_unordered] is served: the
    tasks not yet taken, in submission order; the tasks the workers hold;
    the results in the order the workers delivered them; the log. *)
Record pool : Type := Pool {
  pending : list FoldXRun;
  running : list FoldXRun;
  delivered : list (string * bool);
  pool_log : list log_record
}.

(** One move of the pool with [np] workers: a free worker takes the next
    task and enters [foldx_worker], or some worker finishes its task and
    delivers the pair. *)
Inductive pool_step (np : nat) : pool -> pool -> Prop :=
| take_task r p rs d l :
    List.length rs < np ->
    pool_step np (Pool (r :: p) rs d l)
              (Pool p (rs ++ [r]) d (l ++ logged (foldx_worker r)))
| finish_task r p rs1 rs2 d l v :
    outcome (foldx_worker r) = Ok v ->
    pool_step np (Pool p (rs1 ++ r :: rs2) d l)
              (Pool p (rs1 ++ rs2) (d ++ [v]) l).

Inductive pool_steps (np : nat) : pool -> pool -> Prop :=
| steps_refl s : pool_steps np s s
| steps_step s1 s2 s3 : pool_step np s1 s2 -> pool_steps np s2 s3 -> pool_steps np s1 s3.

(** Every interleaving: [results] is what the pool has delivered once
    every task was taken and finished, as it is after [pool.close()] and
    [pool.join()]. *)
Definition parallel_foldx_run_returns (foldx_runs : list FoldXRun) (np : nat)
  (results : list (string * bool)) : Prop :=
  1 <= np /\
  exists l, pool_steps np (Pool foldx_runs [] [] []) (Pool [] [] results l).

(** The free workers take tasks, as many as there are workers and tasks. *)
Fixpoint take_tasks (np : nat) (p rs : list FoldXRun) (d : list (string * bool))
  (l : list log_record) : pool :=
  match p with
  | r :: p' =>
      if List.length rs <? np
      then take_tasks np p' (rs ++ [r]) d (l ++ logged (foldx_worker r))
      else Pool p rs d l
  | [] => Pool p rs d l
  end.

(** The busy worker at position [k], counted around, finishes. *)
Definition finish_one (k : nat) (s : pool) : pool :=
  let i := k mod List.length (running s) in
  match nth_error (running s) i with
  | Some r =>
      match outcome (foldx_worker r) with
      | Ok v =>
          Pool (pending s) (firstn i (running s) ++ skipn (S i) (running s))
               (delivered s ++ [v]) (pool_log s)
      | Raise _ => s
      end
  | None => s
  end.

(** [fuel] rounds of the pool: the free workers take tasks, then the
    worker that [order] names finishes. *)
Fixpoint serve (np : nat) (order : list nat) (fuel : nat) (s : pool) : pool :=
  match fuel with
  | 0 => s
  | S fuel' =>
      let s1 := take_tasks np (pending s) (running s) (delivered s) (pool_log s) in
      serve np (List.tl order) fuel' (finish_one (List.hd 0 order) s1)
  end.

(** [parallel_foldx_run(foldx_runs, np)]. The program does not fix which
    worker finishes first; [order] does, round by round. [ThreadPool(np)]
    raises [ValueError] for [np < 1]; [list(result)] is what the pool has
    delivered after [pool.close()] and [pool.join()]. *)
Definition parallel_foldx_run (order : list nat) (foldx_runs : list FoldXRun)
  (np : nat) : M (list (string * bool)) :=
  if np <? 1 then raise ValueError
  else
    let s := serve np order (List.length foldx_runs) (Pool foldx_runs [] [] []) in
    (pool_log s, Ok (delivered s)).

(** ** [safe_cp] over the operating system *)

(** The calls of [os], [os.path] and [shutil] that [safe_cp] makes, over a
    state [fs] of the file system. [copyfile] and [symlink] give [None]
    when the call raises. *)
Class OS : Type := {
  fs : Type;
  abspath : string -> string;
  path_exists : fs -> string -> bool;
  path_isfile : fs -> string -> bool;
  copyfile : fs -> string -> string -> option fs;
  symlink : fs -> string -> string -> option fs
}.

Definition safe_cp `{OS} (source destination : string) (dolink : bool) (s : fs)
  : fs * M unit :=
  if String.eqb (abspath source) (abspath destination) then (s, ret tt)
  else
    let verb := if dolink then "link" else "copy" in
    if negb (path_exists s source) then
      (s, log ERROR "Couldn't %s file %s; no such file or directory" [verb; source] ;;
          raise IOError)
    else if negb (path_isfile s source) then
      (s, log ERROR "Couldn't %s file %s; it is not a file" [verb; source] ;;
          raise IOError)
    else if negb dolink then
      let warning :=
        if path_exists s destination
        then log WARNING "Destination file %s already exists; it will be overwritten." [destination]
        else ret tt in
      match copyfile s source destination with
      | Some s' => (s', warning)
      | None =>
          (s, warning ;;
              log ERROR "Couldn't copy file %s to %s" [source; destination] ;;
              raise IOError)
      end
    else
      if path_exists s destination then
        (s, log ERROR "Destination file %s already exists; it will not be overwritten by a link" [destination] ;;
            raise IOError)
      else
        match symlink s source destination with
        | Some s' => (s', ret tt)
        | None =>
            (s, log ERROR "Couldn't link file %s to %s" [source; destination] ;;
                raise IOError)
        end.

(** A small file system to run [safe_cp] on: a flat name space of absolute
    paths, each bound to a regular file with its content, a directory, or
    a symbolic link. [copyfile] writes through links and fails when the
    source is no regular file, when source and destination are the same
    file, and when the destination is a directory, as [shutil.copyfile]
    does; [symlink] fails on a name already bound, as [os.symlink] does. *)
Module ToyFS.

Inductive node : Type :=
| File (content : string)
| Dir
| Link (target : string).

Definition state : Type := list (string * node).

Fixpoint lookup (s : state) (p : string) : option node :=
  match s with
  | [] => None
  | (q, n) :: s' => if String.eqb p q then Some n else lookup s' p
  end.

(** The path [p] leads to, following at most [fuel] links; [None] on a
    longer chain of links. *)
Fixpoint realpath (fuel : nat) (s : state) (p : string) : option string :=
  match lookup s p with
  | Some (Link t) =>
      match fuel with
      | 0 => None
      | S fuel' => realpath fuel' s t
      end
  | _ => Some p
  end.

Definition stat (s : state) (p : string) : option node :=
  match realpath (List.length s) s p with
  | Some q => lookup s q
  | None => None
  end.

Definition exists_ (s : state) (p : string) : bool :=
  match stat s p with Some _ => true | None => false end.

Definition isfile (s : state) (p : string) : bool :=
  match stat s p with Some (File _) => true | _ => false end.

Definition copyfile (s : state) (src dst : string) : option state :=
  match realpath (List.length s) s src, realpath (List.length s) s dst with
  | Some rs, Some rd =>
      if String.eqb rs rd then None
      else match lookup s rs, lookup s rd with
           | Some (File c), Some (File _) | Some (File c), None =>
               Some ((rd, File c) :: s)
           | _, _ => None
           end
  | _, _ => None
  end.

Definition symlink (s : state) (src dst : string) : option state :=
  match lookup s dst with
  | Some _ => None
  | None => Some ((dst, Link src) :: s)
  end.

End ToyFS.

#[export] Instance toy_os : OS := {|
  fs := ToyFS.state;
  abspath := fun p => p;
  path_exists := ToyFS.exists_;
  path_isfile := ToyFS.isfile;
  copyfile := ToyFS.copyfile;
  symlink := ToyFS.symlink
|}.

(** ** Vocabulary of the statements *)

(** Regular expressions denote sets of strings. *)
Inductive matches : Re.re -> string -> Prop :=
| matches_eps : matches Re.Eps ""
| matches_class p c : p c = true -> matches (Re.Class p) (String c "")
| matches_seq r1 r2 s1 s2 :
    matches r1 s1 -> matches r2 s2 -> matches (Re.Seq r1 r2) (s1 ++ s2)%string
| matches_alt_l r1 r2 s : matches r1 s -> matches (Re.Alt r1 r2) s
| matches_alt_r r1 r2 s : matches r2 s -> matches (Re.Alt r1 r2) s
| matches_star_nil r : matches (Re.Star r) ""
| matches_star_app r s1 s2 :
    matches r s1 -> matches (Re.Star r) s2 -> matches (Re.Star r) (s1 ++ s2)%string.

(** Exactly one entry of [l], counted by position, satisfies [P]. *)
Definition exactly_one {A} (P : A -> Prop) (l : list A) : Prop :=
  exists l1 x l2, l = l1 ++ x :: l2 /\ P x /\ forall y, In y (l1 ++ l2) -> ~ P y.

(** The order of Python on strings, and on the keys of [filter_reslist]. *)
Definition str_le (a b : string) : Prop := String.leb a b = true.

(** A token without its residue type, as [parse_poslist_file] writes it:
    [s if str.isdigit(s[1]) else s[1:]]. *)
Definition chain_number (s : string) : string :=
  match Py.index 1 s with
  | Some c => if Py.isdigit c then s else Py.tail s
  | None => s
  end.

(** The longest run of decimal digits that ends a token. *)
Fixpoint digit_suffix (s : string) : string :=
  match s with
  | EmptyString => EmptyString
  | String c s' =>
      let t := digit_suffix s' in
      if (String.length t =? String.length s') && Py.is_09 c then String c t else t
  end.

(** The codes a mutation list holds: the first character of every line
    that is not empty, is no comment and is not blank once stripped. *)
Definition mutlist_code (line : string) : list ascii :=
  if negb (String.eqb line "") && negb (Py.startswith "#" line)
     && negb (String.length (Py.strip line) =? 0)
  then match Py.index 0 (Py.strip line) with
       | Some c => [c]
       | None => []
       end
  else [].

Definition mutlist_codes (lines : list string) : list ascii :=
  flat_map mutlist_code lines.

Definition known_code (c : ascii) : Prop := In c Polypeptide.d1_to_index_keys.

(** What the three tests of [poslist_bad_shape] say of the tokens. *)
Definition same_length (residue : tuple) : Prop :=
  forall x y, In x residue -> In y residue -> String.length x = String.length y.

Definition same_digits (residue : tuple) : Prop :=
  forall x y, In x residue -> In y residue -> Py.keep_digits x = Py.keep_digits y.

(** The order [sorted] leaves between neighbours: that of their keys. *)
Definition sorted_rel {A K} (key : A -> K) (le : K -> K -> bool) (a b : A) : Prop :=
  le (key a) (key b) = true.

(** The sort key of an entry of a residue list that has one. *)
Definition key_of (x : tuple) : ascii * Z :=
  match outcome (reslist_key x) with
  | Ok k => k
  | Raise _ => (zero, 0%Z)
  end.

(** Chain id first, by code point; then the residue number, as an integer. *)
Definition key_order (k1 k2 : ascii * Z) : Prop :=
  (N_of_ascii (fst k1) < N_of_ascii (fst k2))%N
  \/ (fst k1 = fst k2 /\ (snd k1 <= snd k2)%Z).

Definition reslist_order (r1 r2 : tuple) : Prop := key_order (key_of r1) (key_of r2).

(** A residue list [filter_reslist] can sort without ambiguity: every
    entry has a key, no two entries have the same key, and the tokens of
    an entry, without residue type, are not all tokens of another entry. *)
Record sortable (reslist : list tuple) : Prop := {
  sortable_keys : forall r, In r reslist -> reslist_key r = ret (key_of r);
  sortable_distinct : NoDup (map key_of reslist);
  sortable_apart : forall r1 r2,
      In r1 reslist -> In r2 reslist ->
      incl (map Py.tail r1) (map Py.tail r2) -> r1 = r2
}.

(** A structure of two models, each one chain [A] with the one residue
    [ALA 1]. *)
Definition ala1 : PDB.residue := PDB.Residue "ALA" " " 1 " ".
Definition two_models : PDB.structure :=
  [[PDB.Chain "A" [ala1]]; [PDB.Chain "A" [ala1]]].

(** A model of two chains [A] and [B], each with the one residue [ALA 1]. *)
Definition homodimer : PDB.structure :=
  [[PDB.Chain "A" [ala1]; PDB.Chain "B" [ala1]]].

(** The pair a run contributes to the result of the dispatcher. *)
Definition run_pair (r : FoldXRun) : string * bool := (name r, run r).

(** Every pair the pool owes or has delivered. *)
Definition pool_pairs (s : pool) : list (string * bool) :=
  delivered s ++ map run_pair (running s) ++ map run_pair (pending s).

(** A file system with a regular file and a directory. *)
Definition file_and_dir : ToyFS.state :=
  [("/work/a.pdb", ToyFS.File "ATOM"); ("/work/out", ToyFS.Dir)].

(** The one-letter sequence of a chain: the codes of its residues that
    [three_to_one] knows. *)
Fixpoint one_letter (rs : list PDB.residue) : string :=
  match rs with
  | [] => EmptyString
  | r :: rs' =>
      match Polypeptide.three_to_one (PDB.resname r) with
      | Some c => String c (one_letter rs')
      | None => one_letter rs'
      end
  end.

(** These residues, each with its code and its number. *)
Fixpoint recognized (rs : list PDB.residue) : list (ascii * Z) :=
  match rs with
  | [] => []
  | r :: rs' =>
      match Polypeptide.three_to_one (PDB.resname r) with
      | Some c => (c, PDB.resseq r) :: recognized rs'
      | None => recognized rs'
      end
  end.

(** The second character of an identifier, the key of the sort inside a
    group; the first character of a chain id. *)
Definition chain_char (x : string) : ascii :=
  match Py.index 1 x with
  | Some c => c
  | None => zero
  end.

Definition first_char (c : string) : ascii :=
  match c with
  | String a _ => a
  | EmptyString => zero
  end.

(** The group of one residue of the template chain over the chains [ids]. *)
Definition homomer_group (ids : list string) (cr : ascii * Z) : resspec :=
  Tup (map (fun c => residue_name (fst cr) c (snd cr))
           (Py.sorted first_char Ascii.leb ids)).

(** The sequences a model leaves in the dictionary. *)
Definition model_sequences (m : PDB.model) (d : dict) : dict :=
  fold_left (fun d ch => dict_set (PDB.chain_id ch) (one_letter (PDB.chain_residues ch)) d)
            m d.

(** No character of [s] is white space. *)
Fixpoint no_space (s : string) : bool :=
  match s with
  | EmptyString => true
  | String c s' => negb (Py.isspace c) && no_space s'
  end.

(** The residues [three_to_one] does not know, in order. *)
Fixpoint unrecognized (rs : list PDB.residue) : list PDB.residue :=
  match rs with
  | [] => []
  | r :: rs' =>
      match Polypeptide.three_to_one (PDB.resname r) with
      | Some _ => unrecognized rs'
      | None => r :: unrecognized rs'
      end
  end.

(** The identifiers of the recognised residues of a chain, each wrapped
    as the function at hand wraps it. *)
Definition chain_entries (wrap : string -> resspec) (ch : PDB.chain) : list resspec :=
  map (fun cr => wrap (residue_name (fst cr) (PDB.chain_id ch) (snd cr)))
      (recognized (PDB.chain_residues ch)).

(** The warnings a chain gives rise to. *)
Definition chain_warnings (warn : PDB.residue -> M unit) (ch : PDB.chain)
  : list log_record :=
  flat_map (fun r => logged (warn r)) (unrecognized (PDB.chain_residues ch)).

(** The chains of the dictionary whose sequence is [s], in its order. *)
Definition chains_with (sequences : dict) (s : string) : list string :=
  map fst (filter (fun kv => String.eqb (snd kv) s) sequences).

(** What multimer mode emits for the group [g] of chains of the model
    [m]: one tuple per recognised residue of the chain named first. *)
Definition group_entries (m : PDB.model) (g : list string) : list resspec :=
  match g with
  | [] => []
  | cg0 :: _ =>
      match PDB.getitem m cg0 with
      | Some ch => map (homomer_group g) (recognized (PDB.chain_residues ch))
      | None => []
      end
  end.

(** The dictionary of sequences of a model with distinct chain ids. *)
Definition sequences_of (m : PDB.model) : dict :=
  map (fun ch => (PDB.chain_id ch, one_letter (PDB.chain_residues ch))) m.

(** Writing the averages and the standard deviations of [data] with
    [save_energy_file], then reading the file with [parse_ddg_file]. *)
Definition avg_std_roundtrip {F : Type} (np_average np_std : list F -> F)
  (np_min np_max : list F -> option F) (readback : F -> F)
  (fname : string) (ncols : nat) (data : list (list F))
  (reslist : option (list string)) (full : bool) : M (ndarray F) :=
  w <- save_energy_file np_average np_std np_min np_max fname true ncols data
         true true false false Axis1 ;;
  parse_ddg_file fname (Some (reread readback w)) reslist full.

(** A model of three chains: [B] and [A] have the sequence [AC], [C] has
    the sequence [G]. *)
Definition heterotrimer : PDB.model :=
  [PDB.Chain "B" [PDB.Residue "ALA" " " 1 " "; PDB.Residue "CYS" " " 3 " "];
   PDB.Chain "C" [PDB.Residue "GLY" " " 7 " "];
   PDB.Chain "A" [PDB.Residue "ALA" " " 1 " "; PDB.Residue "HOH" "W" 2 " ";
                  PDB.Residue "CYS" " " 3 " "]].

(** An identifier whose second character, the chain id, is not a digit. *)
Definition lettered_chain (s : string) : Prop :=
  exists c, Py.index 1 s = Some c /\ Py.isdigit c = false.

(** [save_interaction_energy_file], on the same model of [data] and of
    [np.savetxt] as [save_energy_file]. *)
Definition save_interaction_energy_file {F : Type}
  (np_average np_std : list F -> F) (np_min np_max : list F -> option F)
  (fname : string) (writable : bool)
  (ncols : nat) (rows : list (list F))
  (do_avg do_std do_min do_max : bool) (ax : axis) : M (written F) :=
  let sl := slices ax ncols rows in
  let out0 := if do_avg then [map np_average sl] else [] in
  let header0 := if do_avg then ["avg"] else [] in
  let out1 := if do_std then out0 ++ [map np_std sl] else out0 in
  let header1 := if do_std then header0 ++ ["std"] else header0 in
  out2 <- (if do_min then
             match map_opt np_min sl with
             | None => raise ValueError
             | Some v => ret (out1 ++ [v])
             end
           else ret out1) ;;
  let header2 := if do_min then header1 ++ ["min"] else header1 in
  out3 <- (if do_max then
             match map_opt np_max sl with
             | None => raise ValueError
             | Some v => ret (out2 ++ [v])
             end
           else ret out2) ;;
  let header3 := if do_max then header2 ++ ["max"] else header2 in
  let header := Py.join (String (ascii_of_nat 9) "") header3 in
  if writable then ret (Written header (stack_T (List.length sl) out3))
  else
    log ERROR "Couldn't interaction energy write file %s" [fname] ;;
    raise IOError.

(** The statistics selected by the four flags, in the order of the
    columns of the file. *)
Definition statistics {F : Type}
  (np_average np_std : list F -> F) (np_min np_max : list F -> option F)
  (do_avg do_std do_min do_max : bool) : list (list F -> option F) :=
  (if do_avg then [fun r => Some (np_average r)] else [])
  ++ (if do_std then [fun r => Some (np_std r)] else [])
  ++ (if do_min then [np_min] else [])
  ++ (if do_max then [np_max] else []).

(** The line of an entry: one value per statistic. *)
Definition line_of {F : Type} (fs : list (list F -> option F)) (r line : list F) : Prop :=
  Forall2 (fun f y => f r = Some y) fs line.

(** ** [init_arguments]

    What the function does to [parser] is a sequence of calls of
    [add_argument]; the parser is modelled by the calls it received, in
    order. A keyword the source does not pass is [None]. *)

Inductive pyvalue : Type :=
| PyNone
| PyBool (b : bool)
| PyInt (z : Z)
| PyStr (s : string).

(** The builtins [str] and [int], as passed to [type=]. *)
Inductive pytype : Type := Py_str | Py_int.

Record add_argument_call : Type := AddArgument {
  option_strings : list string;
  dest : string;
  kw_type : option pytype;
  kw_default : option pyvalue;
  kw_action : option string;
  kw_required : option bool;
  help : string
}.

(** [AssertionError] and [NameError], which only this function raises. *)
Inductive init_error : Type := AssertionError | NameError.

(** The [if]/[elif] chain: the call made for one name, [None] in the
    [else] branch. *)
Definition common_argument (arg : string) : option add_argument_call :=
  if String.eqb arg "pdb" then
    Some (AddArgument ["-p"; "--pdb"] "in_pdb" None None None (Some true)
            "Input PDB file")
  else if String.eqb arg "data" then
    Some (AddArgument ["-d"; "--data-directory"] "ddg_dir" (Some Py_str) None None
            (Some true) "Input DDG data directory")
  else if String.eqb arg "mutation_list" then
    Some (AddArgument ["-l"; "--mutation-list"] "mutation_list" None None None
            (Some true) "MutateX mutation list file")
  else if String.eqb arg "position_list" then
    Some (AddArgument ["-q"; "--position-list"] "position_list" None (Some PyNone) None
            None "MutateX position list file")
  else if String.eqb arg "multimers" then
    Some (AddArgument ["-M"; "--multimers"] "multimers" None (Some (PyBool true))
            (Some "store_false") None "Do not use multimers (default: yes)")
  else if String.eqb arg "labels" then
    Some (AddArgument ["-b"; "--label-list"] "labels" None None None None
            "Residue label list")
  else if String.eqb arg "fonts" then
    Some (AddArgument ["-F"; "--font"] "font" (Some Py_str) (Some PyNone) (Some "store")
            None
            "Use this font for plotting. If this isn't specified, the default font will be used.")
  else if String.eqb arg "fontsize" then
    Some (AddArgument ["-f"; "--fontsize"] "fontsize" (Some Py_int) (Some (PyInt 8))
            (Some "store") None "Axis label font size")
  else if String.eqb arg "verbose" then
    Some (AddArgument ["-v"; "--verbose"] "verbose" None (Some (PyBool false))
            (Some "store_true") None "Toggle verbose mode")
  else if String.eqb arg "title" then
    Some (AddArgument ["-i"; "--title"] "title" (Some Py_str) (Some PyNone) None None
            "Title for the output image file")
  else if String.eqb arg "color" then
    Some (AddArgument ["-c"; "--color"] "mycolor" (Some Py_str) (Some (PyStr "black"))
            None None "Color used for plotting")
  else if String.eqb arg "splice" then
    Some (AddArgument ["-s"; "--splice"] "sv" (Some Py_int) (Some (PyInt 20))
            (Some "store") None
            "Divide data in multiple plots, use -s residues per plot")
  else None.

(** [for arg in arguments]: the parser keeps the options added before a
    name that is not known. *)
Fixpoint init_arguments_loop (arguments : list string) (parser : list add_argument_call)
  : list add_argument_call * option init_error :=
  match arguments with
  | [] => (parser, None)
  | arg :: arguments' =>
      match common_argument arg with
      | Some call => init_arguments_loop arguments' (parser ++ [call])
      | None => (parser, Some NameError)
      end
  end.

(** [init_arguments(arguments, parser)]: the parser afterwards, and the
    exception raised, [None] when the function returns the parser. *)
Definition init_arguments (arguments : list string) (parser : list add_argument_call)
  : list add_argument_call * option init_error :=
  if negb (Py.len_set string_dec arguments =? List.length arguments)
  then (parser, Some AssertionError)
  else init_arguments_loop arguments parser.

(** The names [init_arguments] knows. *)
Definition argument_names : list string :=
  ["pdb"; "data"; "mutation_list"; "position_list"; "multimers"; "labels"; "fonts";
   "fontsize"; "verbose"; "title"; "color"; "splice"].

(** ** [parse_label_file]

    The labels file as [csv.reader] hands it over: the rows in order, each
    the list of its fields; [None] when [open] raises [IOError]. *)
Definition csv_file : Type := option (list (list string)).

(** [for row in csv_reader], inside the [try]: [row[0]] and [row[1]] raise
    [IndexError] on a row that is too short. *)
Fixpoint read_label_rows (rows : list (list string)) (label_dict : dict) : result dict :=
  match rows with
  | [] => Ok label_dict
  | row :: rows' =>
      match row with
      | [] => Raise IndexError
      | row0 :: fields =>
          if String.eqb row0 "Residue_name" then read_label_rows rows' label_dict
          else
            match fields with
            | [] => Raise IndexError
            | row1 :: _ =>
                if negb (String.eqb row1 "")
                then read_label_rows rows' (dict_set row0 row1 label_dict)
                else read_label_rows rows' label_dict
            end
      end
  end.

(** [l[i] = v]; [None] stands for [IndexError]. *)
Fixpoint setitem (i : nat) (v : string) (l : list string) : option (list string) :=
  match l, i with
  | [], _ => None
  | _ :: l', 0 => Some (v :: l')
  | x :: l', S i' => option_map (cons x) (setitem i' v l')
  end.

(** [for i, fname in enumerate(fnames)], from index [i] on: the right-hand
    side [label_dict[fname]] is evaluated first, and only its [KeyError]
    is caught. *)
Fixpoint assign_labels (i : nat) (fnames : list string) (label_dict : dict)
  (labels : list string) : M (list string) :=
  match fnames with
  | [] => ret labels
  | fname :: fnames' =>
      match dict_get fname label_dict with
      | Some v =>
          match setitem i v labels with
          | Some labels' => assign_labels (S i) fnames' label_dict labels'
          | None => raise IndexError
          end
      | None =>
          log WARNING "label for residue %s not found; it will be skipped" [fname] ;;
          assign_labels (S i) fnames' label_dict labels
      end
  end.

Definition parse_label_file (csv_fname : string) (csvfile : csv_file)
  (fnames default_labels : list string) : M (list string) :=
  match csvfile with
  | None =>
      log ERROR "Labels file couldn't be read" [] ;;
      raise IOError
  | Some rows =>
      match read_label_rows rows [] with
      | Raise e =>
          log ERROR "Labels file couldn't be parsed correctly" [] ;;
          raise e
      | Ok label_dict => assign_labels 0 fnames label_dict default_labels
      end
  end.

(** A row [parse_label_file] can read: the header row, or a row of two
    fields or more. *)
Definition readable_row (row : list string) : Prop :=
  (exists fields, row = "Residue_name" :: fields) \/ 2 <= List.length row.

(** The label a row gives to [name], if it gives one. *)
Definition row_label (name : string) (row : list string) : option string :=
  match row with
  | row0 :: row1 :: _ =>
      if String.eqb row0 "Residue_name" then None
      else if String.eqb row1 "" then None
      else if String.eqb row0 name then Some row1
      else None
  | _ => None
  end.

(** The label of [name] in the file: that of the last row that gives it
    one. *)
Fixpoint label_in (rows : list (list string)) (name : string) : option string :=
  match rows with
  | [] => None
  | row :: rows' =>
      match label_in rows' name with
      | Some l => Some l
      | None => row_label name row
      end
  end.

(** The warning for a name without a label. *)
Definition label_warning (fname : string) : log_record :=
  LogRecord WARNING "label for residue %s not found; it will be skipped" [fname].

(** ** [safe_makedirs]

    The two further calls of [os] that [safe_makedirs] makes.
    [os.makedirs] gives the state it leaves and whether it returned: a
    call that raises may have created part of the path. *)
Class OSDirs (os : OS) : Type := {
  path_isdir : fs -> string -> bool;
  makedirs : fs -> string -> fs * bool
}.

Definition safe_makedirs {os : OS} {dirs : OSDirs os} (dirname : string) (s : fs)
  : fs * M unit :=
  if path_exists s dirname then
    if negb (path_isdir s dirname) then
      (s, log ERROR "%s exists but is not a directory." [dirname] ;;
          raise IOError)
    else
      (s, log WARNING "directory %s already exists" [dirname] ;;
          ret tt)
  else
    match makedirs s dirname with
    | (s', true) => (s', ret tt)
    | (s', false) =>
        (s', log ERROR "Could not create directory %s." [dirname] ;;
             raise IOError)
    end.

(** Directories of the toy file system: no parents are created. *)
Definition toy_isdir (s : ToyFS.state) (p : string) : bool :=
  match ToyFS.stat s p with Some ToyFS.Dir => true | _ => false end.

Definition toy_makedirs (s : ToyFS.state) (p : string) : ToyFS.state * bool :=
  match ToyFS.lookup s p with
  | Some _ => (s, false)
  | None => ((p, ToyFS.Dir) :: s, true)
  end.

#[export] Instance toy_dirs : OSDirs toy_os := {|
  path_isdir := toy_isdir;
  makedirs := toy_makedirs
|}.

(** ** [split_pdb]

    The three functions of [os.path] that [split_pdb] calls. *)
Class OSPath : Type := {
  basename : string -> string;
  splitext : string -> string * string;
  path_join : string -> string -> string
}.

(** ["%s_model%d%s.pdb" % (os.path.splitext(os.path.basename(filename))[0],
     model.id, checked_str)] *)
Definition model_filename `{OSPath} (filename : string) (model_id : Z) (checked : bool)
  : string :=
  let checked_str := if checked then "_checked" else "" in
  (fst (splitext (basename filename)) ++ "_model" ++ Py.fmt_d model_id
     ++ checked_str ++ ".pdb")%string.

(** [for model in structure]: the models come with their ids. The state
    is what [writer.save] was given, path and model, and [pdb_list]. *)
Fixpoint split_pdb_loop `{OSPath} (filename : string) (structure : list (Z * PDB.model))
  (checked : bool) (workdir : string)
  (saved : list (string * PDB.model)) (pdb_list : list string)
  : list (string * PDB.model) * list string :=
  match structure with
  | [] => (saved, pdb_list)
  | (model_id, model) :: structure' =>
      split_pdb_loop filename structure' checked workdir
        (saved ++ [(path_join workdir (model_filename filename model_id checked), model)])
        (pdb_list ++ [model_filename filename model_id checked])
  end.

(** [split_pdb]: the files written and the list returned. *)
Definition split_pdb `{OSPath} (filename : string) (structure : list (Z * PDB.model))
  (checked : bool) (workdir : string) : list (string * PDB.model) * list string :=
  split_pdb_loop filename structure checked workdir [] [].

(** Paths of a flat directory: names without a directory part and without
    an extension. *)
#[export] Instance flat_path : OSPath := {|
  basename := fun p => p;
  splitext := fun p => (p, "");
  path_join := fun a b => (a ++ "/" ++ b)%string
|}.

(** The place of [x] in [l], counted from 0: the key of the arrangement
    [l]. *)
Fixpoint place {A} (dec : forall x y : A, {x = y} + {x <> y}) (l : list A) (x : A)
  : nat :=
  match l with
  | [] => 0
  | y :: l' => if dec x y then 0 else S (place dec l' x)
  end.

(** A token without a residue type: a chain id and a number, so that its
    second character is a digit. Line 217 keeps such a token as it is. *)
Definition typeless (s : string) : Prop :=
  exists c, Py.index 1 s = Some c /\ Py.isdigit c = true.

(* ===================================================================== *)
(** * Part II: properties                                                  *)
(* ===================================================================== *)

(** ** The monad *)

Lemma outcome_bind {A B} (m : M A) (f : A -> M B) :
  outcome (bind m f) =
  match outcome m with
  | Ok a => outcome (f a)
  | Raise e => Raise e
  end.
Proof.
  destruct m as [l [a | e]]; simpl; [ | reflexivity ].
  destruct (f a); reflexivity.
Qed.

Lemma logged_bind {A B} (m : M A) (f : A -> M B) :
  logged (bind m f) =
  match outcome m with
  | Ok a => logged m ++ logged (f a)
  | Raise e => logged m
  end.
Proof.
  destruct m as [l [a | e]]; simpl; [ | reflexivity ].
  destruct (f a); reflexivity.
Qed.

Lemma M_eq {A} (m : M A) : m = (logged m, outcome m).
Proof. destruct m; reflexivity. Qed.

Lemma bind_ret_l {A B} (a : A) (f : A -> M B) : bind (ret a) f = f a.
Proof. unfold bind, ret. destruct (f a); reflexivity. Qed.

(** ** Sets as Python counts them *)

Lemma nodup_length_le {A} (dec : forall x y : A, {x = y} + {x <> y}) (l : list A) :
  List.length (nodup dec l) <= List.length l.
Proof.
  induction l as [ | x l IH]; simpl; [ lia | ].
  destruct (in_dec dec x l); simpl; lia.
Qed.

(** [len(set(l)) == len(l)] says that [l] has no repeated element. *)
Lemma len_set_full_iff {A} (dec : forall x y : A, {x = y} + {x <> y}) (l : list A) :
  Py.len_set dec l = List.length l <-> NoDup l.
Proof.
  unfold Py.len_set. split.
  - induction l as [ | x l IH]; simpl; intro H; [ constructor | ].
    destruct (in_dec dec x l) as [Hin | Hin].
    + pose proof (nodup_length_le dec l). lia.
    + simpl in H. constructor; [ exact Hin | apply IH; lia ].
  - intro H. now rewrite (nodup_fixed_point dec H).
Qed.

Lemma mem_true_iff {A} (dec : forall x y : A, {x = y} + {x <> y}) x (l : list A) :
  Py.mem dec x l = true <-> In x l.
Proof. unfold Py.mem. destruct (in_dec dec x l); split; intros; congruence || tauto. Qed.

Lemma mem_false_iff {A} (dec : forall x y : A, {x = y} + {x <> y}) x (l : list A) :
  Py.mem dec x l = false <-> ~ In x l.
Proof. unfold Py.mem. destruct (in_dec dec x l); split; intros; congruence || tauto. Qed.

(** ** [parse_mutlist_file] *)

Lemma index0_nonempty (s : string) :
  (String.length s =? 0) = false -> exists c, Py.index 0 s = Some c.
Proof. destruct s; simpl; [ discriminate | eauto ]. Qed.

Lemma parse_mutlist_lines_ok (lines : list string) :
  forall acc,
    Forall known_code (mutlist_codes lines) ->
    outcome (parse_mutlist_lines lines acc) = Ok (acc ++ mutlist_codes lines).
Proof.
  induction lines as [ | line rest IH]; intros acc Hall; simpl.
  - now rewrite app_nil_r.
  - unfold mutlist_codes in Hall. simpl in Hall. apply Forall_app in Hall.
    destruct Hall as [Hhere Hrest]. unfold mutlist_codes at 1. simpl.
    fold (mutlist_codes rest). unfold mutlist_code in *.
    destruct (negb (line =? "")%string && negb (Py.startswith "#" line)); simpl in *;
      [ | now apply IH ].
    destruct (String.length (Py.strip line) =? 0) eqn:Hlen; simpl in *; [ now apply IH | ].
    destruct (index0_nonempty _ Hlen) as [c Hc]. rewrite Hc in *.
    rewrite outcome_bind.
    assert (Hw : outcome (if 1 <? String.length (Py.strip line)
                          then log WARNING "more than one character per line found in mutation list file; only the first letter will be considered" []
                          else ret tt) = Ok tt) by (destruct (1 <? _); reflexivity).
    rewrite Hw. inversion Hhere as [ | ? ? Hk _ ]; subst.
    apply (mem_true_iff ascii_dec) in Hk. rewrite Hk. simpl.
    rewrite IH by assumption. now rewrite <- app_assoc.
Qed.

Lemma parse_mutlist_lines_unknown (lines : list string) :
  forall acc,
    Exists (fun c => ~ known_code c) (mutlist_codes lines) ->
    outcome (parse_mutlist_lines lines acc) = Raise TypeError.
Proof.
  induction lines as [ | line rest IH]; intros acc Hex; simpl.
  - inversion Hex.
  - unfold mutlist_codes in Hex. simpl in Hex. fold (mutlist_codes rest) in Hex.
    unfold mutlist_code in Hex.
    destruct (negb (line =? "")%string && negb (Py.startswith "#" line)); simpl in *;
      [ | now apply IH ].
    destruct (String.length (Py.strip line) =? 0) eqn:Hlen; simpl in *; [ now apply IH | ].
    destruct (index0_nonempty _ Hlen) as [c Hc]. rewrite Hc in *.
    rewrite outcome_bind.
    assert (Hw : outcome (if 1 <? String.length (Py.strip line)
                          then log WARNING "more than one character per line found in mutation list file; only the first letter will be considered" []
                          else ret tt) = Ok tt) by (destruct (1 <? _); reflexivity).
    rewrite Hw.
    destruct (Py.mem ascii_dec c Polypeptide.d1_to_index_keys) eqn:Hk; simpl.
    + apply IH. inversion Hex as [ ? ? Hbad | ? ? Hlater ]; subst; [ | assumption ].
      apply mem_true_iff in Hk. contradiction.
    + reflexivity.
Qed.

Lemma parse_mutlist_lines_none (lines : list string) :
  forall acc,
    mutlist_codes lines = [] ->
    parse_mutlist_lines lines acc = ([], Ok acc).
Proof.
  induction lines as [ | line rest IH]; intros acc Hnil; simpl; [ reflexivity | ].
  unfold mutlist_codes in Hnil. simpl in Hnil. fold (mutlist_codes rest) in Hnil.
  apply app_eq_nil in Hnil. destruct Hnil as [Hhere Hrest].
  unfold mutlist_code in Hhere.
  destruct (negb (line =? "")%string && negb (Py.startswith "#" line)); simpl in *;
    [ | now apply IH ].
  destruct (String.length (Py.strip line) =? 0) eqn:Hlen; simpl in *; [ now apply IH | ].
  destruct (index0_nonempty _ Hlen) as [c Hc]. rewrite Hc in Hhere. discriminate.
Qed.

Lemma known_code_dec (l : list ascii) :
  Forall known_code l \/ Exists (fun c => ~ known_code c) l.
Proof.
  induction l as [ | c l [IH | IH]]; [ left; constructor | | right; now constructor 2 ].
  destruct (in_dec ascii_dec c Polypeptide.d1_to_index_keys).
  - left. now constructor.
  - right. now constructor 1.
Qed.

(** C6. [parse_mutlist_file] keeps the first character of every line that
    is neither empty nor a comment, as it stands, with no case folding:
    it raises [TypeError] when one of these characters is not a one-letter
    code of the alphabet, so on the line [a], while [A] is accepted; it
    raises [TypeError] when a code is repeated; when it raises neither way
    it returns the codes in the order of the lines; and on a file that
    holds no code it logs one error and returns the empty list. *)
Theorem parse_mutlist_file_spec (fname : string) (lines : list string) :
  let codes := mutlist_codes lines in
  let r := parse_mutlist_file fname (Some lines) in
  (Exists (fun c => ~ known_code c) codes -> outcome r = Raise TypeError)
  /\ (Forall known_code codes -> ~ NoDup codes -> outcome r = Raise TypeError)
  /\ (Forall known_code codes -> NoDup codes -> outcome r = Ok codes)
  /\ (codes = [] ->
      r = ([LogRecord ERROR "No residue types found in mutation list" []], Ok []))
  /\ outcome (parse_mutlist_file fname (Some ["a"])) = Raise TypeError
  /\ parse_mutlist_file fname (Some ["A"]) = ([], Ok ["A"%char]).
Proof.
  intros codes r. subst codes r. unfold parse_mutlist_file.
  repeat split.
  - intro Hex. rewrite outcome_bind, (parse_mutlist_lines_unknown _ _ Hex). reflexivity.
  - intros Hall Hdup. rewrite outcome_bind, (parse_mutlist_lines_ok _ _ Hall). simpl.
    rewrite outcome_bind.
    destruct (Py.len_set ascii_dec (mutlist_codes lines) =? List.length (mutlist_codes lines))
      eqn:Hlen; simpl; [ | reflexivity ].
    apply Nat.eqb_eq, len_set_full_iff in Hlen. contradiction.
  - intros Hall Hnd. rewrite outcome_bind, (parse_mutlist_lines_ok _ _ Hall). simpl.
    apply (len_set_full_iff ascii_dec) in Hnd. rewrite outcome_bind, Hnd, Nat.eqb_refl. simpl.
    rewrite outcome_bind. destruct (List.length (mutlist_codes lines) =? 0); reflexivity.
  - intro Hnil. rewrite (parse_mutlist_lines_none _ _ Hnil). reflexivity.
Qed.

(** The file [A], [#...], a blank line, [Cx]: two codes, in order. *)
Lemma parse_mutlist_file_witness :
  outcome (parse_mutlist_file "mutation_list.txt"
             (Some ["A"; "# comment"; " "; "Cx"])) = Ok ["A"%char; "C"%char].
Proof.
  apply (parse_mutlist_file_spec "mutation_list.txt" ["A"; "# comment"; " "; "Cx"]).
  - repeat constructor; unfold known_code; simpl; tauto.
  - repeat constructor; simpl; intuition discriminate.
Defined.

Lemma len_set_one_iff {A} (dec : forall x y : A, {x = y} + {x <> y}) (l : list A) :
  Py.len_set dec l = 1 <-> l <> [] /\ forall x y, In x l -> In y l -> x = y.
Proof.
  unfold Py.len_set. split.
  - intro H. destruct (nodup dec l) as [ | z [ | z' t]] eqn:Hn; try discriminate.
    split.
    + intros ->. discriminate.
    + intros x y Hx Hy.
      apply (nodup_In dec) in Hx, Hy. rewrite Hn in Hx, Hy.
      destruct Hx as [<- | []], Hy as [<- | []]. reflexivity.
  - intros [Hne Hall].
    destruct l as [ | z l]; [ congruence | ].
    assert (Hz : forall x, In x (nodup dec (z :: l)) -> x = z).
    { intros x Hx. apply nodup_In in Hx. apply Hall; [ exact Hx | now left ]. }
    pose proof (NoDup_nodup dec (z :: l)) as Hnd.
    assert (Hin : In z (nodup dec (z :: l))) by (apply nodup_In; now left).
    destruct (nodup dec (z :: l)) as [ | a [ | b t]]; [ destruct Hin | reflexivity | ].
    exfalso. inversion Hnd as [ | ? ? Hnotin _ ]; subst.
    apply Hnotin. rewrite (Hz a), (Hz b); simpl; auto.
Qed.

Lemma same_image_iff {A B} (f : A -> B) (l : list A) :
  (forall x y, In x (map f l) -> In y (map f l) -> x = y)
  <-> (forall a b, In a l -> In b l -> f a = f b).
Proof.
  split.
  - intros H a b Ha Hb. apply H; now apply in_map.
  - intros H x y Hx Hy. apply in_map_iff in Hx, Hy.
    destruct Hx as [a [<- Ha]], Hy as [b [<- Hb]]. now apply H.
Qed.

(** ** Regular expressions: the matcher accepts only what the expression denotes *)

Lemma nullable_sound (r : Re.re) : Re.nullable r = true -> matches r "".
Proof.
  induction r; simpl; intro H; try discriminate.
  - constructor.
  - apply andb_prop in H. destruct H as [H1 H2].
    change "" with ("" ++ "")%string. constructor; auto.
  - apply orb_prop in H. destruct H as [H | H];
      [ apply matches_alt_l | apply matches_alt_r ]; auto.
  - constructor.
Qed.

Lemma deriv_sound (r : Re.re) :
  forall c s, matches (Re.deriv c r) s -> matches r (String c s).
Proof.
  induction r as [ | | p | r1 IH1 r2 IH2 | r1 IH1 r2 IH2 | r1 IH1 ]; simpl; intros c s H.
  - inversion H.
  - inversion H.
  - destruct (p c) eqn:Hp; inversion H; subst. now constructor.
  - assert (Hseq : forall t, matches (Re.Seq (Re.deriv c r1) r2) t ->
                             matches (Re.Seq r1 r2) (String c t)).
    { intros t Ht. inversion Ht; subst.
      change (String c (s1 ++ s2)) with (String c s1 ++ s2)%string.
      constructor; auto. }
    destruct (Re.nullable r1) eqn:Hn; [ | now apply Hseq ].
    inversion H; subst; [ now apply Hseq | ].
    change (String c s) with ("" ++ String c s)%string.
    constructor; [ now apply nullable_sound | auto ].
  - inversion H; subst; [ apply matches_alt_l | apply matches_alt_r ]; auto.
  - inversion H; subst.
    change (String c (s1 ++ s2)) with (String c s1 ++ s2)%string.
    constructor; auto.
Qed.

Lemma fullmatch_sound (s : string) :
  forall r, Re.fullmatch r s = true -> matches r s.
Proof.
  unfold Re.fullmatch. induction s as [ | c s IH]; simpl; intros r H.
  - now apply nullable_sound.
  - apply deriv_sound, IH, H.
Qed.

Lemma matches_nil_nullable (r : Re.re) (s : string) :
  matches r s -> s = "" -> Re.nullable r = true.
Proof.
  induction 1 as [ | p c Hp | r1 r2 s1 s2 _ IH1 _ IH2 | r1 r2 s _ IH | r1 r2 s _ IH
                 | r | r s1 s2 _ _ _ _ ]; simpl; intro Hs; try reflexivity.
  - discriminate.
  - destruct s1; [ | discriminate ]. simpl in Hs. now rewrite IH1, IH2.
  - now rewrite IH.
  - rewrite IH by assumption. apply orb_true_r.
Qed.

Lemma deriv_complete (r : Re.re) (s0 : string) :
  matches r s0 -> forall c s, s0 = String c s -> matches (Re.deriv c r) s.
Proof.
  induction 1 as [ | p c0 Hp | r1 r2 s1 s2 H1 IH1 H2 IH2 | r1 r2 s' _ IH | r1 r2 s' _ IH
                 | r | r s1 s2 H1 IH1 H2 IH2 ]; intros c s Hs; simpl.
  - discriminate.
  - injection Hs as -> <-. rewrite Hp. constructor.
  - destruct s1 as [ | a s1].
    + simpl in Hs. rewrite (matches_nil_nullable r1 "" H1 eq_refl).
      apply matches_alt_r. now apply IH2.
    + simpl in Hs. injection Hs as -> <-.
      assert (Hseq : matches (Re.Seq (Re.deriv c r1) r2) (s1 ++ s2))
        by (constructor; auto).
      destruct (Re.nullable r1); [ now apply matches_alt_l | exact Hseq ].
  - apply matches_alt_l. now apply IH.
  - apply matches_alt_r. now apply IH.
  - discriminate.
  - destruct s1 as [ | a s1].
    + simpl in Hs. now apply IH2.
    + simpl in Hs. injection Hs as -> <-. constructor; auto.
Qed.

Lemma fullmatch_complete (s : string) :
  forall r, matches r s -> Re.fullmatch r s = true.
Proof.
  unfold Re.fullmatch. induction s as [ | c s IH]; simpl; intros r H.
  - now apply (matches_nil_nullable r "").
  - apply IH. now apply (deriv_complete r (String c s)).
Qed.

(** The matcher decides membership in the language of the expression. *)
Theorem fullmatch_iff (r : Re.re) (s : string) :
  Re.fullmatch r s = true <-> matches r s.
Proof. split; [ apply fullmatch_sound | apply fullmatch_complete ]. Qed.

Lemma is_AZ_not_underscore (c : ascii) : Py.is_AZ c = true -> c <> "_"%char.
Proof. intros H ->. discriminate. Qed.

Lemma is_09_not_underscore (c : ascii) : Py.is_09 c = true -> c <> "_"%char.
Proof. intros H ->. discriminate. Qed.

(** A line that matches [re_position] starts with two characters other
    than the separator. *)
Lemma re_position_head (s : string) :
  matches re_position s ->
  exists c1 c2 rest,
    s = String c1 (String c2 rest) /\ c1 <> "_"%char /\ c2 <> "_"%char.
Proof.
  unfold re_position, Re.Plus, Re.Opt, Re.Chr. intro H.
  inversion H as [ | | ? ? u w Hu _ | | | | ]; subst; clear H.
  inversion Hu as [ | | ? ? body us Hbody _ | | | | ]; subst; clear Hu.
  inversion Hbody as [ | | ? ? letters digits Hl Hd | | | | ]; subst; clear Hbody.
  inversion Hd as [ | | ? ? d1 ds Hd1 _ | | | | ]; subst; clear Hd.
  inversion Hd1 as [ | ? d Hdig | | | | | ]; subst; clear Hd1.
  inversion Hl as [ | | ? ? o a Ho Ha | | | | ]; subst; clear Hl.
  inversion Ha as [ | ? c Hc | | | | | ]; subst; clear Ha.
  inversion Ho as [ | | | ? ? ? Ho1 | ? ? ? Ho2 | | ]; subst; clear Ho.
  - inversion Ho1 as [ | ? c' Hc' | | | | | ]; subst. simpl.
    eexists _, _, _. split; [ reflexivity | ].
    split; now apply is_AZ_not_underscore.
  - inversion Ho2; subst. simpl.
    eexists _, _, _. split; [ reflexivity | ].
    split; [ now apply is_AZ_not_underscore | now apply is_09_not_underscore ].
Qed.

(** ** [str.split] *)

Lemma split_nonempty (sep : ascii) (s : string) :
  exists p ps, Py.split sep s = p :: ps.
Proof.
  induction s as [ | c s [p [ps IH]]]; simpl; eauto.
  destruct (Ascii.eqb c sep); rewrite ?IH; eauto.
Qed.

Lemma split_head2 (c1 c2 : ascii) (rest : string) :
  c1 <> "_"%char -> c2 <> "_"%char ->
  exists p ps,
    Py.split "_" (String c1 (String c2 rest)) = String c1 (String c2 p) :: ps.
Proof.
  intros H1 H2. simpl.
  apply Ascii.eqb_neq in H1, H2. rewrite H1, H2.
  destruct (split_nonempty "_" rest) as [p [ps ->]]. eauto.
Qed.

(** ** The stable sort *)

Section SortFacts.
Context {A K : Type} (key : A -> K) (le : K -> K -> bool).

Lemma insert_sorted_perm (x : A) (l : list A) :
  Permutation (Py.insert_sorted key le x l) (x :: l).
Proof.
  induction l as [ | y l IH]; simpl; [ reflexivity | ].
  destruct (le (key x) (key y)); [ reflexivity | ].
  rewrite IH. apply perm_swap.
Qed.

Lemma sorted_perm (l : list A) : Permutation (Py.sorted key le l) l.
Proof.
  induction l as [ | x l IH]; simpl; [ reflexivity | ].
  rewrite insert_sorted_perm. now constructor.
Qed.

Hypothesis le_total : forall a b, le a b = true \/ le b a = true.

Lemma insert_sorted_Sorted (x : A) (l : list A) :
  Sorted (sorted_rel key le) l -> Sorted (sorted_rel key le) (Py.insert_sorted key le x l).
Proof.
  induction l as [ | y l IH]; simpl; intro Hs.
  - repeat constructor.
  - destruct (le (key x) (key y)) eqn:Hxy.
    + constructor; [ exact Hs | now constructor ].
    + inversion Hs as [ | ? ? Hl Hhd ]; subst.
      constructor; [ now apply IH | ].
      assert (Hyx : sorted_rel key le y x).
      { unfold sorted_rel. destruct (le_total (key x) (key y)); congruence. }
      destruct l as [ | z l]; simpl; [ now constructor | ].
      destruct (le (key x) (key z)); constructor; [ exact Hyx | ].
      now inversion Hhd.
Qed.

Lemma sorted_Sorted (l : list A) : Sorted (sorted_rel key le) (Py.sorted key le l).
Proof.
  induction l as [ | x l IH]; simpl; [ constructor | ].
  now apply insert_sorted_Sorted.
Qed.

End SortFacts.

Lemma mapM_ret_map {A B} (f : A -> M B) (g : A -> B) (l : list A) :
  (forall x, In x l -> f x = ret (g x)) -> mapM f l = ret (map g l).
Proof.
  induction l as [ | x l IH]; simpl; intro H; [ reflexivity | ].
  rewrite (H x) by now left. rewrite bind_ret_l.
  rewrite IH by (intros; apply H; now right). now rewrite bind_ret_l.
Qed.

(** ** [parse_poslist_file] *)

Lemma drop_restype_long (s : string) :
  2 <= String.length s -> drop_restype s = ret (chain_number s).
Proof.
  destruct s as [ | c1 [ | c2 s]]; simpl; try lia. intros _.
  unfold drop_restype, chain_number. simpl. now destruct (Py.isdigit c2).
Qed.

Lemma poslist_bad_shape_false_iff (residue : tuple) :
  residue <> [] ->
  poslist_bad_shape residue = false
  <-> same_length residue /\ NoDup residue /\ same_digits residue.
Proof.
  intro Hne. unfold poslist_bad_shape.
  rewrite !orb_false_iff, !negb_false_iff, !Nat.eqb_eq.
  rewrite !len_set_one_iff, len_set_full_iff, !same_image_iff.
  unfold same_length, same_digits. split.
  - intros [[[_ H1] H2] [_ H3]]. auto.
  - intros [H1 [H2 H3]].
    assert (forall B (f : string -> B), map f residue <> []).
    { intros B f Hm. apply map_eq_nil in Hm. contradiction. }
    auto.
Qed.

Lemma issubset_true_iff {A} (dec : forall x y : A, {x = y} + {x <> y}) (p q : list A) :
  Py.issubset dec p q = true <-> incl p q.
Proof.
  unfold Py.issubset, incl. rewrite forallb_forall.
  split; intros H x Hx.
  - apply (mem_true_iff dec). auto.
  - apply (mem_true_iff dec). auto.
Qed.

Lemma count_true_zero_iff {A} (f : A -> bool) (l : list A) :
  count_occ bool_dec (map f l) true = 0 <-> forall y, In y l -> f y <> true.
Proof.
  induction l as [ | x l IH]; simpl.
  - split; [ intros _ y [] | reflexivity ].
  - destruct (bool_dec (f x) true) as [Hx | Hx].
    + split; [ discriminate | ]. intro H. exfalso. apply (H x); auto.
    + rewrite IH. split.
      * intros H y [<- | Hy]; auto.
      * intros H y Hy. apply H. now right.
Qed.

Lemma count_true_one_iff {A} (f : A -> bool) (l : list A) :
  count_occ bool_dec (map f l) true = 1 <-> exactly_one (fun x => f x = true) l.
Proof.
  unfold exactly_one. split.
  - induction l as [ | x l IH]; simpl; [ discriminate | ].
    destruct (bool_dec (f x) true) as [Hx | Hx]; intro H.
    + exists [], x, l. repeat split; auto.
      apply count_true_zero_iff. simpl. lia.
    + destruct (IH H) as [l1 [z [l2 [-> [Hz Hno]]]]].
      exists (x :: l1), z, l2. repeat split; auto.
      intros y [<- | Hy]; auto.
  - intros [l1 [x [l2 [-> [Hx Hno]]]]].
    rewrite map_app, count_occ_app. simpl.
    destruct (bool_dec (f x) true) as [_ | Hn]; [ | contradiction ].
    assert (H1 : count_occ bool_dec (map f l1) true = 0).
    { apply count_true_zero_iff. intros y Hy. apply Hno, in_or_app. now left. }
    assert (H2 : count_occ bool_dec (map f l2) true = 0).
    { apply count_true_zero_iff. intros y Hy. apply Hno, in_or_app. now right. }
    lia.
Qed.

Lemma exactly_one_ext {A} (P Q : A -> Prop) (l : list A) :
  (forall x, P x <-> Q x) -> exactly_one P l -> exactly_one Q l.
Proof.
  intros Hext [l1 [x [l2 [-> [Hx Hno]]]]].
  exists l1, x, l2. repeat split; [ now apply Hext | ].
  intros y Hy HQ. apply (Hno y Hy). now apply Hext.
Qed.

Lemma count_matches_one_iff (residue : tuple) (unique_residues : list tuple) :
  count_matches residue unique_residues = 1
  <-> exactly_one (incl residue) unique_residues.
Proof.
  unfold count_matches. rewrite count_true_one_iff.
  split; apply exactly_one_ext; intro g;
    [ | symmetry ]; apply issubset_true_iff.
Qed.

(** Past the two format checks, a line either fails to match one residue
    group or is returned without its residue types, sorted. *)
Lemma parse_poslist_line_checked (unique_residues : list tuple) (line : string) :
  let residue := Py.split "_" (Py.strip line) in
  Re.fullmatch re_position (Py.strip line) = true ->
  poslist_bad_shape residue = false ->
  parse_poslist_line unique_residues line =
  if negb (Py.mem tuple_dec residue unique_residues)
     && negb (count_matches residue unique_residues =? 1)
  then poslist_match_error line
  else ret (Py.sorted (fun x => x) String.leb (map chain_number residue)).
Proof.
  intros residue Hre Hshape. unfold parse_poslist_line.
  rewrite Hre. simpl. fold residue. rewrite Hshape.
  assert (Hlong : forall x, In x residue -> drop_restype x = ret (chain_number x)).
  { destruct (re_position_head _ (fullmatch_sound _ _ Hre))
      as [c1 [c2 [rest [Hs [H1 H2]]]]].
    destruct (split_head2 c1 c2 rest H1 H2) as [p [ps Hsplit]].
    assert (Hres : residue = String c1 (String c2 p) :: ps)
      by (unfold residue; now rewrite Hs).
    apply poslist_bad_shape_false_iff in Hshape; [ | rewrite Hres; discriminate ].
    destruct Hshape as [Hlen _].
    intros x Hx. apply drop_restype_long.
    rewrite (Hlen x (String c1 (String c2 p)) Hx) by (rewrite Hres; now left).
    simpl. lia. }
  rewrite (mapM_ret_map _ _ _ Hlong).
  destruct (Py.mem tuple_dec residue unique_residues); simpl; [ reflexivity | ].
  destruct (count_matches residue unique_residues =? 1); reflexivity.
Qed.

(** The three ways a line of the position list ends. *)
Lemma parse_poslist_line_cases (unique_residues : list tuple) (line : string) :
  let residue := Py.split "_" (Py.strip line) in
  parse_poslist_line unique_residues line = poslist_format_error line
  \/ parse_poslist_line unique_residues line = poslist_match_error line
  \/ (parse_poslist_line unique_residues line
      = ret (Py.sorted (fun x => x) String.leb (map chain_number residue))
      /\ exists u, In u unique_residues /\ incl residue u).
Proof.
  intro residue.
  destruct (Re.fullmatch re_position (Py.strip line)) eqn:Hre.
  - destruct (poslist_bad_shape residue) eqn:Hshape.
    + left. unfold parse_poslist_line. rewrite Hre. simpl. fold residue.
      now rewrite Hshape.
    + rewrite (parse_poslist_line_checked unique_residues line Hre Hshape). fold residue.
      destruct (Py.mem tuple_dec residue unique_residues) eqn:Hmem; simpl.
      * right; right. split; [ reflexivity | ].
        apply (mem_true_iff tuple_dec) in Hmem. exists residue. auto using incl_refl.
      * destruct (count_matches residue unique_residues =? 1) eqn:Hcount; simpl.
        -- right; right. split; [ reflexivity | ].
           apply Nat.eqb_eq, count_matches_one_iff in Hcount.
           destruct Hcount as [l1 [u [l2 [-> [Hu _]]]]].
           exists u. split; [ apply in_elt | exact Hu ].
        -- right; left. reflexivity.
  - left. unfold parse_poslist_line. now rewrite Hre.
Qed.

(** C8, as the code has it. On a line that matches the whole-line
    pattern, [parse_poslist_file] logs the format error and raises
    [TypeError] exactly when the tokens between the separators do not all
    have the same length as strings, or do not all hold the same digits,
    or are not pairwise distinct; a line that passes the three tests goes
    on to the matching step and logs no format error. *)
Theorem parse_poslist_line_shape (unique_residues : list tuple) (line : string) :
  let residue := Py.split "_" (Py.strip line) in
  let r := parse_poslist_line unique_residues line in
  Re.fullmatch re_position (Py.strip line) = true ->
  (same_length residue /\ same_digits residue /\ NoDup residue ->
   ~ In (LogRecord ERROR "the position list file is not in the right format" [])
        (logged r))
  /\ (~ (same_length residue /\ same_digits residue /\ NoDup residue) ->
      r = poslist_format_error line).
Proof.
  intros residue r Hre.
  assert (Hne : residue <> []).
  { unfold residue. destruct (split_nonempty "_" (Py.strip line)) as [p [ps ->]].
    discriminate. }
  split.
  - intros [Hlen [Hdig Hnd]].
    assert (Hshape : poslist_bad_shape residue = false)
      by (apply poslist_bad_shape_false_iff; auto).
    unfold r. rewrite (parse_poslist_line_checked _ _ Hre Hshape). fold residue.
    destruct (negb (Py.mem tuple_dec residue unique_residues)
              && negb (count_matches residue unique_residues =? 1)); simpl.
    + intros [H | []]. discriminate.
    + intros [].
  - intro Hbad. unfold r, parse_poslist_line. rewrite Hre. simpl. fold residue.
    destruct (poslist_bad_shape residue) eqn:Hshape; [ reflexivity | ].
    apply poslist_bad_shape_false_iff in Hshape; [ | exact Hne ].
    exfalso. apply Hbad. tauto.
Qed.

(** The line [AA12_AB12] passes the three tests. *)
Lemma parse_poslist_line_shape_witness :
  ~ In (LogRecord ERROR "the position list file is not in the right format" [])
       (logged (parse_poslist_line [["AA12"; "AB12"]] "AA12_AB12")).
Proof.
  apply (parse_poslist_line_shape [["AA12"; "AB12"]] "AA12_AB12").
  - reflexivity.
  - repeat split.
    + intros x y [<- | [<- | []]] [<- | [<- | []]]; reflexivity.
    + intros x y [<- | [<- | []]] [<- | [<- | []]]; reflexivity.
    + repeat constructor; simpl; intuition discriminate.
Defined.

(** C8, as stated, fails. The tokens of [A12_AB12] end in digit runs of
    the same length, carry the same number and are distinct, and the line
    matches the pattern, yet the format error is raised: the test of the
    code is on the length of the whole token. Likewise [A012_AB12], whose
    tokens have the same length and the same number, 12, is refused: the
    code compares the digits as text. *)
Lemma parse_poslist_line_suffix_counterexample :
  Re.fullmatch re_position "A12_AB12" = true
  /\ map digit_suffix (Py.split "_" "A12_AB12") = ["12"; "12"]
  /\ map (fun t => Py.int (digit_suffix t)) (Py.split "_" "A12_AB12")
     = [Some 12%Z; Some 12%Z]
  /\ NoDup (Py.split "_" "A12_AB12")
  /\ parse_poslist_line [["AA12"; "AB12"]] "A12_AB12"
     = poslist_format_error "A12_AB12"
  /\ Re.fullmatch re_position "A012_AB12" = true
  /\ map String.length (Py.split "_" "A012_AB12") = [4; 4]
  /\ map (fun t => Py.int (digit_suffix t)) (Py.split "_" "A012_AB12")
     = [Some 12%Z; Some 12%Z]
  /\ parse_poslist_line [["AA12"; "AB12"]] "A012_AB12"
     = poslist_format_error "A012_AB12".
Proof.
  repeat split.
  repeat constructor; simpl; intuition discriminate.
Qed.

(** The matching step, as the code has it. A line that passed the format
    checks and is not one of the residue groups is accepted exactly when
    its tokens, as written, all belong to exactly one residue group, as
    written; it is then returned sorted, each token as line 217 rewrites
    it. With no such group or several, and so whenever one token belongs
    to no group, the matching error is logged and [TypeError] raised. *)
Lemma parse_poslist_line_partial (unique_residues : list tuple) (line : string) :
  let residue := Py.split "_" (Py.strip line) in
  let r := parse_poslist_line unique_residues line in
  Re.fullmatch re_position (Py.strip line) = true ->
  poslist_bad_shape residue = false ->
  ~ In residue unique_residues ->
  (exactly_one (incl residue) unique_residues ->
   exists out,
     r = ([], Ok out)
     /\ Permutation out (map chain_number residue)
     /\ Sorted str_le out)
  /\ (~ exactly_one (incl residue) unique_residues -> r = poslist_match_error line)
  /\ ((exists t, In t residue /\ forall g, In g unique_residues -> ~ In t g) ->
      r = poslist_match_error line).
Proof.
  intros residue r Hre Hshape Hnotin.
  unfold r. rewrite (parse_poslist_line_checked _ _ Hre Hshape). fold residue.
  apply (mem_false_iff tuple_dec) in Hnotin. rewrite Hnotin. simpl.
  assert (Hnone : ~ exactly_one (incl residue) unique_residues ->
                  (if negb (count_matches residue unique_residues =? 1)
                   then poslist_match_error line
                   else ret (Py.sorted (fun x => x) String.leb (map chain_number residue)))
                  = @poslist_match_error tuple line).
  { intro Hno. destruct (count_matches residue unique_residues =? 1) eqn:Hc;
      [ | reflexivity ].
    apply Nat.eqb_eq, count_matches_one_iff in Hc. contradiction. }
  split; [ | split ].
  - intro Hone. apply count_matches_one_iff in Hone. rewrite Hone. simpl.
    eexists. split; [ reflexivity | ]. split.
    + apply sorted_perm.
    + apply (sorted_Sorted (fun x : string => x) String.leb String.leb_total).
  - exact Hnone.
  - intros [t [Ht Habsent]]. apply Hnone.
    intros [l1 [g [l2 [Hur [Hincl _]]]]].
    apply (Habsent g); [ rewrite Hur; apply in_or_app; right; now left | ].
    now apply Hincl.
Qed.

(** The line [AB12_AA12] against the one group [("AA12", "AB12")]. *)
Example parse_poslist_line_partial_example :
  exists out,
    parse_poslist_line [["AA12"; "AB12"]] "AB12_AA12" = ([], Ok out)
    /\ Permutation out (map chain_number ["AB12"; "AA12"])
    /\ Sorted str_le out.
Proof.
  apply (parse_poslist_line_partial [["AA12"; "AB12"]] "AB12_AA12").
  - reflexivity.
  - reflexivity.
  - simpl. intuition discriminate.
  - exists [], ["AA12"; "AB12"], []. repeat split.
    + intros x [<- | [<- | []]]; simpl; auto.
    + intros y [].
Qed.

(** C2. The regular expression takes a token with or without its
    residue type, and line 217 keeps a token without one as it is; the
    line [A12_B12] passes the format checks, and without residue types
    its tokens are those of the one group [("AA12", "AB12")]. Still the
    line is refused, where [AA12_AB12] is accepted: the subset test of
    line 212 is on the tokens as written, residue type included. So it is
    for every line that has a token without residue type, against residue
    groups whose chain ids are not digits: [TypeError]. *)
Theorem parse_poslist_line_typeless :
  Re.fullmatch re_position "A12_B12" = true
  /\ poslist_bad_shape (Py.split "_" "A12_B12") = false
  /\ mapM drop_restype (Py.split "_" "A12_B12") = ret ["A12"; "B12"]
  /\ map (fun g => Py.issubset string_dec
                     (map chain_number (Py.split "_" "A12_B12"))
                     (map chain_number g)) [["AA12"; "AB12"]] = [true]
  /\ parse_poslist_line [["AA12"; "AB12"]] "A12_B12" = poslist_match_error "A12_B12"
  /\ parse_poslist_line [["AA12"; "AB12"]] "AA12_AB12" = ret ["A12"; "B12"]
  /\ forall (unique_residues : list tuple) (line : string),
      (forall u s, In u unique_residues -> In s u -> lettered_chain s) ->
      (exists s, In s (Py.split "_" (Py.strip line)) /\ typeless s) ->
      outcome (parse_poslist_line unique_residues line) = Raise TypeError.
Proof.
  repeat (split; [ reflexivity | ]).
  intros unique_residues line Hchain [s [Hs [c [Hc Hdigit]]]].
  destruct (parse_poslist_line_cases unique_residues line) as [H | [H | [_ [u [Hu Hincl]]]]].
  - now rewrite H.
  - now rewrite H.
  - exfalso. destruct (Hchain u s Hu (Hincl s Hs)) as [c' [Hc' Hletter]].
    congruence.
Qed.

(** The line [A13] against two residue groups. *)
Lemma parse_poslist_line_typeless_witness :
  outcome (parse_poslist_line [["AA12"; "AB12"]; ["CA13"; "CB13"]] "A13")
  = Raise TypeError.
Proof.
  apply (proj2 (proj2 (proj2 (proj2 (proj2 (proj2 parse_poslist_line_typeless)))))).
  - intros u s [<- | [<- | []]] [<- | [<- | []]]; eexists; split; reflexivity.
  - exists "A13". split; [ now left | ]. eexists. split; reflexivity.
Defined.

(** ** [filter_reslist] *)

Lemma N_of_ascii_inj (a b : ascii) : N_of_ascii a = N_of_ascii b -> a = b.
Proof.
  intro H. rewrite <- (ascii_N_embedding a), <- (ascii_N_embedding b). now rewrite H.
Qed.

(** The comparison of Python on the keys is the order of the statement. *)
Lemma key_le_iff (k1 k2 : ascii * Z) : key_le k1 k2 = true <-> key_order k1 k2.
Proof.
  destruct k1 as [c1 n1], k2 as [c2 n2].
  unfold key_le, key_order, Ascii.ltb, Ascii.compare. simpl.
  destruct (N.compare_spec (N_of_ascii c1) (N_of_ascii c2)) as [Heq | Hlt | Hgt].
  - apply N_of_ascii_inj in Heq. subst c2.
    rewrite Ascii.eqb_refl, Z.leb_le. split; [ auto | ].
    intros [H | [_ H]]; [ lia | exact H ].
  - split; auto.
  - assert (Hne : c1 <> c2) by (intros ->; lia).
    apply Ascii.eqb_neq in Hne. rewrite Hne. split; [ discriminate | ].
    intros [H | [H _]]; [ lia | ]. apply Ascii.eqb_neq in Hne. contradiction.
Qed.

Lemma key_le_total (k1 k2 : ascii * Z) : key_le k1 k2 = true \/ key_le k2 k1 = true.
Proof.
  rewrite !key_le_iff. unfold key_order.
  destruct (N.lt_trichotomy (N_of_ascii (fst k1)) (N_of_ascii (fst k2)))
    as [H | [H | H]]; auto.
  apply N_of_ascii_inj in H.
  destruct (Z.le_ge_cases (snd k1) (snd k2)); auto.
Qed.

Lemma key_order_trans (k1 k2 k3 : ascii * Z) :
  key_order k1 k2 -> key_order k2 k3 -> key_order k1 k3.
Proof.
  unfold key_order. intros [H1 | [E1 H1]] [H2 | [E2 H2]].
  - left. lia.
  - left. now rewrite <- E2.
  - left. now rewrite E1.
  - right. split; [ congruence | lia ].
Qed.

Lemma key_order_antisym (k1 k2 : ascii * Z) :
  key_order k1 k2 -> key_order k2 k1 -> k1 = k2.
Proof.
  destruct k1 as [c1 n1], k2 as [c2 n2]. unfold key_order. simpl.
  intros [H1 | [E1 H1]] [H2 | [E2 H2]]; subst; try lia.
  f_equal. lia.
Qed.

Lemma NoDup_map_injective {A B} (f : A -> B) (l : list A) :
  NoDup (map f l) -> forall a b, In a l -> In b l -> f a = f b -> a = b.
Proof.
  induction l as [ | x l IH]; simpl; intros Hnd a b Ha Hb Hab; [ destruct Ha | ].
  inversion Hnd as [ | ? ? Hnotin Hnd' ]; subst.
  destruct Ha as [<- | Ha], Hb as [<- | Hb]; auto.
  - exfalso. apply Hnotin. rewrite Hab. now apply in_map.
  - exfalso. apply Hnotin. rewrite <- Hab. now apply in_map.
Qed.

Lemma Sorted_impl {A} (R R' : A -> A -> Prop) (l : list A) :
  (forall a b, R a b -> R' a b) -> Sorted R l -> Sorted R' l.
Proof.
  intros Himp Hs. induction Hs as [ | a l Hs IH Hhd]; constructor; auto.
  destruct Hhd; constructor; auto.
Qed.

(** Two sorted arrangements of the same elements are the same list, when
    the order is transitive and no two of the elements are equivalent. *)
Lemma StronglySorted_perm_eq {A} (R : A -> A -> Prop) :
  forall l1 l2 : list A,
    (forall a b, In a l1 -> In b l1 -> R a b -> R b a -> a = b) ->
    StronglySorted R l1 -> StronglySorted R l2 -> Permutation l1 l2 -> l1 = l2.
Proof.
  induction l1 as [ | a l1 IH]; intros l2 Hanti Hs1 Hs2 Hp.
  - now apply Permutation_nil in Hp.
  - destruct l2 as [ | b l2];
      [ apply Permutation_sym, Permutation_nil in Hp; discriminate | ].
    apply StronglySorted_inv in Hs1, Hs2.
    destruct Hs1 as [Hs1 Ha], Hs2 as [Hs2 Hb].
    rewrite Forall_forall in Ha, Hb.
    assert (Hab : a = b).
    { assert (Hin_a : In a (b :: l2)) by (apply (Permutation_in a Hp); now left).
      assert (Hin_b : In b (a :: l1))
        by (apply (Permutation_in b (Permutation_sym Hp)); now left).
      destruct Hin_a as [<- | Hin_a]; [ reflexivity | ].
      destruct Hin_b as [-> | Hin_b]; [ reflexivity | ].
      apply Hanti; simpl; auto. }
    subst b. f_equal. apply IH; auto.
    + intros x y Hx Hy. apply Hanti; now right.
    + now apply Permutation_cons_inv in Hp.
Qed.

(** Sorting pairs of key and element by the key sorts the elements. *)
Lemma insert_sorted_pairs {A K} (key : A -> K) (le : K -> K -> bool) (x : A)
  (L : list (K * A)) :
  Forall (fun p => fst p = key (snd p)) L ->
  map snd (Py.insert_sorted fst le (key x, x) L)
  = Py.insert_sorted key le x (map snd L).
Proof.
  induction L as [ | [k y] L IH]; simpl; intro H; [ reflexivity | ].
  inversion H as [ | ? ? Hk HL ]; subst. simpl in Hk. subst k.
  destruct (le (key x) (key y)); simpl; [ reflexivity | ].
  now rewrite IH.
Qed.

Lemma sorted_pairs {A K} (key : A -> K) (le : K -> K -> bool) (l : list A) :
  map snd (Py.sorted fst le (combine (map key l) l)) = Py.sorted key le l.
Proof.
  induction l as [ | x l IH]; simpl; [ reflexivity | ].
  rewrite insert_sorted_pairs, IH; [ reflexivity | ].
  eapply Permutation_Forall; [ apply Permutation_sym, sorted_perm | ].
  clear IH. induction l; simpl; constructor; auto.
Qed.

Lemma sorted_by_keys (l : list tuple) :
  (forall r, In r l -> reslist_key r = ret (key_of r)) ->
  sorted_by reslist_key key_le l = ret (Py.sorted key_of key_le l).
Proof.
  intro H. unfold sorted_by.
  rewrite (mapM_ret_map _ _ _ H), bind_ret_l. now rewrite sorted_pairs.
Qed.

Lemma sorted_key_of_Sorted (l : list tuple) :
  Sorted reslist_order (Py.sorted key_of key_le l).
Proof.
  apply Sorted_impl with (R := sorted_rel key_of key_le).
  - intros a b. apply key_le_iff.
  - apply sorted_Sorted, key_le_total.
Qed.

Lemma reslist_order_trans : Relations_1.Transitive reslist_order.
Proof. intros a b c. apply key_order_trans. Qed.

(** With distinct keys the sorted list does not depend on the order of
    the input. *)
Lemma sorted_key_of_perm (l1 l2 : list tuple) :
  NoDup (map key_of l1) -> Permutation l1 l2 ->
  Py.sorted key_of key_le l1 = Py.sorted key_of key_le l2.
Proof.
  intros Hnd Hp.
  apply (StronglySorted_perm_eq reslist_order).
  - intros a b Ha Hb Hab Hba.
    apply (NoDup_map_injective key_of l1 Hnd).
    + now apply (Permutation_in a (sorted_perm key_of key_le l1)).
    + now apply (Permutation_in b (sorted_perm key_of key_le l1)).
    + now apply key_order_antisym.
  - apply Sorted_StronglySorted; [ exact reslist_order_trans | apply sorted_key_of_Sorted ].
  - apply Sorted_StronglySorted; [ exact reslist_order_trans | apply sorted_key_of_Sorted ].
  - rewrite !sorted_perm. exact Hp.
Qed.

Lemma first_match_self (l : list tuple) (r : tuple) :
  In r l ->
  (forall u, In u l -> incl (map Py.tail r) (map Py.tail u) -> u = r) ->
  first_match (map Py.tail r) l (edit_reslist l) = Some r.
Proof.
  induction l as [ | u l IH]; simpl; intros Hin Hapart; [ destruct Hin | ].
  destruct (Py.issubset string_dec (map Py.tail r) (map Py.tail u)) eqn:Hsub.
  - apply issubset_true_iff in Hsub. f_equal. apply Hapart; auto.
  - destruct Hin as [-> | Hin].
    + assert (Hrefl : Py.issubset string_dec (map Py.tail r) (map Py.tail r) = true)
        by (apply issubset_true_iff, incl_refl).
      congruence.
    + apply IH; auto.
Qed.

Lemma filter_loop_all (reslist picks : list tuple) :
  forall acc,
    (forall r, In r picks ->
               first_match (map Py.tail r) reslist (edit_reslist reslist) = Some r) ->
    NoDup (acc ++ picks) ->
    filter_loop reslist (edit_reslist reslist) (map (map Py.tail) picks) acc
    = ret (acc ++ picks).
Proof.
  induction picks as [ | r picks IH]; simpl; intros acc Hfirst Hnd.
  - now rewrite app_nil_r.
  - rewrite (Hfirst r) by now left.
    assert (Hnew : Py.mem tuple_dec r acc = false).
    { apply mem_false_iff. intro Hin. apply NoDup_remove_2 in Hnd.
      apply Hnd, in_or_app. now left. }
    rewrite Hnew. simpl.
    rewrite IH; [ now rewrite <- app_assoc | auto | now rewrite <- app_assoc ].
Qed.

Lemma sortable_perm (l l' : list tuple) :
  sortable l -> Permutation l l' -> sortable l'.
Proof.
  intros [Hk Hd Ha] Hp. split.
  - intros r Hr. apply Hk. now apply (Permutation_in r (Permutation_sym Hp)).
  - apply (Permutation_NoDup (Permutation_map key_of Hp) Hd).
  - intros r1 r2 H1 H2. apply Ha.
    + now apply (Permutation_in r1 (Permutation_sym Hp)).
    + now apply (Permutation_in r2 (Permutation_sym Hp)).
Qed.

(** On a sortable list, given in any order, and every reference entry
    being some list entry without residue types, in any order,
    [filter_reslist] returns the list sorted by key. *)
Lemma filter_reslist_sortable (reslist reslist' ref' : list tuple) :
  sortable reslist ->
  Permutation reslist reslist' ->
  Permutation (map (map Py.tail) reslist) ref' ->
  filter_reslist reslist' ref' = ret (Py.sorted key_of key_le reslist).
Proof.
  intros Hs Hp Href.
  destruct (Permutation_map_inv _ _ (Permutation_sym Href)) as [picks [-> Hpicks]].
  pose proof (sortable_perm _ _ Hs Hp) as [Hk' Hd' Ha'].
  assert (Hin : forall r, In r picks -> In r reslist').
  { intros r Hr. apply (Permutation_in r Hp).
    now apply (Permutation_in r (Permutation_sym Hpicks)). }
  unfold filter_reslist.
  rewrite (filter_loop_all reslist' picks []).
  - rewrite bind_ret_l. simpl.
    rewrite sorted_by_keys by (intros r Hr; apply Hk'; auto).
    now rewrite (sorted_key_of_perm reslist picks (sortable_distinct _ Hs) Hpicks).
  - intros r Hr. apply first_match_self; [ auto | ].
    intros u Hu Hincl. symmetry. apply Ha'; auto.
  - simpl. apply (Permutation_NoDup Hpicks).
    apply (NoDup_map_inv key_of), Hs.
Qed.

(** C4, as the code has it. For a residue list in which every entry has
    a chain and a number to sort by, no two entries share them, and no
    entry's tokens without residue type are all tokens of another entry,
    [filter_reslist] with the list's own reduced tokens as reference
    returns the list sorted by chain id and then by residue number
    compared as an integer; the result is the same for every order of the
    list and of the reference, and filtering it again with the same
    reference returns it unchanged. *)
Theorem filter_reslist_sorts (reslist : list tuple) :
  sortable reslist ->
  exists out,
    filter_reslist reslist (map (map Py.tail) reslist) = ([], Ok out)
    /\ Permutation out reslist
    /\ Sorted reslist_order out
    /\ (forall reslist' ref',
           Permutation reslist reslist' ->
           Permutation (map (map Py.tail) reslist) ref' ->
           filter_reslist reslist' ref' = ([], Ok out))
    /\ filter_reslist out (map (map Py.tail) reslist) = ([], Ok out).
Proof.
  intro Hs. exists (Py.sorted key_of key_le reslist).
  split; [ | split; [ | split; [ | split ] ] ].
  - now apply filter_reslist_sortable.
  - apply sorted_perm.
  - apply sorted_key_of_Sorted.
  - intros reslist' ref' Hp Href. now apply filter_reslist_sortable.
  - apply filter_reslist_sortable; auto.
    apply Permutation_sym, sorted_perm.
Qed.

Ltac in_cases H :=
  simpl in H;
  repeat match type of H with
         | _ \/ _ => destruct H as [H | H]
         | False => destruct H
         end.

(** Three entries, given out of order; [A9] sorts before [A10]. *)
Lemma filter_reslist_sorts_witness :
  exists out,
    filter_reslist [["AA10"]; ["AB1"; "AC1"]; ["CA9"]]
      (map (map Py.tail) [["AA10"]; ["AB1"; "AC1"]; ["CA9"]]) = ([], Ok out)
    /\ Permutation out [["AA10"]; ["AB1"; "AC1"]; ["CA9"]]
    /\ Sorted reslist_order out
    /\ (forall reslist' ref',
           Permutation [["AA10"]; ["AB1"; "AC1"]; ["CA9"]] reslist' ->
           Permutation (map (map Py.tail) [["AA10"]; ["AB1"; "AC1"]; ["CA9"]]) ref' ->
           filter_reslist reslist' ref' = ([], Ok out))
    /\ filter_reslist out (map (map Py.tail) [["AA10"]; ["AB1"; "AC1"]; ["CA9"]])
       = ([], Ok out).
Proof.
  apply (filter_reslist_sorts [["AA10"]; ["AB1"; "AC1"]; ["CA9"]]).
  split.
  - intros r Hr. in_cases Hr; subst r; reflexivity.
  - repeat constructor; simpl; intuition discriminate.
  - intros r1 r2 H1 H2 Hincl.
    in_cases H1; in_cases H2; subst r1 r2; try reflexivity; exfalso;
      specialize (Hincl _ (or_introl eq_refl)); simpl in Hincl;
      intuition discriminate.
Defined.

Example filter_reslist_A9_before_A10 :
  filter_reslist [["AA10"]; ["AB1"; "AC1"]; ["CA9"]] [["B1"; "C1"]; ["A10"]; ["A9"]]
  = ([], Ok [["CA9"]; ["AA10"]; ["AB1"; "AC1"]]).
Proof. reflexivity. Qed.

(** C4, as stated, fails. Two residues of chain A numbered 1 (one of them
    with an insertion code) give two entries that share chain and number:
    with the list's own reduced tokens as reference, [filter_reslist]
    returns one entry of the two, and which one depends on the order of
    the list. Two entries whose numbers are written differently, [01] and
    [1], are both kept but have the same key, so they come back in the
    order they were given in. And an entry without identifier has no key:
    the sort raises [IndexError]. *)
Lemma filter_reslist_shared_position_counterexample :
  filter_reslist [["AA1"]; ["CA1"]] (map (map Py.tail) [["AA1"]; ["CA1"]])
  = ([], Ok [["AA1"]])
  /\ filter_reslist [["CA1"]; ["AA1"]] (map (map Py.tail) [["CA1"]; ["AA1"]])
     = ([], Ok [["CA1"]])
  /\ filter_reslist [["AA01"]; ["CA1"]] (map (map Py.tail) [["AA01"]; ["CA1"]])
     = ([], Ok [["AA01"]; ["CA1"]])
  /\ filter_reslist [["CA1"]; ["AA01"]] (map (map Py.tail) [["CA1"]; ["AA01"]])
     = ([], Ok [["CA1"]; ["AA01"]])
  /\ filter_reslist [[]] (map (map Py.tail) [[]]) = ([], Raise IndexError).
Proof. repeat split. Qed.

(** ** [get_residue_list] and [get_foldx_sequence] *)

Lemma get_residue_list_no_model (multimers : bool) :
  get_residue_list (Ok []) multimers
  = ([LogRecord ERROR "the input PDB file does not contain any model. Exiting ..." []],
     Raise IOError).
Proof. reflexivity. Qed.

(** When the parser raises: [get_residue_list] catches [IOError] alone,
    [get_foldx_sequence] every exception. *)
Example parser_raises (pdb : string) (multimers : bool) :
  get_residue_list (Raise IOError) multimers
  = ([LogRecord ERROR "couldn't read or parse your PDB file" []], Raise IOError)
  /\ get_residue_list (Raise ValueError) multimers = ([], Raise ValueError)
  /\ get_foldx_sequence pdb (Raise ValueError) multimers
     = ([LogRecord ERROR "couldn't read or parse your PDB file" []], Raise IOError).
Proof. repeat split. Qed.

(** Without multimers the entries come from the first model alone. *)
Lemma get_residue_list_first_model (m : PDB.model) (ms : list PDB.model) :
  outcome (get_residue_list (Ok (m :: ms)) false)
  = outcome (get_residue_list (Ok [m]) false).
Proof.
  unfold get_residue_list.
  rewrite !outcome_bind.
  assert (H1 : forall k,
             outcome (if 1 <? k
                      then log WARNING "%d models are present in the input PDB file; only the first will be used."
                             [Py.fmt_d (Z.of_nat k)]
                      else ret tt) = Ok tt) by (intro k; destruct (1 <? k); reflexivity).
  rewrite !H1. reflexivity.
Qed.

(** C3. A structure without a model is refused with [IOError], and
    without multimers the entries come from the first model alone; but in
    multimer mode, the default, [get_residue_list] warns that only the
    first model will be used and then emits the residues of every model:
    on two models of one chain with one residue it returns the entry
    twice. *)
Theorem get_residue_list_models :
  (forall multimers, outcome (get_residue_list (Ok []) multimers) = Raise IOError)
  /\ (forall m ms,
         outcome (get_residue_list (Ok (m :: ms)) false)
         = outcome (get_residue_list (Ok [m]) false))
  /\ get_residue_list (Ok two_models) true
     = ([LogRecord WARNING
           "%d models are present in the input PDB file; only the first will be used."
           ["2"]],
        Ok [Tup ["AA1"]; Tup ["AA1"]])
  /\ get_residue_list (Ok [hd [] two_models]) true = ([], Ok [Tup ["AA1"]]).
Proof.
  split; [ | split; [ | split ] ].
  - intro multimers. now rewrite get_residue_list_no_model.
  - exact get_residue_list_first_model.
  - reflexivity.
  - reflexivity.
Qed.

(** C1. On a model of two chains with the same sequence, multimer mode
    gives one tuple of two identifiers, sorted by chain, from either
    function, and [get_foldx_sequence] without multimers gives tuples of
    one identifier; [get_residue_list] without multimers gives bare
    strings, whose length is that of the text, not tuples of length one. *)
Theorem residue_groups_on_homodimer :
  get_residue_list (Ok homodimer) true = ([], Ok [Tup ["AA1"; "AB1"]])
  /\ get_foldx_sequence "dimer.pdb" (Ok homodimer) true = ([], Ok [Tup ["AA1"; "AB1"]])
  /\ get_foldx_sequence "dimer.pdb" (Ok homodimer) false
     = ([], Ok [Tup ["AA1"]; Tup ["AB1"]])
  /\ get_residue_list (Ok homodimer) false = ([], Ok [Str "AA1"; Str "AB1"])
  /\ map py_len [Str "AA1"; Str "AB1"] = [3; 3].
Proof. repeat split. Qed.

(** ** Energy files *)

Section EnergyFacts.

Context {F : Type}.
Variables (np_average np_std : list F -> F).
Variables (np_min np_max : list F -> option F).
Variable readback : F -> F.

Lemma filter_singletons {A} (g : A -> F) (l : list A) :
  filter (fun r => negb (List.length r =? 0)) (map (fun x => [g x]) l)
  = map (fun x => [g x]) l.
Proof. induction l as [ | x l IH]; simpl; [ reflexivity | now rewrite IH ]. Qed.

Lemma same_width_singletons {A} (g : A -> F) (l : list A) :
  same_width (map (fun x => [g x]) l) = true.
Proof.
  destruct l as [ | x l]; simpl; [ reflexivity | ].
  induction l; simpl; auto.
Qed.

Lemma column0_singletons {A} (g : A -> F) (l : list A) :
  column 0 (map (fun x => [g x]) l) = map g l.
Proof.
  unfold column. induction l as [ | x l IH]; [ reflexivity | ].
  cbn [map flat_map nth_error app]. now f_equal.
Qed.

(** A single 1-D array, stacked and transposed, is a single column. *)
Lemma columns_single (v : list F) :
  columns (List.length v) [v] = map (fun x => [x]) v.
Proof.
  unfold columns, column. induction v as [ | x v IH]; simpl; [ reflexivity | ].
  f_equal. rewrite <- seq_shift, map_map. exact IH.
Qed.

(** In the transpose, entry [i] of row [j] is entry [j] of row [i]. *)
Lemma columns_entry (c : nat) (rows : list (list F)) (i j : nat) :
  Forall (fun r => List.length r = c) rows ->
  j < c ->
  nth_error (columns c rows) j = Some (column j rows)
  /\ nth_error (column j rows) i
     = match nth_error rows i with
       | Some r => nth_error r j
       | None => None
       end.
Proof.
  intros Hrect Hj. split.
  - unfold columns. rewrite nth_error_map, nth_error_seq.
    destruct (Nat.ltb_spec j c); [ reflexivity | lia ].
  - revert i. unfold column.
    induction Hrect as [ | r rows Hr _ IH]; intro i; simpl.
    + now destruct i.
    + destruct (nth_error r j) as [x | ] eqn:Hx.
      * destruct i; simpl; [ now rewrite Hx | apply IH ].
      * apply nth_error_None in Hx. lia.
Qed.

Lemma column_length (c : nat) (rows : list (list F)) (j : nat) :
  Forall (fun r => List.length r = c) rows -> j < c ->
  List.length (column j rows) = List.length rows.
Proof.
  intros Hrect Hj. unfold column.
  induction Hrect as [ | r rows Hr _ IH]; simpl; [ reflexivity | ].
  destruct (nth_error r j) as [x | ] eqn:Hx.
  - simpl. now rewrite IH.
  - apply nth_error_None in Hx. lia.
Qed.

(** A file loads as a matrix when it has two lines or more, all of one
    width of two numbers or more. *)
Lemma loadtxt_matrix (file : option (energy_rows F)) (c : nat) (rows : list (list F)) :
  loadtxt file = Some (Arr2 c rows) ->
  Forall (fun r => List.length r = c) rows /\ 2 <= c /\ 2 <= List.length rows.
Proof.
  unfold loadtxt. destruct file as [rows0 | ]; [ | discriminate ].
  set (kept := filter (fun r => negb (List.length r =? 0)) rows0).
  assert (Hkept : forall r, In r kept -> List.length r <> 0).
  { intros r Hr. apply filter_In in Hr. destruct Hr as [_ Hr].
    apply negb_true_iff, Nat.eqb_neq in Hr. exact Hr. }
  destruct (same_width kept) eqn:Hwidth; simpl; [ | discriminate ].
  destruct kept as [ | r [ | r2 rest]]; [ discriminate | | ].
  - destruct r as [ | x [ | y r]]; discriminate.
  - assert (Hlater : (if List.length r =? 1
                      then Some (Arr1 (column 0 (r :: r2 :: rest)))
                      else Some (Arr2 (List.length r) (r :: r2 :: rest)))
                     = Some (Arr2 c rows) ->
                     Forall (fun r => List.length r = c) rows /\ 2 <= c
                     /\ 2 <= List.length rows).
    { destruct (List.length r =? 1) eqn:Hone; [ discriminate | ].
      intro H. injection H as <- <-. apply Nat.eqb_neq in Hone.
      pose proof (Hkept r (or_introl eq_refl)) as Hzero.
      split; [ | split; [ lia | simpl; lia ] ].
      constructor; [ reflexivity | ].
      unfold same_width in Hwidth. apply Forall_forall. intros r' Hr'.
      rewrite forallb_forall in Hwidth. now apply Nat.eqb_eq, Hwidth. }
    destruct r as [ | x [ | y r]]; exact Hlater.
Qed.

(** C9. What [parse_ddg_file] does with the array [np.loadtxt] hands
    over. A matrix is transposed: entry [i] of row [j] of the result is
    entry [j] of line [i] of the file, and the result has one column per
    line. A 1-D array becomes a matrix of one column. Given [reslist],
    [TypeError] is raised when the number of columns is not
    [len(reslist)], and only then; otherwise the whole matrix is returned
    when [full] is set and its first row when not. But a file that holds
    one number loads as a 0-d array, which is not expanded: with
    [reslist] given, and with [full] off, [IndexError] is raised. *)
Theorem parse_ddg_file_spec (fname : string) (file : option (energy_rows F)) :
  (forall c rows,
      loadtxt file = Some (Arr2 c rows) ->
      exists ddgs,
        List.length ddgs = c
        /\ (forall j row,
               nth_error ddgs j = Some row ->
               List.length row = List.length rows
               /\ forall i, nth_error row i
                            = match nth_error rows i with
                              | Some line => nth_error line j
                              | None => None
                              end)
        /\ (forall rl full,
               List.length rows <> List.length rl ->
               outcome (parse_ddg_file fname file (Some rl) full) = Raise TypeError)
        /\ (forall reslist,
               (forall rl, reslist = Some rl -> List.length rows = List.length rl) ->
               parse_ddg_file fname file reslist true
               = ([], Ok (Arr2 (List.length rows) ddgs))
               /\ exists first,
                   nth_error ddgs 0 = Some first
                   /\ parse_ddg_file fname file reslist false = ([], Ok (Arr1 first))))
  /\ (forall v,
         loadtxt file = Some (Arr1 v) ->
         (forall rl full,
             1 <> List.length rl ->
             outcome (parse_ddg_file fname file (Some rl) full) = Raise TypeError)
         /\ (forall reslist,
                (forall rl, reslist = Some rl -> 1 = List.length rl) ->
                parse_ddg_file fname file reslist true
                = ([], Ok (Arr2 1 (map (fun x => [x]) v)))
                /\ (forall x rest,
                       v = x :: rest ->
                       parse_ddg_file fname file reslist false = ([], Ok (Arr1 [x])))
                /\ (v = [] ->
                    parse_ddg_file fname file reslist false = ([], Raise IndexError))))
  /\ (forall x,
         loadtxt file = Some (Arr0 x) ->
         (forall rl full,
             parse_ddg_file fname file (Some rl) full = ([], Raise IndexError))
         /\ parse_ddg_file fname file None false = ([], Raise IndexError)
         /\ parse_ddg_file fname file None true = ([], Ok (Arr0 x))).
Proof.
  split; [ | split ].
  - intros c rows Hload.
    destruct (loadtxt_matrix file c rows Hload) as [Hrect [Hc Hrows]].
    exists (columns c rows).
    split; [ unfold columns; now rewrite length_map, length_seq | ].
    split; [ | split ].
    + intros j row Hrow.
      assert (Hj : j < c).
      { assert (Hsome : nth_error (columns c rows) j <> None) by congruence.
        apply nth_error_Some in Hsome.
        unfold columns in Hsome. now rewrite length_map, length_seq in Hsome. }
      destruct (columns_entry c rows 0 j Hrect Hj) as [Hcol _].
      rewrite Hcol in Hrow. injection Hrow as <-.
      split; [ now apply (column_length c) | ].
      intro i. apply (columns_entry c rows i j Hrect Hj).
    + intros rl full Hne. unfold parse_ddg_file. rewrite Hload.
      cbn [option_map transpose ndim]. change (2 =? 1) with false.
      cbn iota. cbn [shape1].
      apply Nat.eqb_neq in Hne. rewrite Hne. reflexivity.
    + intros reslist Hsize. unfold parse_ddg_file. rewrite Hload.
      cbn [option_map transpose ndim]. change (2 =? 1) with false.
      cbn iota. cbn [shape1].
      assert (Hcheck : match reslist with
                       | Some rl =>
                           if negb (List.length rows =? List.length rl)
                           then
                             match len0 (Arr2 (List.length rows) (columns c rows)) with
                             | Some k =>
                                 log ERROR "file %s has %d values, with %d required."
                                   [fname; Py.fmt_d (Z.of_nat k);
                                    Py.fmt_d (Z.of_nat (List.length rl))] ;;
                                 raise TypeError
                             | None => raise TypeError
                             end
                           else ret tt
                       | None => ret tt
                       end = ret tt).
      { destruct reslist as [rl | ]; [ | reflexivity ].
        now rewrite <- (Hsize rl eq_refl), Nat.eqb_refl. }
      rewrite Hcheck, !bind_ret_l.
      split; [ reflexivity | ].
      destruct (columns_entry c rows 0 0 Hrect) as [Hfirst _]; [ lia | ].
      exists (column 0 rows). split; [ exact Hfirst | ].
      unfold columns in *. destruct c as [ | c]; [ lia | ]. reflexivity.
  - intros v Hload. split.
    + intros rl full Hne. unfold parse_ddg_file. rewrite Hload.
      cbn [option_map transpose ndim]. change (1 =? 1) with true.
      cbn iota. cbn [expand_dims_1 shape1].
      apply Nat.eqb_neq in Hne. rewrite Hne. reflexivity.
    + intros reslist Hsize. unfold parse_ddg_file. rewrite Hload.
      cbn [option_map transpose ndim]. change (1 =? 1) with true.
      cbn iota. cbn [expand_dims_1 shape1].
      assert (Hcheck : match reslist with
                       | Some rl =>
                           if negb (1 =? List.length rl)
                           then
                             match len0 (Arr2 1 (map (fun x => [x]) v)) with
                             | Some k =>
                                 log ERROR "file %s has %d values, with %d required."
                                   [fname; Py.fmt_d (Z.of_nat k);
                                    Py.fmt_d (Z.of_nat (List.length rl))] ;;
                                 raise TypeError
                             | None => raise TypeError
                             end
                           else ret tt
                       | None => ret tt
                       end = ret tt).
      { destruct reslist as [rl | ]; [ | reflexivity ].
        now rewrite <- (Hsize rl eq_refl). }
      rewrite Hcheck, !bind_ret_l.
      split; [ reflexivity | split ].
      * intros x rest ->. reflexivity.
      * intros ->. reflexivity.
  - intros x Hload. unfold parse_ddg_file. rewrite Hload.
    repeat split.
Qed.

(** C5. With the average alone the file has one number per line;
    [np.loadtxt] squeezes that column to a 1-D array, which
    [parse_ddg_file] takes for one line of statistics: of two entries or
    more it hands back the average of the first alone, and on a single
    entry it raises [IndexError]. *)
Theorem avg_roundtrip_single_column (fname : string) (ncols : nat)
  (r1 r2 : list F) (rest : list (list F)) :
  avg_roundtrip np_average np_std np_min np_max readback fname ncols (r1 :: r2 :: rest)
  = ([], Ok (Arr1 [readback (np_average r1)]))
  /\ List.length (map np_average (r1 :: r2 :: rest)) = 2 + List.length rest
  /\ avg_roundtrip np_average np_std np_min np_max readback fname ncols [r1] = ([], Raise IndexError).
Proof.
  assert (Hfile : forall data,
             reread readback
               (Written (Py.join (String (ascii_of_nat 9) "") ["avg"])
                  (columns (List.length data) [map np_average data]))
             = map (fun r => [readback (np_average r)]) data).
  { intro data. unfold reread. cbn [lines].
    rewrite <- (length_map np_average data), columns_single, !map_map.
    reflexivity. }
  unfold avg_roundtrip, save_energy_file. cbn [slices].
  rewrite !bind_ret_l. cbn [stack_T]. rewrite !Hfile.
  split; [ | split; [ now rewrite length_map | reflexivity ] ].
  unfold parse_ddg_file, loadtxt.
  rewrite filter_singletons, same_width_singletons.
  cbn [negb map List.length Nat.eqb].
  change ([readback (np_average r1)] :: [readback (np_average r2)]
            :: map (fun r => [readback (np_average r)]) rest)
    with (map (fun r => [readback (np_average r)]) (r1 :: r2 :: rest)).
  rewrite column0_singletons. reflexivity.
Qed.

End EnergyFacts.

(** A file of two lines and two columns, read for one residue type; a
    file of one line and two columns, read for one; and a file of one
    number, read for one. *)
Lemma parse_ddg_file_witness :
  outcome (parse_ddg_file "energies.txt" (Some [[1; 2]; [3; 4]]%Z) (Some ["A"]) true)
  = Raise TypeError
  /\ parse_ddg_file "energies.txt" (Some [[1; 2]]%Z) (Some ["A"]) false
     = ([], Ok (Arr1 [1]%Z))
  /\ parse_ddg_file "energies.txt" (Some [[7]]%Z) (Some ["A"]) false
     = ([], Raise IndexError).
Proof.
  pose proof (parse_ddg_file_spec "energies.txt" (Some [[1; 2]; [3; 4]]%Z)) as Hmatrix.
  pose proof (parse_ddg_file_spec "energies.txt" (Some [[1; 2]]%Z)) as Hline.
  pose proof (parse_ddg_file_spec "energies.txt" (Some [[7]]%Z)) as Hnumber.
  split; [ | split ].
  - destruct (proj1 Hmatrix 2 [[1; 2]; [3; 4]]%Z eq_refl)
      as [ddgs [_ [_ [Hsize _]]]].
    apply Hsize. simpl. lia.
  - destruct (proj1 (proj2 Hline) [1; 2]%Z eq_refl) as [_ Hreturn].
    destruct (Hreturn (Some ["A"])) as [_ [Hfirst _]].
    + intros rl Hrl. injection Hrl as <-. reflexivity.
    + apply (Hfirst 1%Z [2%Z] eq_refl).
  - destruct (proj2 (proj2 Hnumber) 7%Z eq_refl) as [Hreslist _].
    apply Hreslist.
Defined.

Example parse_ddg_file_two_by_two :
  parse_ddg_file "energies.txt" (Some [[1; 2]; [3; 4]]%Z) (Some ["A"; "C"]) true
  = ([], Ok (Arr2 2 [[1; 3]; [2; 4]]%Z))
  /\ parse_ddg_file "energies.txt" (Some [[1; 2]; [3; 4]]%Z) (Some ["A"; "C"]) false
     = ([], Ok (Arr1 [1; 3]%Z)).
Proof. split; reflexivity. Qed.

(** ** The parallel dispatcher *)

Lemma foldx_worker_outcome (r : FoldXRun) : outcome (foldx_worker r) = Ok (run_pair r).
Proof. reflexivity. Qed.

(** A move of the pool loses no pair and makes none. *)
Lemma pool_step_pairs (np : nat) (s1 s2 : pool) :
  pool_step np s1 s2 -> Permutation (pool_pairs s1) (pool_pairs s2).
Proof.
  intro Hstep. destruct Hstep as [r p rs d l _ | r p rs1 rs2 d l v Hv];
    unfold pool_pairs; simpl.
  - rewrite map_app. simpl. rewrite <- app_assoc. reflexivity.
  - rewrite foldx_worker_outcome in Hv. injection Hv as <-.
    rewrite !map_app. simpl. rewrite <- !app_assoc. simpl.
    apply Permutation_app_head.
    rewrite (Permutation_middle (map run_pair rs1)). reflexivity.
Qed.

Lemma pool_steps_pairs (np : nat) (s1 s2 : pool) :
  pool_steps np s1 s2 -> Permutation (pool_pairs s1) (pool_pairs s2).
Proof.
  induction 1 as [ | s1 s2 s3 Hstep _ IH]; [ reflexivity | ].
  now rewrite (pool_step_pairs _ _ _ Hstep).
Qed.

Lemma pool_steps_trans (np : nat) (s1 s2 s3 : pool) :
  pool_steps np s1 s2 -> pool_steps np s2 s3 -> pool_steps np s1 s3.
Proof.
  induction 1 as [ | ? ? ? Hstep _ IH]; [ auto | ].
  intro H. eapply steps_step; eauto.
Qed.

Lemma take_tasks_steps (np : nat) (p : list FoldXRun) :
  forall rs d l, pool_steps np (Pool p rs d l) (take_tasks np p rs d l).
Proof.
  induction p as [ | r p IH]; intros rs d l; simpl; [ constructor | ].
  destruct (Nat.ltb_spec (List.length rs) np) as [Hfree | _]; [ | constructor ].
  eapply steps_step; [ now apply take_task | apply IH ].
Qed.

Lemma nth_error_split_at {A} (l : list A) (i : nat) (x : A) :
  nth_error l i = Some x -> l = firstn i l ++ x :: skipn (S i) l.
Proof.
  revert i. induction l as [ | y l IH]; intros [ | i] H; simpl in *; try discriminate.
  - now injection H as <-.
  - f_equal. now apply IH.
Qed.

Lemma finish_one_steps (np k : nat) (s : pool) : pool_steps np s (finish_one k s).
Proof.
  unfold finish_one.
  destruct (nth_error (running s) (k mod List.length (running s))) as [r | ] eqn:Hr;
    [ | constructor ].
  rewrite foldx_worker_outcome.
  destruct s as [p rs d l]. simpl in *.
  eapply steps_step; [ | constructor ].
  rewrite (nth_error_split_at _ _ _ Hr) at 1.
  now apply finish_task.
Qed.

Lemma serve_steps (np : nat) (fuel : nat) :
  forall order s, pool_steps np s (serve np order fuel s).
Proof.
  induction fuel as [ | fuel IH]; intros order s; simpl; [ constructor | ].
  destruct s as [p rs d l]. simpl.
  eapply pool_steps_trans; [ apply take_tasks_steps | ].
  eapply pool_steps_trans; [ apply finish_one_steps | apply IH ].
Qed.

(** The tasks not yet finished. *)
Lemma take_tasks_size (np : nat) (p : list FoldXRun) :
  forall rs d l,
    List.length (pending (take_tasks np p rs d l))
    + List.length (running (take_tasks np p rs d l))
    = List.length p + List.length rs.
Proof.
  induction p as [ | r p IH]; intros rs d l; simpl; [ reflexivity | ].
  destruct (List.length rs <? np); simpl; [ | reflexivity ].
  rewrite IH, length_app. simpl. lia.
Qed.

Lemma take_tasks_busy (np : nat) (p : list FoldXRun) :
  1 <= np ->
  forall rs d l,
    0 < List.length p + List.length rs ->
    0 < List.length (running (take_tasks np p rs d l)).
Proof.
  intro Hnp. induction p as [ | r p IH]; intros rs d l Hsome; simpl in *; [ lia | ].
  destruct (Nat.ltb_spec (List.length rs) np) as [Hfree | Hfull]; simpl; [ | lia ].
  apply IH. rewrite length_app. simpl. lia.
Qed.

Lemma finish_one_size (k : nat) (s : pool) :
  0 < List.length (running s) ->
  List.length (pending (finish_one k s)) + List.length (running (finish_one k s))
  = List.length (pending s) + List.length (running s) - 1.
Proof.
  intro Hbusy. unfold finish_one.
  assert (Hi : k mod List.length (running s) < List.length (running s))
    by (apply Nat.mod_upper_bound; lia).
  destruct (nth_error (running s) (k mod List.length (running s))) as [r | ] eqn:Hr.
  - rewrite foldx_worker_outcome. simpl.
    pose proof (f_equal (@List.length _) (nth_error_split_at _ _ _ Hr)) as Hlen.
    rewrite length_app in Hlen. simpl in Hlen. rewrite length_app. lia.
  - apply nth_error_None in Hr. lia.
Qed.

Lemma finish_one_idle (k : nat) (s : pool) : running s = [] -> finish_one k s = s.
Proof.
  intro H. unfold finish_one. rewrite H.
  now destruct (k mod List.length (@nil FoldXRun)).
Qed.

Lemma serve_size (np : nat) (fuel : nat) :
  1 <= np ->
  forall order s,
    List.length (pending (serve np order fuel s))
    + List.length (running (serve np order fuel s))
    = List.length (pending s) + List.length (running s) - fuel.
Proof.
  intro Hnp. induction fuel as [ | fuel IH]; intros order s; simpl; [ lia | ].
  rewrite IH.
  destruct s as [p rs d l]. simpl.
  destruct (Nat.eq_dec (List.length p + List.length rs) 0) as [Hzero | Hsome].
  - destruct p, rs; simpl in Hzero; try lia. simpl take_tasks.
    now rewrite finish_one_idle.
  - rewrite finish_one_size by (apply take_tasks_busy; lia).
    rewrite take_tasks_size. lia.
Qed.

(** Whatever the order of completion, what [parallel_foldx_run] returns
    is what some interleaving of the pool delivers. *)
Lemma parallel_foldx_run_is_run (order : list nat) (foldx_runs : list FoldXRun) (np : nat) :
  1 <= np ->
  exists results,
    outcome (parallel_foldx_run order foldx_runs np) = Ok results
    /\ parallel_foldx_run_returns foldx_runs np results.
Proof.
  intro Hnp. unfold parallel_foldx_run.
  destruct (Nat.ltb_spec np 1) as [Hbad | _]; [ lia | ].
  set (s := serve np order (List.length foldx_runs) (Pool foldx_runs [] [] [])).
  exists (delivered s). split; [ reflexivity | ]. split; [ exact Hnp | ].
  exists (pool_log s).
  pose proof (serve_steps np (List.length foldx_runs) order (Pool foldx_runs [] [] []))
    as Hsteps.
  pose proof (serve_size np (List.length foldx_runs) Hnp order (Pool foldx_runs [] [] []))
    as Hsize.
  fold s in Hsteps, Hsize. simpl in Hsize.
  destruct s as [p rs d l]. simpl in *.
  destruct p, rs; simpl in Hsize; try lia. exact Hsteps.
Qed.

(** Every interleaving delivers a rearrangement of the submitted pairs. *)
Lemma parallel_foldx_run_returns_perm (foldx_runs : list FoldXRun) (np : nat)
  (results : list (string * bool)) :
  parallel_foldx_run_returns foldx_runs np results ->
  Permutation results (map run_pair foldx_runs).
Proof.
  intros [_ [l Hsteps]].
  apply pool_steps_pairs in Hsteps. unfold pool_pairs in Hsteps. simpl in Hsteps.
  rewrite app_nil_r in Hsteps. now apply Permutation_sym.
Qed.

(** C7, as the code has it. With a worker bound of at least one, and
    whatever the order in which the runs complete, [parallel_foldx_run]
    returns a list that holds exactly one pair per submitted run, each
    the name of the run with the boolean of its [run()]: it is a
    rearrangement of the pairs in submission order, so as long as the
    list of runs, and when the names are distinct every name occurs in
    it once. *)
Theorem parallel_foldx_run_complete (foldx_runs : list FoldXRun) (np : nat)
  (order : list nat) :
  1 <= np ->
  exists results,
    outcome (parallel_foldx_run order foldx_runs np) = Ok results
    /\ Permutation results (map run_pair foldx_runs)
    /\ List.length results = List.length foldx_runs
    /\ (NoDup (map name foldx_runs) ->
        forall r, In r foldx_runs ->
                  count_occ string_dec (map fst results) (name r) = 1).
Proof.
  intro Hnp.
  destruct (parallel_foldx_run_is_run order foldx_runs np Hnp) as [results [Hout Hret]].
  pose proof (parallel_foldx_run_returns_perm _ _ _ Hret) as Hperm.
  exists results. split; [ exact Hout | split; [ exact Hperm | split ] ].
  - rewrite (Permutation_length Hperm). apply length_map.
  - intros Hnd r Hr.
    assert (Hnames : Permutation (map fst results) (map name foldx_runs)).
    { rewrite (Permutation_map fst Hperm), map_map. reflexivity. }
    apply (NoDup_count_occ' string_dec).
    + apply (Permutation_NoDup (Permutation_sym Hnames) Hnd).
    + apply (Permutation_in _ (Permutation_sym Hnames)). now apply in_map.
Qed.

(** Five runs under a bound of two workers, the later worker finishing
    first each time: five pairs come back. *)
Lemma parallel_foldx_run_witness :
  exists results,
    outcome (parallel_foldx_run [1; 1; 1; 1; 1]
               [Build_FoldXRun "r1" true; Build_FoldXRun "r2" false;
                Build_FoldXRun "r3" true; Build_FoldXRun "r4" true;
                Build_FoldXRun "r5" false] 2) = Ok results
    /\ List.length results = 5.
Proof.
  destruct (parallel_foldx_run_complete
              [Build_FoldXRun "r1" true; Build_FoldXRun "r2" false;
               Build_FoldXRun "r3" true; Build_FoldXRun "r4" true;
               Build_FoldXRun "r5" false] 2 [1; 1; 1; 1; 1] (le_S 1 1 (le_n 1)))
    as [results [Hout [_ [Hlen _]]]].
  exists results. split; [ exact Hout | exact Hlen ].
Defined.

Example parallel_foldx_run_five_runs :
  outcome (parallel_foldx_run [1; 1; 1; 1; 1]
             [Build_FoldXRun "r1" true; Build_FoldXRun "r2" false;
              Build_FoldXRun "r3" true; Build_FoldXRun "r4" true;
              Build_FoldXRun "r5" false] 2)
  = Ok [("r2", false); ("r3", true); ("r4", true); ("r5", false); ("r1", true)].
Proof. reflexivity. Qed.

Example parallel_foldx_run_no_worker (order : list nat) (foldx_runs : list FoldXRun) :
  parallel_foldx_run order foldx_runs 0 = ([], Raise ValueError).
Proof. reflexivity. Qed.

(** C7, as stated, fails. Under a worker bound of 0 [ThreadPool] raises
    [ValueError] and no pair comes back; and of two runs that have the
    same name, the name comes back twice, not once. *)
Lemma parallel_foldx_run_bound_counterexample :
  parallel_foldx_run [] [Build_FoldXRun "r1" true] 0 = ([], Raise ValueError)
  /\ outcome (parallel_foldx_run [0; 0]
                [Build_FoldXRun "a" true; Build_FoldXRun "a" false] 1)
     = Ok [("a", true); ("a", false)]
  /\ count_occ string_dec (map fst [("a", true); ("a", false)]) "a" = 2.
Proof. repeat split. Qed.

(** ** [safe_cp] *)

(** C10, as the code has it. When source and destination have the same
    absolute path [safe_cp] returns at once, whatever the source is.
    Otherwise, for a source that is a regular file and a destination that
    exists: with [dolink] set it logs an error and raises [IOError],
    and the file system is as before; without it, it logs the warning and,
    when [shutil.copyfile] succeeds, returns with the copy made; when
    [shutil.copyfile] raises, it logs an error after the warning and
    raises [IOError]. *)
Theorem safe_cp_spec `{OS} (source destination : string) (s : fs) :
  (abspath source = abspath destination ->
   forall dolink, safe_cp source destination dolink s = (s, ([], Ok tt)))
  /\ (abspath source <> abspath destination ->
      path_exists s source = true ->
      path_isfile s source = true ->
      path_exists s destination = true ->
      safe_cp source destination true s
      = (s, ([LogRecord ERROR
                "Destination file %s already exists; it will not be overwritten by a link"
                [destination]],
             Raise IOError))
      /\ (forall s', copyfile s source destination = Some s' ->
                     safe_cp source destination false s
                     = (s', ([LogRecord WARNING
                                "Destination file %s already exists; it will be overwritten."
                                [destination]],
                             Ok tt)))
      /\ (copyfile s source destination = None ->
          safe_cp source destination false s
          = (s, ([LogRecord WARNING
                    "Destination file %s already exists; it will be overwritten."
                    [destination];
                  LogRecord ERROR "Couldn't copy file %s to %s" [source; destination]],
                 Raise IOError)))).
Proof.
  split.
  - intros Heq dolink. unfold safe_cp. apply String.eqb_eq in Heq. now rewrite Heq.
  - intros Hne Hex Hfile Hdst. unfold safe_cp.
    apply String.eqb_neq in Hne. rewrite Hne, Hex, Hfile, Hdst. simpl.
    split; [ reflexivity | split ].
    + intros s' Hcp. now rewrite Hcp.
    + intro Hcp. now rewrite Hcp.
Qed.

(** Copying and linking onto an existing regular file. *)
Lemma safe_cp_witness :
  safe_cp "/a" "/b" true [("/a", ToyFS.File "x"); ("/b", ToyFS.File "old")]
  = ([("/a", ToyFS.File "x"); ("/b", ToyFS.File "old")],
     ([LogRecord ERROR
         "Destination file %s already exists; it will not be overwritten by a link"
         ["/b"]],
      Raise IOError))
  /\ safe_cp "/a" "/b" false [("/a", ToyFS.File "x"); ("/b", ToyFS.File "old")]
     = ([("/b", ToyFS.File "x"); ("/a", ToyFS.File "x"); ("/b", ToyFS.File "old")],
        ([LogRecord WARNING
            "Destination file %s already exists; it will be overwritten." ["/b"]],
         Ok tt)).
Proof.
  pose proof (proj2 (@safe_cp_spec toy_os "/a" "/b"
                       [("/a", ToyFS.File "x"); ("/b", ToyFS.File "old")])) as Hspec.
  simpl in Hspec.
  assert (Hne : "/a" <> "/b") by discriminate.
  destruct (Hspec Hne eq_refl eq_refl eq_refl) as [Hlink [Hcopy _]].
  split; [ exact Hlink | ].
  exact (Hcopy _ eq_refl).
Defined.

(** C10, as stated, fails. The source is a regular file, the destination
    exists and has another absolute path, and [safe_cp] without [dolink]
    raises [IOError]: the destination is a directory, onto which
    [shutil.copyfile] cannot write. *)
Lemma safe_cp_onto_directory_counterexample :
  path_exists file_and_dir "/work/a.pdb" = true
  /\ path_isfile file_and_dir "/work/a.pdb" = true
  /\ path_exists file_and_dir "/work/out" = true
  /\ String.eqb (abspath "/work/a.pdb") (abspath "/work/out") = false
  /\ safe_cp "/work/a.pdb" "/work/out" false file_and_dir
     = (file_and_dir,
        ([LogRecord WARNING
            "Destination file %s already exists; it will be overwritten." ["/work/out"];
          LogRecord ERROR "Couldn't copy file %s to %s" ["/work/a.pdb"; "/work/out"]],
         Raise IOError)).
Proof. repeat split. Qed.

(** ** Homomer groups in multimer mode *)

Lemma append_assoc (a b c : string) : ((a ++ b) ++ c = a ++ (b ++ c))%string.
Proof. induction a as [ | x a IH]; simpl; [ reflexivity | now rewrite IH ]. Qed.

Lemma dict_get_set (k v : string) (d : dict) : dict_get k (dict_set k v d) = Some v.
Proof.
  induction d as [ | [k' v'] d IH]; simpl.
  - now rewrite String.eqb_refl.
  - destruct (String.eqb k k') eqn:E; simpl.
    + now rewrite String.eqb_refl.
    + now rewrite E.
Qed.

Lemma dict_set_set (k v1 v2 : string) (d : dict) :
  dict_set k v2 (dict_set k v1 d) = dict_set k v2 d.
Proof.
  induction d as [ | [k' v'] d IH]; simpl.
  - now rewrite String.eqb_refl.
  - destruct (String.eqb k k') eqn:E; simpl.
    + now rewrite String.eqb_refl.
    + now rewrite E, IH.
Qed.

Lemma dict_set_same (k v : string) (d : dict) :
  dict_get k d = Some v -> dict_set k v d = d.
Proof.
  induction d as [ | [k' v'] d IH]; simpl; [ discriminate | ].
  destruct (String.eqb_spec k k') as [-> | _]; [ congruence | ].
  intro H. now rewrite IH.
Qed.

Lemma dict_set_fresh (k v : string) (d : dict) :
  ~ In k (map fst d) -> dict_set k v d = d ++ [(k, v)].
Proof.
  induction d as [ | [k' v'] d IH]; simpl; intro H; [ reflexivity | ].
  destruct (String.eqb_spec k k') as [-> | _]; [ tauto | ].
  rewrite IH; tauto.
Qed.

(** Sorting commutes with a map that carries the keys along. *)
Lemma insert_sorted_map {A B K} (f : A -> B) (key : B -> K) (key' : A -> K)
  (le : K -> K -> bool) (x : A) (l : list A) :
  key (f x) = key' x ->
  (forall y, In y l -> key (f y) = key' y) ->
  Py.insert_sorted key le (f x) (map f l) = map f (Py.insert_sorted key' le x l).
Proof.
  intros Hx. induction l as [ | y l IH]; simpl; intro Hl; [ reflexivity | ].
  rewrite Hx, (Hl y) by now left.
  destruct (le (key' x) (key' y)); simpl; [ reflexivity | ].
  rewrite IH; auto.
Qed.

Lemma sorted_map {A B K} (f : A -> B) (key : B -> K) (key' : A -> K)
  (le : K -> K -> bool) (l : list A) :
  (forall y, In y l -> key (f y) = key' y) ->
  Py.sorted key le (map f l) = map f (Py.sorted key' le l).
Proof.
  induction l as [ | x l IH]; simpl; intro Hl; [ reflexivity | ].
  rewrite IH by auto. apply insert_sorted_map; [ auto | ].
  intros y Hy. apply Hl. right.
  now apply (Permutation_in y (sorted_perm key' le l)).
Qed.

Lemma chain_char_residue_name (code : ascii) (c : string) (resid : Z) :
  String.length c = 1 -> chain_char (residue_name code c resid) = first_char c.
Proof. destruct c as [ | a [ | b c]]; simpl; intro H; try lia. reflexivity. Qed.

Lemma second_char_residue_name (code : ascii) (c : string) (resid : Z) :
  String.length c = 1 ->
  second_char (residue_name code c resid) = ret (chain_char (residue_name code c resid)).
Proof. destruct c as [ | a [ | b c]]; simpl; intro H; try lia. reflexivity. Qed.

Section Scan.
Variables (warn : PDB.residue -> M unit) (wrap : string -> resspec).
Hypothesis warn_returns : forall r, outcome (warn r) = Ok tt.

Lemma scan_residues_multimer (chain_name : string) (rs : list PDB.residue) :
  forall residue_list sequences seq,
    dict_get chain_name sequences = Some seq ->
    outcome (scan_residues warn wrap true chain_name rs (residue_list, sequences))
    = Ok (residue_list, dict_set chain_name (seq ++ one_letter rs)%string sequences).
Proof.
  induction rs as [ | r rs IH]; intros rl d s Hget; simpl.
  - assert (Hs : (s ++ "")%string = s) by (clear; induction s; simpl; congruence).
    now rewrite Hs, dict_set_same.
  - destruct (Polypeptide.three_to_one (PDB.resname r)) as [c | ].
    + rewrite Hget.
      rewrite (IH rl _ (s ++ String c "")%string) by apply dict_get_set.
      now rewrite dict_set_set, append_assoc.
    + rewrite outcome_bind, warn_returns. now apply IH.
Qed.

Lemma scan_chains_multimer (chains : list PDB.chain) :
  forall residue_list sequences,
    outcome (scan_chains warn wrap true chains (residue_list, sequences))
    = Ok (residue_list, model_sequences chains sequences).
Proof.
  unfold model_sequences.
  induction chains as [ | ch chains IH]; intros rl d; simpl; [ reflexivity | ].
  rewrite outcome_bind.
  rewrite (scan_residues_multimer _ _ rl _ "") by apply dict_get_set.
  rewrite dict_set_set. simpl. apply IH.
Qed.

Lemma emit_residues_groups (cg : list string) (rs : list PDB.residue) :
  (forall c, In c cg -> String.length c = 1) ->
  outcome (emit_residues warn cg rs) = Ok (map (homomer_group cg) (recognized rs)).
Proof.
  intro Hone.
  assert (Hsort : forall code resid,
             sorted_by second_char Ascii.leb
               (map (fun c => residue_name code c resid) cg)
             = ret (map (fun c => residue_name code c resid)
                        (Py.sorted first_char Ascii.leb cg))).
  { intros code resid. unfold sorted_by.
    rewrite (mapM_ret_map _ chain_char).
    - rewrite bind_ret_l, sorted_pairs. f_equal.
      apply sorted_map. intros c Hc. now apply chain_char_residue_name, Hone.
    - intros x Hx. apply in_map_iff in Hx. destruct Hx as [c [<- Hc]].
      now apply second_char_residue_name, Hone. }
  induction rs as [ | r rs IH]; simpl; [ reflexivity | ].
  destruct (Polypeptide.three_to_one (PDB.resname r)) as [code | ].
  - rewrite Hsort, bind_ret_l, outcome_bind, IH. reflexivity.
  - rewrite outcome_bind, warn_returns. exact IH.
Qed.

End Scan.

Lemma model_sequences_fresh (m : PDB.model) :
  forall d,
    NoDup (map fst d ++ map PDB.chain_id m) ->
    model_sequences m d
    = d ++ map (fun ch => (PDB.chain_id ch, one_letter (PDB.chain_residues ch))) m.
Proof.
  unfold model_sequences.
  induction m as [ | ch m IH]; intros d Hnd; simpl; [ now rewrite app_nil_r | ].
  simpl in Hnd. rewrite dict_set_fresh.
  - rewrite IH; [ now rewrite <- app_assoc | ].
    rewrite map_app. simpl. now rewrite <- app_assoc.
  - apply NoDup_remove_2 in Hnd. intro Hin. apply Hnd, in_or_app. now left.
Qed.

Lemma nodup_all_same {A} (dec : forall x y : A, {x = y} + {x <> y}) (a : A) (l : list A) :
  l <> [] -> Forall (eq a) l -> nodup dec l = [a].
Proof.
  induction l as [ | x l IH]; intros Hne Hall; [ congruence | ].
  inversion Hall as [ | ? ? Hx Hl ]; subst x. simpl.
  destruct l as [ | y l]; [ reflexivity | ].
  destruct (in_dec dec a (y :: l)) as [_ | Hnotin].
  - apply IH; [ discriminate | exact Hl ].
  - exfalso. apply Hnotin. inversion Hl; subst. now left.
Qed.

Lemma select_all {A} (a : list A) :
  select a (map (fun _ => true) a) = a.
Proof. induction a as [ | x a IH]; simpl; congruence. Qed.

(** Chains that all have the same sequence form one group, in the order
    of the dictionary. *)
Lemma collate_chains_same (sequences : dict) (s0 : string) :
  sequences <> [] ->
  Forall (fun kv => snd kv = s0) sequences ->
  collate_chains sequences = ret [map fst sequences].
Proof.
  intros Hne Hall. unfold collate_chains.
  destruct sequences as [ | kv d] eqn:Hd; [ congruence | ]. rewrite <- Hd in *.
  assert (Hseqs : Forall (eq s0) (map snd sequences)).
  { rewrite Forall_map. revert Hall. apply Forall_impl. intros; now symmetry. }
  assert (Huniq : np_unique (map snd sequences) = [s0]).
  { unfold np_unique. rewrite (nodup_all_same string_dec s0); [ reflexivity | | exact Hseqs ].
    rewrite Hd. discriminate. }
  rewrite Huniq.
  assert (Hidx : map (fun s => index_of s [s0]) (map snd sequences)
                 = map (fun _ => 0) sequences).
  { rewrite map_map. apply map_ext_in. intros x Hx.
    rewrite Forall_forall in Hall. rewrite (Hall x Hx). simpl.
    now rewrite String.eqb_refl. }
  rewrite Hidx.
  assert (Hui : np_unique_idx (map (fun _ => 0) sequences) = [0]).
  { unfold np_unique_idx. rewrite (nodup_all_same Nat.eq_dec 0); [ reflexivity | | ].
    - rewrite Hd. discriminate.
    - rewrite Forall_map. apply Forall_forall. reflexivity. }
  rewrite Hui. simpl. rewrite map_map. simpl.
  rewrite <- (map_map fst (fun _ => true)). now rewrite select_all.
Qed.

(** On one model of chains with the same sequence, the multimer block
    emits one group per recognised residue of the first chain. *)
Lemma multimer_block_homomer (warn : PDB.residue -> M unit)
  (template : PDB.chain) (others : list PDB.chain) :
  (forall r, outcome (warn r) = Ok tt) ->
  NoDup (map PDB.chain_id (template :: others)) ->
  (forall ch, In ch (template :: others) -> String.length (PDB.chain_id ch) = 1) ->
  (forall ch, In ch others ->
              one_letter (PDB.chain_residues ch)
              = one_letter (PDB.chain_residues template)) ->
  outcome (multimer_block warn (model_sequences (template :: others) [])
             [template :: others])
  = Ok (map (homomer_group (map PDB.chain_id (template :: others)))
            (recognized (PDB.chain_residues template))).
Proof.
  intros Hwarn Hnd Hone Hsame. unfold multimer_block.
  rewrite model_sequences_fresh by exact Hnd. simpl app.
  rewrite (collate_chains_same _ (one_letter (PDB.chain_residues template))).
  - rewrite bind_ret_l. cbn [map fst]. rewrite map_map. cbn [fst].
    cbn [emit_groups emit_models PDB.getitem]. rewrite String.eqb_refl.
    rewrite !outcome_bind.
    rewrite (emit_residues_groups warn Hwarn (PDB.chain_id template :: map PDB.chain_id others)).
    + simpl. now rewrite !app_nil_r.
    + intros c Hc. change (In c (map PDB.chain_id (template :: others))) in Hc.
      apply in_map_iff in Hc. destruct Hc as [ch [<- Hch]]. now apply Hone.
  - discriminate.
  - constructor; [ reflexivity | ].
    rewrite Forall_map. apply Forall_forall. intros ch Hch. simpl. auto.
Qed.

Lemma warn_residue_list_returns (r : PDB.residue) : outcome (warn_residue_list r) = Ok tt.
Proof. reflexivity. Qed.

Lemma warn_foldx_sequence_returns (pdb : string) (r : PDB.residue) :
  outcome (warn_foldx_sequence pdb r) = Ok tt.
Proof. reflexivity. Qed.

(** X1. The multimer part of C1, on a structure of one model. For [N] chains
    with distinct one-character ids and the same one-letter sequence,
    [get_residue_list] and [get_foldx_sequence] in multimer mode return,
    for every residue of the first chain that [three_to_one] knows and in
    their order, one tuple: it has [N] identifiers, one per chain, with
    the code and the number of that residue, sorted by chain id. *)
Theorem multimer_groups (pdb : string) (template : PDB.chain) (others : list PDB.chain) :
  let m := template :: others in
  let ids := map PDB.chain_id m in
  let groups := map (homomer_group ids) (recognized (PDB.chain_residues template)) in
  NoDup ids ->
  (forall ch, In ch m -> String.length (PDB.chain_id ch) = 1) ->
  (forall ch, In ch others ->
              one_letter (PDB.chain_residues ch)
              = one_letter (PDB.chain_residues template)) ->
  outcome (get_residue_list (Ok [m]) true) = Ok groups
  /\ outcome (get_foldx_sequence pdb (Ok [m]) true) = Ok groups
  /\ forall g, In g groups ->
       exists code resid t,
         g = Tup t
         /\ List.length t = List.length m
         /\ Permutation t (map (fun c => residue_name code c resid) ids)
         /\ Sorted (fun a b => Ascii.leb (chain_char a) (chain_char b) = true) t.
Proof.
  intros m ids groups Hnd Hone Hsame. subst m ids groups.
  split; [ | split ].
  - unfold get_residue_list. simpl List.length. cbn [Nat.ltb Nat.leb].
    rewrite !bind_ret_l, outcome_bind.
    rewrite (scan_chains_multimer _ Str warn_residue_list_returns).
    rewrite outcome_bind.
    rewrite (multimer_block_homomer _ template others warn_residue_list_returns
               Hnd Hone Hsame).
    reflexivity.
  - unfold get_foldx_sequence. cbn [scan_models].
    rewrite !outcome_bind.
    rewrite (scan_chains_multimer _ (fun s => Tup [s]) (warn_foldx_sequence_returns pdb)).
    cbn [outcome snd ret]. rewrite outcome_bind.
    rewrite (multimer_block_homomer _ template others (warn_foldx_sequence_returns pdb)
               Hnd Hone Hsame).
    reflexivity.
  - intros g Hg. apply in_map_iff in Hg. destruct Hg as [[code resid] [<- _]].
    set (ids := map PDB.chain_id (template :: others)) in *.
    exists code, resid. eexists. split; [ reflexivity | ]. simpl fst. simpl snd.
    split; [ | split ].
    + rewrite length_map, (Permutation_length (sorted_perm first_char Ascii.leb ids)).
      apply length_map.
    + apply Permutation_map, sorted_perm.
    + rewrite <- (sorted_map (fun c => residue_name code c resid) chain_char first_char).
      * apply (sorted_Sorted chain_char Ascii.leb Ascii.leb_total).
      * intros c Hc. apply in_map_iff in Hc. destruct Hc as [ch [<- Hch]].
        now apply chain_char_residue_name, Hone.
Qed.

(** A dimer whose chains are listed as [B], [A]; chain [A] also holds a
    water molecule. *)
Lemma multimer_groups_witness :
  outcome (get_residue_list
             (Ok [[PDB.Chain "B" [PDB.Residue "ALA" " " 1 " "; PDB.Residue "CYS" " " 3 " "];
                     PDB.Chain "A" [PDB.Residue "ALA" " " 1 " "; PDB.Residue "HOH" "W" 2 " ";
                                    PDB.Residue "CYS" " " 3 " "]]]) true)
  = Ok [Tup ["AA1"; "AB1"]; Tup ["CA3"; "CB3"]].
Proof.
  refine (proj1 (multimer_groups "dimer.pdb"
                   (PDB.Chain "B" [PDB.Residue "ALA" " " 1 " "; PDB.Residue "CYS" " " 3 " "])
                   [PDB.Chain "A" [PDB.Residue "ALA" " " 1 " "; PDB.Residue "HOH" "W" 2 " ";
                                   PDB.Residue "CYS" " " 3 " "]] _ _ _)).
  - repeat constructor; simpl; intuition discriminate.
  - intros ch Hch. in_cases Hch; subst ch; reflexivity.
  - intros ch Hch. in_cases Hch; subst ch; reflexivity.
Defined.

(** ** Numbers as text: [int] reads what ["%d"] writes *)

Section NumbersAsText.
Import DecimalPos.Unsigned.

Ltac digit_case IH :=
  simpl NilEmpty.string_of_uint; cbn [Py.int_digits];
  match goal with
  | |- context [Py.is_09 ?c] => change (Py.is_09 c) with true
  end;
  cbv iota; rewrite IH by (now right);
  match goal with
  | |- context [of_lu (Decimal.rev (?D ?d))] =>
      replace (of_lu (Decimal.rev (D d)))
        with (of_lu (Decimal.rev d) + of_lu (D Decimal.Nil) * 10 ^ usize d)%N
        by (unfold Decimal.rev at 2; simpl Decimal.revapp; now rewrite of_lu_revapp)
  end;
  simpl usize; rewrite N.pow_succ_r';
  rewrite !N2Z.inj_add, !N2Z.inj_mul; f_equal;
  match goal with
  | |- context [Z.of_nat (Py.code ?c - 48)] =>
      let v := eval vm_compute in (Z.of_nat (Py.code c - 48)) in
      change (Z.of_nat (Py.code c - 48)) with v
  end;
  match goal with
  | |- context [Z.of_N (of_lu ?x)] =>
      match x with
      | Decimal.rev _ => fail 1
      | _ => let v := eval vm_compute in (Z.of_N (of_lu x)) in
             change (Z.of_N (of_lu x)) with v
      end
  end;
  change (Z.of_N 10) with 10%Z; ring.

(** Reading the digits of [d] after [acc]: [acc] shifted left by their
    number, plus their value. *)
Lemma int_digits_uint (d : Decimal.uint) :
  forall acc seen,
    d <> Decimal.Nil \/ seen = true ->
    Py.int_digits acc seen (NilEmpty.string_of_uint d)
    = Some (acc * Z.of_N (10 ^ usize d) + Z.of_N (of_lu (Decimal.rev d)))%Z.
Proof.
  induction d as [ | d IH | d IH | d IH | d IH | d IH | d IH | d IH | d IH | d IH | d IH ];
    intros acc seen Hok.
  - destruct Hok as [Hd | ->]; [ congruence | ]. simpl. f_equal. lia.
  - digit_case IH.
  - digit_case IH.
  - digit_case IH.
  - digit_case IH.
  - digit_case IH.
  - digit_case IH.
  - digit_case IH.
  - digit_case IH.
  - digit_case IH.
  - digit_case IH.
Qed.

Lemma int_digits_to_uint (p : positive) :
  Py.int_digits 0 false (NilEmpty.string_of_uint (Pos.to_uint p)) = Some (Z.pos p).
Proof.
  rewrite int_digits_uint by (left; apply to_uint_nonnil).
  rewrite <- of_uint_alt, of_to. reflexivity.
Qed.

Lemma no_space_uint (d : Decimal.uint) : no_space (NilEmpty.string_of_uint d) = true.
Proof. induction d; simpl; auto. Qed.

Lemma int_space_isspace (c : ascii) : Py.isspace c = false -> Py.int_space c = false.
Proof. destruct c as [[] [] [] [] [] [] [] []]; intro H; (reflexivity || discriminate H). Qed.

Lemma int_lstrip_no_space (s : string) : no_space s = true -> Py.int_lstrip s = s.
Proof.
  destruct s as [ | c s]; simpl; [ reflexivity | ].
  intro H. apply andb_prop in H. destruct H as [Hc _].
  apply negb_true_iff, int_space_isspace in Hc. now rewrite Hc.
Qed.

Lemma int_rstrip_no_space (s : string) : no_space s = true -> Py.int_rstrip s = s.
Proof.
  induction s as [ | c s IH]; simpl; [ reflexivity | ].
  intro H. apply andb_prop in H. destruct H as [Hc Hs].
  apply negb_true_iff, int_space_isspace in Hc. rewrite (IH Hs), Hc. now destruct s.
Qed.

Lemma int_strip_no_space (s : string) :
  no_space s = true -> Py.int_rstrip (Py.int_lstrip s) = s.
Proof.
  intro H. rewrite (int_lstrip_no_space s H). now apply int_rstrip_no_space.
Qed.

Lemma uint_head (d : Decimal.uint) :
  d <> Decimal.Nil ->
  exists c s,
    NilEmpty.string_of_uint d = String c s
    /\ Ascii.eqb c "-" = false /\ Ascii.eqb c "+" = false.
Proof. destruct d; intro H; [ congruence | .. ]; simpl; eauto. Qed.

(** [int("%d" % n) == n] *)
Theorem int_fmt_d (n : Z) : Py.int (Py.fmt_d n) = Some n.
Proof.
  unfold Py.fmt_d. destruct n as [ | p | p]; [ reflexivity | | ]; simpl Z.to_int.
  - pose proof (to_uint_nonnil p) as Hnn.
    assert (Hs : NilZero.string_of_int (Decimal.Pos (Pos.to_uint p))
                 = NilEmpty.string_of_uint (Pos.to_uint p))
      by (simpl; unfold NilZero.string_of_uint; now destruct (Pos.to_uint p)).
    rewrite Hs. unfold Py.int. rewrite int_strip_no_space by apply no_space_uint.
    destruct (uint_head _ Hnn) as [c [s [Heq [Hm Hp]]]].
    rewrite Heq, Hm, Hp, <- Heq. apply int_digits_to_uint.
  - pose proof (to_uint_nonnil p) as Hnn.
    assert (Hs : NilZero.string_of_int (Decimal.Neg (Pos.to_uint p))
                 = String "-" (NilEmpty.string_of_uint (Pos.to_uint p)))
      by (simpl; unfold NilZero.string_of_uint; now destruct (Pos.to_uint p)).
    rewrite Hs. unfold Py.int.
    rewrite int_strip_no_space by (simpl; apply no_space_uint).
    simpl. now rewrite int_digits_to_uint.
Qed.

End NumbersAsText.

(** [int] drops the white space of C around a number; the separators 28
    to 31 are no such white space, and make it raise [ValueError], so that
    an identifier that holds one has no sort key. *)
Example int_white_space :
  Py.int (String (ascii_of_nat 9) " 12 ") = Some 12%Z
  /\ Py.int (String (ascii_of_nat 160) "-7") = Some (-7)%Z
  /\ Py.int "1_000" = Some 1000%Z
  /\ Py.int (String (ascii_of_nat 28) "5") = None
  /\ Py.strip (String (ascii_of_nat 28) "5") = "5"
  /\ reslist_key [String "A" (String "A" (String (ascii_of_nat 28) "5"))]
     = raise ValueError.
Proof. repeat split. Qed.

(** X2. The key [filter_reslist] sorts by, on an identifier written by
    ["%s%s%d"] for a chain id of one character: that character and the
    residue number. *)
Theorem reslist_key_of_residue_name (code : ascii) (c : string) (resid : Z)
  (rest : tuple) :
  String.length c = 1 ->
  reslist_key (residue_name code c resid :: rest) = ret (first_char c, resid).
Proof.
  destruct c as [ | a [ | b c]]; simpl; intro H; try lia.
  unfold reslist_key, residue_name. simpl. now rewrite int_fmt_d.
Qed.

Lemma reslist_key_of_residue_name_witness :
  reslist_key [residue_name "A" "B" (-12); "AC-12"] = ret ("B"%char, (-12)%Z).
Proof. apply (reslist_key_of_residue_name "A" "B" (-12) ["AC-12"]). reflexivity. Defined.

(** ** The whole position list *)

Lemma mapM_outcome_ok {A B} (f : A -> M B) (l : list A) :
  forall ys,
    outcome (mapM f l) = Ok ys ->
    Forall2 (fun x y => outcome (f x) = Ok y) l ys.
Proof.
  induction l as [ | x l IH]; simpl; intros ys H.
  - injection H as <-. constructor.
  - rewrite outcome_bind in H. destruct (outcome (f x)) as [y | e] eqn:Hx; [ | discriminate ].
    rewrite outcome_bind in H.
    destruct (outcome (mapM f l)) as [ys' | e] eqn:Hl; [ | discriminate ].
    injection H as <-. constructor; auto.
Qed.

(** The list of a set holds the distinct elements, in some order, and
    every order is that of some key. *)
Lemma list_set_perm {A} (dec : forall x y : A, {x = y} + {x <> y}) (order : A -> nat)
  (l : list A) :
  Permutation (Py.list_set dec order l) (nodup dec l).
Proof. apply sorted_perm. Qed.

Lemma list_set_NoDup {A} (dec : forall x y : A, {x = y} + {x <> y}) (order : A -> nat)
  (l : list A) :
  NoDup (Py.list_set dec order l).
Proof.
  apply (Permutation_NoDup (Permutation_sym (list_set_perm dec order l))).
  apply NoDup_nodup.
Qed.

Lemma list_set_In {A} (dec : forall x y : A, {x = y} + {x <> y}) (order : A -> nat)
  (l : list A) (x : A) :
  In x (Py.list_set dec order l) <-> In x l.
Proof.
  split; intro H.
  - apply (nodup_In dec). now apply (Permutation_in _ (list_set_perm dec order l)).
  - apply (Permutation_in _ (Permutation_sym (list_set_perm dec order l))).
    now apply nodup_In.
Qed.

Lemma StronglySorted_impl_in {A} (R R' : A -> A -> Prop) (l : list A) :
  (forall a b, In a l -> In b l -> R a b -> R' a b) ->
  StronglySorted R l -> StronglySorted R' l.
Proof.
  intros Himp Hs. induction Hs as [ | a l Hs IH Hall]; constructor.
  - apply IH. intros x y Hx Hy. apply Himp; now right.
  - rewrite Forall_forall in *. intros x Hx. apply Himp; auto; [ now left | now right ].
Qed.

Lemma place_sorted {A} (dec : forall x y : A, {x = y} + {x <> y}) (l : list A) :
  NoDup l -> StronglySorted (fun a b => place dec l a <= place dec l b) l.
Proof.
  induction 1 as [ | y l Hy _ IH]; constructor.
  - apply (StronglySorted_impl_in (fun a b => place dec l a <= place dec l b));
      [ | exact IH ].
    intros a b Ha Hb Hab. simpl.
    destruct (dec a y) as [-> | _]; [ contradiction | ].
    destruct (dec b y) as [-> | _]; [ contradiction | ]. lia.
  - apply Forall_forall. intros w _. simpl.
    destruct (dec y y) as [_ | Hne]; [ lia | congruence ].
Qed.

Lemma place_injective {A} (dec : forall x y : A, {x = y} + {x <> y}) (l : list A)
  (a b : A) :
  In a l -> In b l -> place dec l a = place dec l b -> a = b.
Proof.
  induction l as [ | y l IH]; simpl; intros Ha Hb; [ contradiction | ].
  destruct (dec a y) as [-> | Hay], (dec b y) as [-> | Hby]; try congruence.
  intro H. injection H as H.
  destruct Ha as [-> | Ha]; [ congruence | ].
  destruct Hb as [-> | Hb]; [ congruence | ]. auto.
Qed.

(** Every arrangement of the distinct elements is the list of the set
    for some key: the place of the elements in that arrangement. *)
Lemma list_set_any_order {A} (dec : forall x y : A, {x = y} + {x <> y})
  (l arranged : list A) :
  Permutation arranged (nodup dec l) ->
  Py.list_set dec (place dec arranged) l = arranged.
Proof.
  intro Hperm.
  assert (Hnd : NoDup arranged)
    by (apply (Permutation_NoDup (Permutation_sym Hperm)), NoDup_nodup).
  unfold Py.list_set.
  assert (Hp : Permutation (Py.sorted (place dec arranged) Nat.leb (nodup dec l)) arranged).
  { rewrite (sorted_perm (place dec arranged) Nat.leb (nodup dec l)).
    now apply Permutation_sym. }
  apply (StronglySorted_perm_eq (fun a b => place dec arranged a <= place dec arranged b)).
  - intros a b Ha Hb Hab Hba. apply (place_injective dec arranged).
    + now apply (Permutation_in _ Hp).
    + now apply (Permutation_in _ Hp).
    + lia.
  - apply Sorted_StronglySorted; [ intros a b c; lia | ].
    apply Sorted_impl with (R := sorted_rel (place dec arranged) Nat.leb).
    + intros a b H. apply Nat.leb_le. exact H.
    + apply sorted_Sorted. intros a b.
      destruct (Nat.le_ge_cases a b); [ left | right ]; now apply Nat.leb_le.
  - now apply place_sorted.
  - exact Hp.
Qed.

(** X3. When [parse_poslist_file] returns, its list has no repeated tuple
    and holds exactly the tuples of the lines of the file, whatever the
    order of the set. *)
Theorem parse_poslist_file_set (fname : string) (lines : list string)
  (unique_residues : list tuple) (set_order : tuple -> nat) (res : list tuple) :
  outcome (parse_poslist_file fname (Some lines) unique_residues set_order) = Ok res ->
  NoDup res
  /\ forall t,
      In t res
      <-> exists line,
          In line lines /\ outcome (parse_poslist_line unique_residues line) = Ok t.
Proof.
  unfold parse_poslist_file. rewrite outcome_bind.
  destruct (outcome (mapM (parse_poslist_line unique_residues) lines)) as [out | e] eqn:Hout;
    [ | discriminate ].
  intro H. injection H as <-.
  apply mapM_outcome_ok in Hout. split.
  - apply list_set_NoDup.
  - intro t. rewrite list_set_In.
    clear -Hout. induction Hout as [ | line y lines out Hy _ IH]; simpl.
    + split; [ intros [] | intros [line [[] _]] ].
    + rewrite IH. split.
      * intros [<- | [line' [Hin Ht]]]; eauto.
      * intros [line' [[<- | Hin] Ht]]; [ left; congruence | right; eauto ].
Qed.

Lemma parse_poslist_file_set_witness :
  NoDup [["A12"; "B12"]]
  /\ forall t,
      In t [["A12"; "B12"]]
      <-> exists line,
          In line ["AA12_AB12"; "AB12_AA12"]
          /\ outcome (parse_poslist_line [["AA12"; "AB12"]] line) = Ok t.
Proof.
  apply (parse_poslist_file_set "positions.txt" ["AA12_AB12"; "AB12_AA12"]
           [["AA12"; "AB12"]] (fun _ => 0) [["A12"; "B12"]]).
  reflexivity.
Defined.

(** ** Residue lists without multimers *)

Lemma bind_ok {A B} (m : M A) (f : A -> M B) (a : A) :
  outcome m = Ok a -> bind m f = (logged m ++ logged (f a), outcome (f a)).
Proof.
  destruct m as [l r]. simpl. intros ->. simpl. now destruct (f a).
Qed.

Section ScanSingle.
Variables (warn : PDB.residue -> M unit) (wrap : string -> resspec).
Hypothesis warn_returns : forall r, outcome (warn r) = Ok tt.

Lemma scan_residues_single (chain_name : string) (rs : list PDB.residue) :
  forall residue_list sequences,
    scan_residues warn wrap false chain_name rs (residue_list, sequences)
    = (flat_map (fun r => logged (warn r)) (unrecognized rs),
       Ok (residue_list
             ++ map (fun cr => wrap (residue_name (fst cr) chain_name (snd cr)))
                    (recognized rs),
           sequences)).
Proof.
  induction rs as [ | r rs IH]; intros rl d; simpl.
  - now rewrite app_nil_r.
  - destruct (Polypeptide.three_to_one (PDB.resname r)) as [c | ]; simpl.
    + rewrite IH, <- app_assoc. reflexivity.
    + rewrite (bind_ok _ _ tt (warn_returns r)), IH. reflexivity.
Qed.

Lemma scan_chains_single (chains : list PDB.chain) :
  forall residue_list sequences,
  exists sequences',
    scan_chains warn wrap false chains (residue_list, sequences)
    = (flat_map (chain_warnings warn) chains,
       Ok (residue_list ++ flat_map (chain_entries wrap) chains, sequences')).
Proof.
  induction chains as [ | ch chains IH]; intros rl d; simpl.
  - exists d. now rewrite app_nil_r.
  - rewrite scan_residues_single.
    destruct (IH (rl ++ chain_entries wrap ch) (dict_set (PDB.chain_id ch) "" d))
      as [d' Hd'].
    exists d'. unfold bind. unfold chain_entries at 1 in Hd'. rewrite Hd'.
    unfold chain_warnings at 2. now rewrite <- app_assoc.
Qed.

Lemma scan_models_single (models : list PDB.model) :
  forall residue_list sequences,
  exists sequences',
    scan_models warn wrap false models (residue_list, sequences)
    = (flat_map (flat_map (chain_warnings warn)) models,
       Ok (residue_list ++ flat_map (flat_map (chain_entries wrap)) models,
           sequences')).
Proof.
  induction models as [ | m models IH]; intros rl d; simpl.
  - exists d. now rewrite app_nil_r.
  - destruct (scan_chains_single m rl d) as [d1 H1]. rewrite H1.
    destruct (IH (rl ++ flat_map (chain_entries wrap) m) d1) as [d2 H2].
    exists d2. unfold bind. rewrite H2. now rewrite <- app_assoc.
Qed.

End ScanSingle.

(** X5. Without multimers [get_foldx_sequence] returns one tuple of one
    identifier per residue [three_to_one] knows, over all models, chains
    and residues in the order of the structure, and logs one warning per
    residue it does not know, in that order; it never raises on a
    structure that was parsed. *)
Theorem get_foldx_sequence_single (pdb : string) (structure : PDB.structure) :
  get_foldx_sequence pdb (Ok structure) false
  = (flat_map (flat_map (chain_warnings (warn_foldx_sequence pdb))) structure,
     Ok (flat_map (flat_map (chain_entries (fun s => Tup [s]))) structure)).
Proof.
  unfold get_foldx_sequence.
  destruct (scan_models_single (warn_foldx_sequence pdb) (fun s => Tup [s])
              (warn_foldx_sequence_returns pdb) structure [] []) as [d H].
  unfold dict in *. rewrite H. simpl. now rewrite app_nil_r.
Qed.

(** ** The two readers of residue lists, side by side *)

Section EmitIndependent.
Variables (warn1 warn2 : PDB.residue -> M unit).
Hypothesis warn1_returns : forall r, outcome (warn1 r) = Ok tt.
Hypothesis warn2_returns : forall r, outcome (warn2 r) = Ok tt.

Lemma emit_residues_any_warning (cg : list string) (rs : list PDB.residue) :
  outcome (emit_residues warn1 cg rs) = outcome (emit_residues warn2 cg rs).
Proof.
  induction rs as [ | r rs IH]; simpl; [ reflexivity | ].
  destruct (Polypeptide.three_to_one (PDB.resname r)) as [code | ].
  - rewrite !outcome_bind.
    destruct (outcome (sorted_by second_char Ascii.leb
                         (map (fun c => residue_name code c (PDB.resseq r)) cg)));
      [ | reflexivity ].
    now rewrite !outcome_bind, IH.
  - now rewrite !outcome_bind, warn1_returns, warn2_returns.
Qed.

Lemma emit_models_any_warning (cg : list string) (structure : PDB.structure) :
  outcome (emit_models warn1 cg structure) = outcome (emit_models warn2 cg structure).
Proof.
  induction structure as [ | m structure IH]; simpl; [ reflexivity | ].
  destruct cg as [ | cg0 cg']; [ reflexivity | ].
  destruct (PDB.getitem m cg0) as [ch | ]; [ | reflexivity ].
  rewrite !outcome_bind, (emit_residues_any_warning (cg0 :: cg')).
  destruct (outcome (emit_residues warn2 (cg0 :: cg') (PDB.chain_residues ch)));
    [ | reflexivity ].
  now rewrite !outcome_bind, IH.
Qed.

Lemma emit_groups_any_warning (groups : list (list string)) (structure : PDB.structure) :
  outcome (emit_groups warn1 groups structure)
  = outcome (emit_groups warn2 groups structure).
Proof.
  induction groups as [ | cg groups IH]; simpl; [ reflexivity | ].
  rewrite !outcome_bind, emit_models_any_warning.
  destruct (outcome (emit_models warn2 cg structure)); [ | reflexivity ].
  now rewrite !outcome_bind, IH.
Qed.

Lemma multimer_block_any_warning (sequences : dict) (structure : PDB.structure) :
  outcome (multimer_block warn1 sequences structure)
  = outcome (multimer_block warn2 sequences structure).
Proof.
  unfold multimer_block. rewrite !outcome_bind.
  destruct (outcome (collate_chains sequences)); [ | reflexivity ].
  apply emit_groups_any_warning.
Qed.

End EmitIndependent.

(** X6. On a structure of one model the two readers agree: with
    multimers they return the same list or raise the same exception, and
    without multimers [get_foldx_sequence] returns, as tuples of one, the
    very identifiers [get_residue_list] returns as bare strings. *)
Theorem residue_list_siblings (pdb : string) (m : PDB.model) :
  outcome (get_residue_list (Ok [m]) true)
  = outcome (get_foldx_sequence pdb (Ok [m]) true)
  /\ exists ids,
      outcome (get_residue_list (Ok [m]) false) = Ok (map Str ids)
      /\ outcome (get_foldx_sequence pdb (Ok [m]) false)
         = Ok (map (fun s => Tup [s]) ids).
Proof.
  split.
  - unfold get_residue_list, get_foldx_sequence. cbn [scan_models].
    simpl List.length. cbn [Nat.ltb Nat.leb].
    rewrite !bind_ret_l, !outcome_bind.
    rewrite (scan_chains_multimer _ Str warn_residue_list_returns).
    rewrite (scan_chains_multimer _ (fun s => Tup [s]) (warn_foldx_sequence_returns pdb)).
    cbn [outcome snd ret]. rewrite !outcome_bind.
    rewrite (multimer_block_any_warning warn_residue_list (warn_foldx_sequence pdb)
               warn_residue_list_returns (warn_foldx_sequence_returns pdb)).
    reflexivity.
  - exists (flat_map (fun ch => map (fun cr => residue_name (fst cr) (PDB.chain_id ch) (snd cr))
                                    (recognized (PDB.chain_residues ch))) m).
    split.
    + unfold get_residue_list. simpl List.length. cbn [Nat.ltb Nat.leb].
      rewrite !bind_ret_l.
      destruct (scan_chains_single warn_residue_list Str warn_residue_list_returns m [] [])
        as [d H].
      unfold dict in *. rewrite H. simpl. f_equal.
      clear. induction m as [ | ch m IH]; simpl; [ reflexivity | ].
      rewrite map_app, IH. unfold chain_entries. now rewrite map_map.
    + unfold get_foldx_sequence.
      destruct (scan_models_single (warn_foldx_sequence pdb) (fun s => Tup [s])
                  (warn_foldx_sequence_returns pdb) [m] [] []) as [d H].
      unfold dict in *. rewrite H. simpl. rewrite app_nil_r. f_equal.
      clear. induction m as [ | ch m IH]; simpl; [ reflexivity | ].
      rewrite map_app, IH. unfold chain_entries. now rewrite map_map.
Qed.

(** ** Grouping the chains by sequence *)

Lemma index_of_lt (x : string) (l : list string) :
  In x l -> index_of x l < List.length l.
Proof.
  induction l as [ | y l IH]; simpl; intro H; [ destruct H | ].
  destruct (String.eqb_spec x y) as [_ | Hne]; [ lia | ].
  destruct H as [-> | H]; [ congruence | ]. apply IH in H. lia.
Qed.

Lemma nth_index_of (x d : string) (l : list string) :
  In x l -> nth (index_of x l) l d = x.
Proof.
  induction l as [ | y l IH]; simpl; intro H; [ destruct H | ].
  destruct (String.eqb_spec x y) as [-> | Hne]; [ reflexivity | ].
  destruct H as [-> | H]; [ congruence | ]. now apply IH.
Qed.

Lemma index_of_nth (d : string) (l : list string) :
  NoDup l -> forall i, i < List.length l -> index_of (nth i l d) l = i.
Proof.
  induction 1 as [ | y l Hnotin _ IH]; intros i Hi; simpl in *; [ lia | ].
  destruct i as [ | i].
  - now rewrite String.eqb_refl.
  - destruct (String.eqb_spec (nth i l d) y) as [Heq | _].
    + exfalso. apply Hnotin. rewrite <- Heq. apply nth_In. lia.
    + rewrite IH by lia. reflexivity.
Qed.

Lemma np_unique_perm (l : list string) : Permutation (np_unique l) (nodup string_dec l).
Proof. apply sorted_perm. Qed.

Lemma np_unique_In (l : list string) (x : string) : In x (np_unique l) <-> In x l.
Proof.
  split; intro H.
  - apply (nodup_In string_dec). now apply (Permutation_in x (np_unique_perm l)).
  - apply (Permutation_in x (Permutation_sym (np_unique_perm l))).
    now apply nodup_In.
Qed.

Lemma np_unique_NoDup (l : list string) : NoDup (np_unique l).
Proof.
  apply (Permutation_NoDup (Permutation_sym (np_unique_perm l))), NoDup_nodup.
Qed.

Lemma np_unique_Sorted (l : list string) : Sorted str_le (np_unique l).
Proof. apply (sorted_Sorted (fun x : string => x) String.leb String.leb_total). Qed.

Lemma seq_StronglySorted (a n : nat) : StronglySorted le (seq a n).
Proof.
  revert a. induction n as [ | n IH]; intro a; simpl; constructor; [ apply IH | ].
  apply Forall_forall. intros x Hx. apply in_seq in Hx. lia.
Qed.

(** The distinct indices, ascending, are all the positions of the
    distinct sequences. *)
Lemma np_unique_idx_seq (seqs : list string) :
  np_unique_idx (map (fun s => index_of s (np_unique seqs)) seqs)
  = seq 0 (List.length (np_unique seqs)).
Proof.
  set (U := np_unique seqs). set (idxs := map (fun s => index_of s U) seqs).
  apply (StronglySorted_perm_eq le).
  - intros a b _ _ Hab Hba. lia.
  - apply Sorted_StronglySorted; [ intros a b c; apply Nat.le_trans | ].
    apply Sorted_impl with (R := sorted_rel (fun x : nat => x) Nat.leb).
    + intros a b H. now apply Nat.leb_le.
    + apply sorted_Sorted. intros a b.
      destruct (Nat.le_ge_cases a b); [ left | right ]; now apply Nat.leb_le.
  - apply seq_StronglySorted.
  - unfold np_unique_idx. rewrite sorted_perm.
    apply NoDup_Permutation; [ apply NoDup_nodup | apply seq_NoDup | ].
    intro i. rewrite nodup_In, in_seq. unfold idxs. rewrite in_map_iff. split.
    + intros [s [<- Hs]]. split; [ lia | ].
      apply index_of_lt. now apply np_unique_In.
    + intros [_ Hi]. exists (nth i U ""). split.
      * apply index_of_nth; [ apply np_unique_NoDup | exact Hi ].
      * apply (np_unique_In seqs). now apply nth_In.
Qed.

Lemma map_seq_nth {A} (g : string -> A) (l : list string) :
  map (fun i => g (nth i l "")) (seq 0 (List.length l)) = map g l.
Proof.
  induction l as [ | x l IH]; simpl; [ reflexivity | ].
  f_equal. rewrite <- seq_shift, map_map. exact IH.
Qed.

Lemma select_by_index (sequences : dict) (U : list string) (i : nat) :
  NoDup U -> i < List.length U ->
  (forall kv, In kv sequences -> In (snd kv) U) ->
  select (map fst sequences)
         (map (Nat.eqb i) (map (fun s => index_of s U) (map snd sequences)))
  = chains_with sequences (nth i U "").
Proof.
  intros Hnd Hi. unfold chains_with.
  induction sequences as [ | [k v] d IH]; intro Hin; simpl; [ reflexivity | ].
  assert (Hv : In v U) by (apply (Hin (k, v)); now left).
  assert (Hrest : forall kv, In kv d -> In (snd kv) U) by (intros; apply Hin; now right).
  destruct (Nat.eqb_spec i (index_of v U)) as [Heq | Hne].
  - assert (Hs : nth i U "" = v) by (rewrite Heq; now apply nth_index_of).
    rewrite Hs in *. rewrite String.eqb_refl. simpl. now rewrite IH.
  - destruct (String.eqb_spec v (nth i U "")) as [Hv' | _].
    + exfalso. apply Hne. rewrite Hv'. now rewrite index_of_nth.
    + now apply IH.
Qed.

Lemma collate_chains_np_unique (sequences : dict) :
  sequences <> [] ->
  collate_chains sequences
  = ret (map (chains_with sequences) (np_unique (map snd sequences))).
Proof.
  intro Hne.
  unfold collate_chains. destruct sequences as [ | kv d] eqn:Hd; [ congruence | ].
  rewrite <- Hd. clear Hd Hne kv d. f_equal. f_equal.
  rewrite np_unique_idx_seq, <- (map_seq_nth (chains_with sequences)).
  apply map_ext_in. intros i Hi. apply in_seq in Hi.
  apply select_by_index; [ apply np_unique_NoDup | lia | ].
  intros kv Hkv. apply np_unique_In. now apply in_map.
Qed.



Example collate_chains_three :
  collate_chains [("A", "MK"); ("B", "AC"); ("C", "MK")] = ret [["B"]; ["A"; "C"]].
Proof. reflexivity. Qed.

(** ** Multimer mode on any model *)

Lemma getitem_In (m : PDB.model) (id : string) :
  In id (map PDB.chain_id m) ->
  exists ch, PDB.getitem m id = Some ch /\ In ch m.
Proof.
  induction m as [ | c m IH]; simpl; intro H; [ destruct H | ].
  destruct (String.eqb_spec (PDB.chain_id c) id) as [_ | Hne]; [ eauto | ].
  destruct H as [H | H]; [ congruence | ].
  destruct (IH H) as [ch [Hget Hin]]. eauto.
Qed.

Lemma chains_with_incl (d : dict) (s : string) :
  incl (chains_with d s) (map fst d).
Proof.
  unfold chains_with. intros k Hk. apply in_map_iff in Hk.
  destruct Hk as [kv [<- Hkv]]. apply filter_In in Hkv. now apply in_map.
Qed.

Lemma chains_with_nonempty (d : dict) (s : string) :
  In s (map snd d) -> chains_with d s <> [].
Proof.
  unfold chains_with. intros Hs Hnil. apply in_map_iff in Hs.
  destruct Hs as [kv [Hsnd Hkv]].
  assert (Hin : In (fst kv) (map fst (filter (fun kv => String.eqb (snd kv) s) d))).
  { apply in_map, filter_In. split; [ exact Hkv | ]. rewrite Hsnd. apply String.eqb_refl. }
  rewrite Hnil in Hin. destruct Hin.
Qed.

Section EmitGroups.
Variable warn : PDB.residue -> M unit.
Hypothesis warn_returns : forall r, outcome (warn r) = Ok tt.
Variable m : PDB.model.
Hypothesis one_char : forall ch, In ch m -> String.length (PDB.chain_id ch) = 1.

Lemma emit_models_group (g : list string) :
  g <> [] -> incl g (map PDB.chain_id m) ->
  outcome (emit_models warn g [m]) = Ok (group_entries m g).
Proof.
  intros Hne Hincl. destruct g as [ | cg0 g']; [ congruence | ].
  unfold group_entries. cbn [emit_models].
  destruct (getitem_In m cg0 (Hincl cg0 (or_introl eq_refl))) as [ch [Hget _]].
  rewrite Hget, !outcome_bind.
  rewrite (emit_residues_groups warn warn_returns).
  - simpl. now rewrite app_nil_r.
  - intros c Hc. apply Hincl in Hc. apply in_map_iff in Hc.
    destruct Hc as [ch' [<- Hch']]. now apply one_char.
Qed.

Lemma emit_groups_all (groups : list (list string)) :
  (forall g, In g groups -> g <> [] /\ incl g (map PDB.chain_id m)) ->
  outcome (emit_groups warn groups [m]) = Ok (flat_map (group_entries m) groups).
Proof.
  induction groups as [ | g groups IH]; intro H; [ reflexivity | ].
  cbn [emit_groups flat_map].
  destruct (H g (or_introl eq_refl)) as [Hne Hincl].
  rewrite outcome_bind, (emit_models_group g Hne Hincl), outcome_bind.
  rewrite IH by (intros; apply H; now right). reflexivity.
Qed.

End EmitGroups.

Lemma sequences_of_keys (m : PDB.model) : map fst (sequences_of m) = map PDB.chain_id m.
Proof. unfold sequences_of. rewrite map_map. reflexivity. Qed.




(** ** [filter_reslist] on any input *)

Lemma first_match_Some (p : tuple) (l : list tuple) (u : tuple) :
  first_match p l (edit_reslist l) = Some u ->
  In u l /\ incl p (map Py.tail u).
Proof.
  induction l as [ | x l IH]; simpl; [ discriminate | ].
  destruct (Py.issubset string_dec p (map Py.tail x)) eqn:Hsub.
  - intro H. injection H as <-. apply issubset_true_iff in Hsub. auto.
  - intro H. destruct (IH H). auto.
Qed.

Lemma first_match_None (p : tuple) (l : list tuple) :
  first_match p l (edit_reslist l) = None
  <-> forall u, In u l -> ~ incl p (map Py.tail u).
Proof.
  induction l as [ | x l IH]; simpl.
  - split; [ intros _ u [] | reflexivity ].
  - destruct (Py.issubset string_dec p (map Py.tail x)) eqn:Hsub.
    + apply issubset_true_iff in Hsub. split; [ discriminate | ].
      intro H. exfalso. apply (H x); auto.
    + rewrite IH. split.
      * intros H u [<- | Hu]; [ | now apply H ].
        intro Hincl. apply (issubset_true_iff string_dec) in Hincl. congruence.
      * intros H u Hu. apply H. now right.
Qed.

Lemma filter_loop_sound (reslist : list tuple) (ref : list tuple) :
  forall acc filtered,
    outcome (filter_loop reslist (edit_reslist reslist) ref acc) = Ok filtered ->
    (NoDup acc -> NoDup filtered)
    /\ incl acc filtered
    /\ (incl acc reslist -> incl filtered reslist)
    /\ forall p, In p ref -> exists u, In u filtered /\ incl p (map Py.tail u).
Proof.
  induction ref as [ | p ref IH]; intros acc filtered; simpl.
  - intro H. injection H as <-. repeat split; auto using incl_refl. intros p [].
  - destruct (first_match p reslist (edit_reslist reslist)) as [u | ] eqn:Hfm;
      [ | discriminate ].
    destruct (first_match_Some _ _ _ Hfm) as [Hu Hincl].
    intro H. apply IH in H. destruct H as [Hnd [Hacc [Hsub Hcover]]].
    destruct (Py.mem tuple_dec u acc) eqn:Hmem; simpl in *.
    + apply mem_true_iff in Hmem. repeat split; auto.
      intros q [<- | Hq]; [ exists u; auto | now apply Hcover ].
    + apply mem_false_iff in Hmem. repeat split.
      * intro Hacc_nd. apply Hnd. apply NoDup_app; auto.
        -- repeat constructor. intros [].
        -- intros x Hx [<- | []]. contradiction.
      * intros x Hx. apply Hacc, in_or_app. now left.
      * intro Hin. apply Hsub. intros x Hx. apply in_app_or in Hx.
        destruct Hx as [Hx | [<- | []]]; auto.
      * intros q [<- | Hq]; [ | now apply Hcover ].
        exists u. split; [ | exact Hincl ]. apply Hacc, in_or_app. right. now left.
Qed.

Lemma sorted_by_reslist_key (l out : list tuple) :
  outcome (sorted_by reslist_key key_le l) = Ok out ->
  out = Py.sorted key_of key_le l.
Proof.
  unfold sorted_by. rewrite outcome_bind.
  destruct (outcome (mapM reslist_key l)) as [keys | e] eqn:Hkeys; [ | discriminate ].
  simpl. intro H. injection H as <-.
  apply mapM_outcome_ok in Hkeys.
  assert (Hk : keys = map key_of l).
  { induction Hkeys as [ | x k l keys Hx _ IH]; simpl; [ reflexivity | ].
    rewrite IH. f_equal. unfold key_of. now rewrite Hx. }
  rewrite Hk. apply sorted_pairs.
Qed.

(** X9. Whenever [filter_reslist] returns, its list has no repeated
    entry, every entry is an entry of the residue list, every reference
    entry has all its tokens among the reduced tokens of some returned
    entry, and the list is sorted by chain id and then by residue number
    compared as an integer. *)
Theorem filter_reslist_sound (reslist ref out : list tuple) :
  outcome (filter_reslist reslist ref) = Ok out ->
  NoDup out
  /\ incl out reslist
  /\ (forall p, In p ref -> exists u, In u out /\ incl p (map Py.tail u))
  /\ Sorted reslist_order out.
Proof.
  unfold filter_reslist. rewrite outcome_bind.
  destruct (outcome (filter_loop reslist (edit_reslist reslist) ref []))
    as [filtered | e] eqn:Hloop; [ | discriminate ].
  intro Hsort. apply sorted_by_reslist_key in Hsort. subst out.
  destruct (filter_loop_sound _ _ _ _ Hloop) as [Hnd [_ [Hsub Hcover]]].
  pose proof (sorted_perm key_of key_le filtered) as Hperm.
  split; [ | split; [ | split ] ].
  - apply (Permutation_NoDup (Permutation_sym Hperm)), Hnd. constructor.
  - intros x Hx. apply Hsub; [ intros y [] | ]. now apply (Permutation_in x Hperm).
  - intros p Hp. destruct (Hcover p Hp) as [u [Hu Hincl]].
    exists u. split; [ | exact Hincl ].
    now apply (Permutation_in u (Permutation_sym Hperm)).
  - apply sorted_key_of_Sorted.
Qed.

Lemma filter_reslist_sound_witness :
  NoDup [["CA9"]; ["AA10"]]
  /\ incl [["CA9"]; ["AA10"]] [["AA10"]; ["GB3"]; ["CA9"]]
  /\ (forall p, In p [["A10"]; ["A9"]; ["A10"]] ->
                exists u, In u [["CA9"]; ["AA10"]] /\ incl p (map Py.tail u))
  /\ Sorted reslist_order [["CA9"]; ["AA10"]].
Proof.
  apply (filter_reslist_sound [["AA10"]; ["GB3"]; ["CA9"]] [["A10"]; ["A9"]; ["A10"]]).
  reflexivity.
Defined.

Lemma filter_loop_matched (reslist : list tuple) (ref1 : list tuple) :
  forall acc rest,
    (forall q, In q ref1 -> exists u, In u reslist /\ incl q (map Py.tail u)) ->
    exists acc',
      filter_loop reslist (edit_reslist reslist) (ref1 ++ rest) acc
      = filter_loop reslist (edit_reslist reslist) rest acc'.
Proof.
  induction ref1 as [ | q ref1 IH]; intros acc rest Hall; simpl; [ eauto | ].
  destruct (first_match q reslist (edit_reslist reslist)) as [u | ] eqn:Hfm.
  - apply IH. intros; apply Hall; now right.
  - exfalso. destruct (Hall q (or_introl eq_refl)) as [u [Hu Hincl]].
    apply (proj1 (first_match_None q reslist) Hfm u Hu Hincl).
Qed.

(** X10. [filter_reslist] stops at the first reference entry whose tokens
    are not all among the reduced tokens of one entry of the residue
    list: it logs one error that names this entry, its tokens joined by
    [_], and raises [TypeError]. *)
Theorem filter_reslist_unmatched (reslist ref1 ref2 : list tuple) (p : tuple) :
  (forall q, In q ref1 -> exists u, In u reslist /\ incl q (map Py.tail u)) ->
  (forall u, In u reslist -> ~ incl p (map Py.tail u)) ->
  filter_reslist reslist (ref1 ++ p :: ref2)
  = ([LogRecord ERROR
        "Position %s was not identified in the input PDB files. Exiting..."
        [Py.join "_" p]],
     Raise TypeError).
Proof.
  intros Hmatched Hnone. unfold filter_reslist.
  destruct (filter_loop_matched reslist ref1 [] (p :: ref2) Hmatched) as [acc' ->].
  simpl. apply first_match_None in Hnone. rewrite Hnone. reflexivity.
Qed.

Lemma filter_reslist_unmatched_witness :
  filter_reslist [["AA10"; "AB10"]; ["CA9"]] ([["A9"]] ++ ["A10"; "C10"] :: [["B10"]])
  = ([LogRecord ERROR
        "Position %s was not identified in the input PDB files. Exiting..."
        ["A10_C10"]],
     Raise TypeError).
Proof.
  apply (filter_reslist_unmatched [["AA10"; "AB10"]; ["CA9"]] [["A9"]] [["B10"]]
           ["A10"; "C10"]).
  - intros q Hq. in_cases Hq; subst q. exists ["CA9"]. split; [ simpl; auto | ].
    intros x Hx. in_cases Hx; subst x. simpl. auto.
  - intros u Hu Hincl. in_cases Hu; subst u;
      specialize (Hincl "C10" (or_intror (or_introl eq_refl)));
      simpl in Hincl; intuition discriminate.
Defined.

(** ** Energy files with two statistics *)

Section EnergyRoundTrip.

Context {F : Type}.
Variables (np_average np_std : list F -> F).
Variables (np_min np_max : list F -> option F).
Variable readback : F -> F.

Lemma columns_pair {A} (f g : A -> F) (l : list A) :
  columns (List.length l) [map f l; map g l] = map (fun x => [f x; g x]) l.
Proof.
  unfold columns, column. induction l as [ | x l IH]; simpl; [ reflexivity | ].
  f_equal. rewrite <- seq_shift, map_map. exact IH.
Qed.

Lemma column0_pairs {A} (f g : A -> F) (l : list A) :
  column 0 (map (fun x => [f x; g x]) l) = map f l.
Proof.
  unfold column. induction l as [ | x l IH]; [ reflexivity | ].
  cbn [map flat_map nth_error app]. now f_equal.
Qed.

Lemma column1_pairs {A} (f g : A -> F) (l : list A) :
  column 1 (map (fun x => [f x; g x]) l) = map g l.
Proof.
  unfold column. induction l as [ | x l IH]; [ reflexivity | ].
  cbn [map flat_map nth_error app]. now f_equal.
Qed.

Lemma filter_pairs {A} (f g : A -> F) (l : list A) :
  filter (fun r => negb (List.length r =? 0)) (map (fun x => [f x; g x]) l)
  = map (fun x => [f x; g x]) l.
Proof. induction l as [ | x l IH]; simpl; [ reflexivity | now rewrite IH ]. Qed.

Lemma same_width_pairs {A} (f g : A -> F) (l : list A) :
  same_width (map (fun x => [f x; g x]) l) = true.
Proof.
  destruct l as [ | x l]; simpl; [ reflexivity | ].
  induction l; simpl; auto.
Qed.

(** X11. With the averages and the standard deviations written, the file
    reads back as it should, for any data with at least one entry: with
    [reslist] of one name per entry the size check passes, and
    [parse_ddg_file] returns the averages of all entries, as read back
    from their text, when [full] is off, and the matrix of averages and
    standard deviations when it is on. *)
Theorem avg_std_roundtrip_reads_back (fname : string) (ncols : nat)
  (r1 : list F) (rest : list (list F)) (reslist : list string) :
  List.length reslist = List.length (r1 :: rest) ->
  avg_std_roundtrip np_average np_std np_min np_max readback fname ncols
    (r1 :: rest) (Some reslist) false
  = ([], Ok (Arr1 (map (fun r => readback (np_average r)) (r1 :: rest))))
  /\ avg_std_roundtrip np_average np_std np_min np_max readback fname ncols
       (r1 :: rest) (Some reslist) true
     = ([], Ok (Arr2 (List.length (r1 :: rest))
                  [map (fun r => readback (np_average r)) (r1 :: rest);
                   map (fun r => readback (np_std r)) (r1 :: rest)])).
Proof.
  intro Hlen.
  assert (Hfile : forall data,
             reread readback
               (Written (Py.join (String (ascii_of_nat 9) "") ["avg"; "std"])
                  (columns (List.length data) [map np_average data; map np_std data]))
             = map (fun r => [readback (np_average r); readback (np_std r)]) data).
  { intro data. unfold reread. cbn [lines].
    rewrite columns_pair, !map_map. reflexivity. }
  unfold avg_std_roundtrip, save_energy_file. cbn [slices app].
  rewrite !bind_ret_l. cbn [stack_T]. rewrite !Hfile.
  unfold parse_ddg_file, loadtxt.
  rewrite filter_pairs, same_width_pairs. cbn [negb].
  destruct rest as [ | r2 rest].
  - simpl in Hlen. destruct reslist as [ | n [ | n' reslist]]; simpl in Hlen; try lia.
    split; reflexivity.
  - set (data := r1 :: r2 :: rest) in *.
    assert (Hload :
              match map (fun r => [readback (np_average r); readback (np_std r)]) data with
              | [] => Some (Arr1 [])
              | [[x]] => Some (Arr0 x)
              | [r] => Some (Arr1 r)
              | r :: _ =>
                  if List.length r =? 1
                  then Some (Arr1 (column 0
                          (map (fun r => [readback (np_average r); readback (np_std r)])
                               data)))
                  else Some (Arr2 (List.length r)
                          (map (fun r => [readback (np_average r); readback (np_std r)])
                               data))
              end
              = Some (Arr2 2 (map (fun r => [readback (np_average r); readback (np_std r)])
                                  data))) by reflexivity.
    rewrite Hload. cbn [option_map transpose ndim Nat.eqb]. cbn [shape1].
    rewrite length_map, <- Hlen, Nat.eqb_refl. cbn [negb].
    rewrite !bind_ret_l.
    unfold columns. cbn [seq map]. rewrite column0_pairs, column1_pairs.
    split; reflexivity.
Qed.

End EnergyRoundTrip.

Lemma avg_std_roundtrip_reads_back_witness :
  avg_std_roundtrip (fun r => hd 0%Z r) (fun r => last r 0%Z)
    (fun _ => None) (fun _ => None) (fun x => x) "energies.txt" 2
    [[1; 2]; [3; 4]; [5; 6]]%Z (Some ["A"; "C"; "D"]) false
  = ([], Ok (Arr1 [1; 3; 5]%Z)).
Proof.
  apply (avg_std_roundtrip_reads_back (fun r => hd 0%Z r) (fun r => last r 0%Z)
           (fun _ => None) (fun _ => None) (fun x => x) "energies.txt" 2
           [1; 2]%Z [[3; 4]; [5; 6]]%Z ["A"; "C"; "D"]).
  reflexivity.
Defined.

(** ** From the position list to the filtered residue list *)

Lemma parse_poslist_line_within (unique_residues : list tuple) (line : string) (t : tuple) :
  (forall u s, In u unique_residues -> In s u -> lettered_chain s) ->
  outcome (parse_poslist_line unique_residues line) = Ok t ->
  exists u, In u unique_residues /\ incl t (map Py.tail u).
Proof.
  intros Hchain Hok.
  destruct (parse_poslist_line_cases unique_residues line) as [H | [H | [H [u [Hu Hincl]]]]];
    rewrite H in Hok; try discriminate.
  injection Hok as <-. exists u. split; [ exact Hu | ].
  intros x Hx.
  apply (Permutation_in _ (sorted_perm (fun x => x) String.leb _)) in Hx.
  apply in_map_iff in Hx. destruct Hx as [s [<- Hs]].
  apply Hincl in Hs. destruct (Hchain u s Hu Hs) as [c [Hc Hd]].
  unfold chain_number. rewrite Hc, Hd. now apply in_map.
Qed.

Lemma mapM_outcome_In {A B} (f : A -> M B) (l : list A) (ys : list B) (y : B) :
  outcome (mapM f l) = Ok ys -> In y ys -> exists x, In x l /\ outcome (f x) = Ok y.
Proof.
  intros H Hy. apply mapM_outcome_ok in H.
  induction H as [ | x y' l ys Hx _ IH]; simpl in *; [ contradiction | ].
  destruct Hy as [<- | Hy]; [ eauto | ].
  destruct (IH Hy) as [x' [Hin Hx']]. eauto.
Qed.

(** X12. The position list feeds the filter: when the chain ids of the
    residue list are not digits and every entry of the list has a sort
    key, whatever [parse_poslist_file] returns for it, in whatever order
    the set puts it, is accepted by [filter_reslist] on the same list: it
    logs nothing, raises nothing and returns entries that cover every
    position read. *)
Theorem poslist_feeds_filter (fname : string) (fh : text_file)
  (unique_residues : list tuple) (set_order : tuple -> nat) (ref : list tuple) :
  (forall u s, In u unique_residues -> In s u -> lettered_chain s) ->
  (forall u, In u unique_residues -> reslist_key u = ret (key_of u)) ->
  outcome (parse_poslist_file fname fh unique_residues set_order) = Ok ref ->
  exists out,
    filter_reslist unique_residues ref = ret out
    /\ incl out unique_residues
    /\ forall p, In p ref -> exists u, In u out /\ incl p (map Py.tail u).
Proof.
  intros Hchain Hkeys Hok.
  assert (Href : forall p, In p ref ->
                           exists u, In u unique_residues /\ incl p (map Py.tail u)).
  { intros p Hp. unfold parse_poslist_file in Hok.
    destruct fh as [lines | ]; [ | discriminate ].
    rewrite outcome_bind in Hok.
    destruct (outcome (mapM (parse_poslist_line unique_residues) lines))
      as [out | e] eqn:Hout; [ | discriminate ].
    injection Hok as <-.
    apply list_set_In in Hp.
    destruct (mapM_outcome_In _ _ _ _ Hout Hp) as [line [_ Hline]].
    now apply (parse_poslist_line_within unique_residues line). }
  unfold filter_reslist.
  destruct (filter_loop_matched unique_residues ref [] [] Href) as [acc Hloop].
  rewrite app_nil_r in Hloop. simpl in Hloop.
  destruct (filter_loop_sound unique_residues ref [] acc) as [_ [_ [Hincl Hcover]]];
    [ now rewrite Hloop | ].
  specialize (Hincl (incl_nil_l _)).
  rewrite Hloop, bind_ret_l.
  rewrite sorted_by_keys by (intros r Hr; apply Hkeys, Hincl, Hr).
  exists (Py.sorted key_of key_le acc). split; [ reflexivity | split ].
  - intros u Hu. apply Hincl.
    now apply (Permutation_in _ (sorted_perm key_of key_le acc)).
  - intros p Hp. destruct (Hcover p Hp) as [u [Hu Hpu]].
    exists u. split; [ | exact Hpu ].
    now apply (Permutation_in _ (Permutation_sym (sorted_perm key_of key_le acc))).
Qed.

Lemma poslist_feeds_filter_witness :
  exists out,
    filter_reslist [["CA13"; "CB13"]; ["AA12"; "AB12"]] [["A12"; "B12"]; ["B13"]] = ret out
    /\ incl out [["CA13"; "CB13"]; ["AA12"; "AB12"]]
    /\ forall p, In p [["A12"; "B12"]; ["B13"]] ->
                 exists u, In u out /\ incl p (map Py.tail u).
Proof.
  apply (poslist_feeds_filter "positions.txt" (Some ["AB12_AA12"; "CB13"])
           [["CA13"; "CB13"]; ["AA12"; "AB12"]] (fun _ => 0) [["A12"; "B12"]; ["B13"]]).
  - intros u s Hu Hs. in_cases Hu; subst u; in_cases Hs; subst s;
      eexists; split; reflexivity.
  - intros u Hu. in_cases Hu; subst u; reflexivity.
  - reflexivity.
Defined.

(** X13. [parse_poslist_file] raises [IOError] only when the file cannot
    be opened and [TypeError] only for a file it could open; whenever it
    raises, what it logged are errors, at least one; whenever it returns,
    it logged nothing. *)
Theorem parse_poslist_file_failures (fname : string) (fh : text_file)
  (unique_residues : list tuple) (set_order : tuple -> nat) :
  match outcome (parse_poslist_file fname fh unique_residues set_order) with
  | Ok _ => logged (parse_poslist_file fname fh unique_residues set_order) = []
  | Raise e =>
      e = (match fh with None => IOError | Some _ => TypeError end)
      /\ logged (parse_poslist_file fname fh unique_residues set_order) <> []
      /\ Forall (fun r => log_level r = ERROR)
           (logged (parse_poslist_file fname fh unique_residues set_order))
  end.
Proof.
  destruct fh as [lines | ]; simpl.
  2: { split; [ reflexivity | split; [ discriminate | repeat constructor ] ]. }
  assert (Hlines :
            match outcome (mapM (parse_poslist_line unique_residues) lines) with
            | Ok _ => logged (mapM (parse_poslist_line unique_residues) lines) = []
            | Raise e =>
                e = TypeError
                /\ logged (mapM (parse_poslist_line unique_residues) lines) <> []
                /\ Forall (fun r => log_level r = ERROR)
                     (logged (mapM (parse_poslist_line unique_residues) lines))
            end).
  { induction lines as [ | line lines IH]; [ reflexivity | ].
    cbn [mapM].
    destruct (parse_poslist_line_cases unique_residues line) as [H | [H | [H _]]];
      rewrite H.
    - simpl. split; [ reflexivity | split; [ discriminate | repeat constructor ] ].
    - simpl. split; [ reflexivity | split; [ discriminate | repeat constructor ] ].
    - rewrite bind_ret_l.
      destruct (mapM (parse_poslist_line unique_residues) lines) as [l [ys | e]];
        simpl in *; [ now rewrite app_nil_r | exact IH ]. }
  destruct (mapM (parse_poslist_line unique_residues) lines) as [l [ys | e]];
    simpl in *; [ now rewrite Hlines, app_nil_r | exact Hlines ].
Qed.

(** ** The lines of an energy file *)

Section EnergyLines.

Context {F : Type}.

Lemma map_opt_Forall2 {A} (f : A -> option F) (l : list A) (ys : list F) :
  map_opt f l = Some ys <-> Forall2 (fun x y => f x = Some y) l ys.
Proof.
  revert ys. induction l as [ | x l IH]; intro ys; simpl.
  - split; intro H; [ injection H as <-; constructor | now inversion H ].
  - destruct (f x) as [y | ] eqn:Hx.
    + destruct (map_opt f l) as [ys' | ].
      * split; intro H.
        -- injection H as <-. constructor; [ exact Hx | now apply IH ].
        -- inversion H as [ | x' y' l' ys'' Hy Hrest]; subst.
           apply IH in Hrest. congruence.
      * split; [ discriminate | ]. intro H.
        inversion H as [ | x' y' l' ys'' Hy Hrest]; subst.
        apply IH in Hrest. discriminate.
    + split; [ discriminate | ]. intro H. inversion H; congruence.
Qed.

Lemma map_opt_Some_map {A} (g : A -> F) (l : list A) :
  map_opt (fun x => Some (g x)) l = Some (map g l).
Proof. induction l as [ | x l IH]; simpl; [ reflexivity | now rewrite IH ]. Qed.

(** The columns computed for the slice [x] and the slices [sl]: their heads
    are the values on [x], their tails the columns for [sl]. *)
Lemma columns_heads_tails (fs : list (list F -> option F)) (x : list F)
  (sl : list (list F)) (cols : list (list F)) :
  Forall2 (fun f c => map_opt f (x :: sl) = Some c) fs cols ->
  exists hs ts,
    line_of fs x hs
    /\ Forall2 (fun f c => map_opt f sl = Some c) fs ts
    /\ column 0 cols = hs
    /\ forall i, column (S i) cols = column i ts.
Proof.
  induction 1 as [ | f c fs cols Hc _ IH].
  - exists [], []. repeat split; constructor.
  - destruct IH as [hs [ts [Hhs [Hts [H0 HS]]]]].
    simpl in Hc. destruct (f x) as [y | ] eqn:Hy; [ | discriminate ].
    destruct (map_opt f sl) as [ys | ] eqn:Hys; [ | discriminate ].
    injection Hc as <-.
    exists (y :: hs), (ys :: ts). repeat split.
    + now constructor.
    + now constructor.
    + rewrite <- H0. reflexivity.
    + intro i. change (column (S i) ((y :: ys) :: cols))
        with ((match nth_error ys i with Some x => [x] | None => [] end)
                ++ column (S i) cols).
      now rewrite HS.
Qed.

Lemma columns_lines (fs : list (list F -> option F)) (sl : list (list F)) :
  forall cols,
    Forall2 (fun f c => map_opt f sl = Some c) fs cols ->
    Forall2 (line_of fs) sl (columns (List.length sl) cols).
Proof.
  induction sl as [ | x sl IH]; intros cols Hcols.
  - constructor.
  - destruct (columns_heads_tails fs x sl cols Hcols) as [hs [ts [Hhs [Hts [H0 HS]]]]].
    unfold columns. cbn [List.length seq map]. rewrite H0.
    constructor; [ exact Hhs | ].
    rewrite <- seq_shift, map_map.
    rewrite (map_ext _ (fun i => column i ts)) by exact HS.
    apply (IH ts Hts).
Qed.

Variables (np_average np_std : list F -> F).
Variables (np_min np_max : list F -> option F).

Lemma save_energy_file_columns (fname : string) (writable : bool) (ncols : nat)
  (rows : list (list F)) (do_avg do_std do_min do_max : bool) (ax : axis)
  (w : written F) :
  outcome (save_energy_file np_average np_std np_min np_max fname writable ncols rows
             do_avg do_std do_min do_max ax) = Ok w ->
  exists cols,
    lines w = stack_T (List.length (slices ax ncols rows)) cols
    /\ Forall2 (fun f c => map_opt f (slices ax ncols rows) = Some c)
         (statistics np_average np_std np_min np_max do_avg do_std do_min do_max) cols.
Proof.
  unfold save_energy_file, statistics.
  pose proof (map_opt_Some_map np_average (slices ax ncols rows)) as Havg.
  pose proof (map_opt_Some_map np_std (slices ax ncols rows)) as Hstd.
  destruct do_avg, do_std, do_min, do_max, writable;
    try destruct (map_opt np_min (slices ax ncols rows)) eqn:Hmin;
    try destruct (map_opt np_max (slices ax ncols rows)) eqn:Hmax;
    simpl; intro H; try discriminate; injection H as <-;
    eexists; (split; [ | repeat constructor; eassumption ]); reflexivity.
Qed.

(** X14. The file [save_energy_file] writes has one line per entry (per
    slice along the axis), in order, and the line of an entry holds its
    values for the selected statistics, in the order of the header; with
    no statistic selected the file has no line. *)
Theorem save_energy_file_lines (fname : string) (writable : bool) (ncols : nat)
  (rows : list (list F)) (do_avg do_std do_min do_max : bool) (ax : axis)
  (w : written F) :
  outcome (save_energy_file np_average np_std np_min np_max fname writable ncols rows
             do_avg do_std do_min do_max ax) = Ok w ->
  let fs := statistics np_average np_std np_min np_max do_avg do_std do_min do_max in
  (fs = [] -> lines w = [])
  /\ (fs <> [] -> Forall2 (line_of fs) (slices ax ncols rows) (lines w)).
Proof.
  intros Hok fs.
  destruct (save_energy_file_columns _ _ _ _ _ _ _ _ _ _ Hok) as [cols [Hlines Hcols]].
  fold fs in Hcols. rewrite Hlines. split.
  - intro Hfs. rewrite Hfs in Hcols. inversion Hcols. reflexivity.
  - intro Hfs. destruct cols as [ | c cols].
    + inversion Hcols as [Hnil | ]. congruence.
    + cbn [stack_T]. now apply columns_lines.
Qed.

(** X15. [save_interaction_energy_file] writes what [save_energy_file]
    writes: the two return the same file or raise the same exception on
    the same input, and log the same records but for the text of the
    error message. *)
Theorem save_interaction_energy_file_same (fname : string) (writable : bool)
  (ncols : nat) (rows : list (list F)) (do_avg do_std do_min do_max : bool)
  (ax : axis) :
  outcome (save_interaction_energy_file np_average np_std np_min np_max fname writable
             ncols rows do_avg do_std do_min do_max ax)
  = outcome (save_energy_file np_average np_std np_min np_max fname writable
               ncols rows do_avg do_std do_min do_max ax)
  /\ logged (save_interaction_energy_file np_average np_std np_min np_max fname writable
               ncols rows do_avg do_std do_min do_max ax)
     = map (fun r => LogRecord (log_level r)
                       "Couldn't interaction energy write file %s" (log_args r))
           (logged (save_energy_file np_average np_std np_min np_max fname writable
                      ncols rows do_avg do_std do_min do_max ax)).
Proof.
  unfold save_interaction_energy_file, save_energy_file.
  destruct do_avg, do_std, do_min, do_max, writable;
    try destruct (map_opt np_min (slices ax ncols rows));
    try destruct (map_opt np_max (slices ax ncols rows));
    split; reflexivity.
Qed.

End EnergyLines.

Lemma save_energy_file_lines_witness :
  Forall2 (line_of (statistics (fun r => hd 0%Z r) (fun r => 0%Z)
                      (fun r => Some (hd 0%Z r)) (fun r => Some (last r 0%Z))
                      true false false true))
    [[2; 3]; [5; 6]]%Z [[2; 3]; [5; 6]]%Z.
Proof.
  refine (proj2 (save_energy_file_lines (fun r => hd 0%Z r) (fun r => 0%Z)
                   (fun r => Some (hd 0%Z r)) (fun r => Some (last r 0%Z))
                   "energies.txt" true 2 [[2; 3]; [5; 6]]%Z true false false true Axis1
                   (Written (Py.join (String (ascii_of_nat 9) "") ["avg"; "max"])
                      [[2; 3]; [5; 6]]%Z) _) _).
  - reflexivity.
  - discriminate.
Defined.

(** ** [init_arguments] *)

Lemma NoDup_flat_map_In {A B} (f : A -> list B) (T : list A) :
  NoDup (flat_map f T) ->
  forall x y s, In x T -> In y T -> In s (f x) -> In s (f y) -> x = y.
Proof.
  induction T as [ | a T IH]; simpl; intros Hnd x y s Hx Hy Hsx Hsy; [ contradiction | ].
  assert (Hcross : forall z, In z T -> In s (f a) -> In s (f z) -> False).
  { intros z Hz Hsa Hsz. apply in_split in Hsa. destruct Hsa as [l1 [l2 Hsa]].
    rewrite Hsa, <- app_assoc in Hnd. simpl in Hnd.
    apply NoDup_remove_2 in Hnd. apply Hnd.
    rewrite app_assoc. apply in_or_app. right.
    apply in_flat_map. eauto. }
  destruct Hx as [<- | Hx], Hy as [<- | Hy]; [ reflexivity | | | ].
  - exfalso. eauto.
  - exfalso. eauto.
  - apply NoDup_app_remove_l in Hnd. eauto.
Qed.

Lemma NoDup_flat_map_each {A B} (f : A -> list B) (T : list A) (x : A) :
  NoDup (flat_map f T) -> In x T -> NoDup (f x).
Proof.
  induction T as [ | a T IH]; simpl; intros Hnd Hx; [ contradiction | ].
  destruct Hx as [<- | Hx].
  - now apply NoDup_app_remove_r in Hnd.
  - apply NoDup_app_remove_l in Hnd. auto.
Qed.

(** Distinct keys of a table whose values do not share an item. *)
Lemma NoDup_flat_map_table {K V B} (g : K -> option V) (f : V -> list B)
  (keys : list K) (vals : list V) :
  (forall k v, g k = Some v -> NoDup (f v)) ->
  (forall k1 k2 v1 v2 s,
      g k1 = Some v1 -> g k2 = Some v2 -> In s (f v1) -> In s (f v2) -> k1 = k2) ->
  NoDup keys ->
  Forall2 (fun k v => g k = Some v) keys vals ->
  NoDup (flat_map f vals).
Proof.
  intros Heach Hinj Hnd Hall.
  induction Hall as [ | k v keys vals Hk Hall IH]; simpl; [ constructor | ].
  inversion Hnd as [ | k' keys' Hnotin Hnd']; subst.
  apply NoDup_app; [ now apply (Heach k) | now apply IH | ].
  intros s Hs Hs'. apply in_flat_map in Hs'. destruct Hs' as [v' [Hv' Hsv']].
  assert (Hk' : exists k', In k' keys /\ g k' = Some v').
  { clear -Hall Hv'. induction Hall as [ | k0 v0 keys vals H0 _ IH]; simpl in *;
      [ contradiction | ].
    destruct Hv' as [<- | Hv']; [ eauto | ].
    destruct (IH Hv') as [k' [Hin Hg]]. eauto. }
  destruct Hk' as [k' [Hin Hg]].
  apply Hnotin. now rewrite (Hinj k k' v v' s Hk Hg Hs Hsv').
Qed.

(** The table of the [if]/[elif] chain. *)
Lemma common_argument_table (arg : string) (call : add_argument_call) :
  common_argument arg = Some call -> In arg argument_names.
Proof.
  unfold common_argument.
  repeat match goal with
         | |- context [String.eqb arg ?n] =>
             destruct (String.eqb_spec arg n) as [-> | _];
             [ intros _; simpl; tauto | ]
         end.
  discriminate.
Qed.

Lemma common_argument_known (arg : string) :
  In arg argument_names -> exists call, common_argument arg = Some call.
Proof. intro H. unfold argument_names in H. in_cases H; subst arg; eexists; reflexivity. Qed.

Lemma common_argument_unknown (arg : string) :
  ~ In arg argument_names -> common_argument arg = None.
Proof.
  intro H. destruct (common_argument arg) as [call | ] eqn:E; [ | reflexivity ].
  apply common_argument_table in E. contradiction.
Qed.

Lemma common_argument_apart (f : add_argument_call -> list string) :
  NoDup (flat_map (fun n => match common_argument n with
                            | Some c => f c
                            | None => []
                            end) argument_names) ->
  (forall k v, common_argument k = Some v -> NoDup (f v))
  /\ (forall k1 k2 v1 v2 s,
         common_argument k1 = Some v1 -> common_argument k2 = Some v2 ->
         In s (f v1) -> In s (f v2) -> k1 = k2).
Proof.
  intro Hnd. split.
  - intros k v Hk. pose proof (common_argument_table k v Hk) as Hin.
    pose proof (NoDup_flat_map_each _ _ k Hnd Hin) as H.
    cbv beta in H. now rewrite Hk in H.
  - intros k1 k2 v1 v2 s H1 H2 Hs1 Hs2.
    pose proof (common_argument_table k1 v1 H1) as Hin1.
    pose proof (common_argument_table k2 v2 H2) as Hin2.
    apply (NoDup_flat_map_In _ _ Hnd k1 k2 s Hin1 Hin2); cbv beta.
    + now rewrite H1.
    + now rewrite H2.
Qed.

Lemma init_arguments_loop_known (arguments : list string) :
  forall parser,
    incl arguments argument_names ->
    exists calls,
      Forall2 (fun n c => common_argument n = Some c) arguments calls
      /\ forall rest,
          init_arguments_loop (arguments ++ rest) parser
          = init_arguments_loop rest (parser ++ calls).
Proof.
  induction arguments as [ | arg arguments IH]; intros parser Hincl.
  - exists []. split; [ constructor | ]. intro rest. now rewrite app_nil_r.
  - destruct (common_argument_known arg) as [call Hcall]; [ apply Hincl; now left | ].
    destruct (IH (parser ++ [call])) as [calls [Hcalls Hloop]].
    { intros n Hn. apply Hincl. now right. }
    exists (call :: calls). split; [ now constructor | ].
    intro rest. simpl. rewrite Hcall, Hloop, <- app_assoc. reflexivity.
Qed.

Ltac distinct_strings :=
  repeat (constructor; [ simpl; intuition discriminate | ]); constructor.

(** X16. Given distinct names that it knows, [init_arguments] returns the
    parser with one option added per name, in the order of the names,
    after the options the parser had; no two of the added options share
    an option string, short or long, or a destination. *)
Theorem init_arguments_adds (arguments : list string)
  (parser : list add_argument_call) :
  NoDup arguments ->
  incl arguments argument_names ->
  exists calls,
    init_arguments arguments parser = (parser ++ calls, None)
    /\ Forall2 (fun n c => common_argument n = Some c) arguments calls
    /\ NoDup (flat_map option_strings calls)
    /\ NoDup (map dest calls).
Proof.
  intros Hnd Hincl.
  destruct (init_arguments_loop_known arguments parser Hincl) as [calls [Hcalls Hloop]].
  exists calls. split; [ | split; [ exact Hcalls | split ] ].
  - unfold init_arguments.
    rewrite (proj2 (len_set_full_iff string_dec arguments) Hnd), Nat.eqb_refl. simpl.
    specialize (Hloop []). rewrite app_nil_r in Hloop. exact Hloop.
  - destruct (common_argument_apart option_strings) as [Heach Hinj];
      [ vm_compute; distinct_strings | ].
    apply (NoDup_flat_map_table common_argument option_strings arguments calls
             Heach Hinj Hnd Hcalls).
  - destruct (common_argument_apart (fun c => [dest c])) as [Heach Hinj];
      [ vm_compute; distinct_strings | ].
    pose proof (NoDup_flat_map_table common_argument (fun c => [dest c]) arguments calls
                  Heach Hinj Hnd Hcalls) as H.
    rewrite flat_map_concat_map in H.
    replace (map dest calls) with (concat (map (fun c => [dest c]) calls)); [ exact H | ].
    clear. induction calls; simpl; [ reflexivity | now f_equal ].
Qed.

Lemma init_arguments_adds_witness :
  exists calls,
    init_arguments ["pdb"; "verbose"; "fontsize"] [] = ([] ++ calls, None)
    /\ Forall2 (fun n c => common_argument n = Some c) ["pdb"; "verbose"; "fontsize"] calls
    /\ NoDup (flat_map option_strings calls)
    /\ NoDup (map dest calls).
Proof.
  apply (init_arguments_adds ["pdb"; "verbose"; "fontsize"] []).
  - distinct_strings.
  - intros n Hn. in_cases Hn; subst n; simpl; tauto.
Defined.

(** X17. The two ways [init_arguments] fails. A repeated name raises
    [AssertionError] before anything is added. With distinct names, the
    first name that is not known raises [NameError], and the parser keeps
    the options of the names before it, one per name. *)
Theorem init_arguments_failures (arguments : list string)
  (parser : list add_argument_call) :
  (~ NoDup arguments ->
   init_arguments arguments parser = (parser, Some AssertionError))
  /\ (NoDup arguments ->
      forall known bad rest,
        arguments = known ++ bad :: rest ->
        incl known argument_names ->
        ~ In bad argument_names ->
        exists calls,
          init_arguments arguments parser = (parser ++ calls, Some NameError)
          /\ Forall2 (fun n c => common_argument n = Some c) known calls).
Proof.
  split.
  - intro Hdup. unfold init_arguments.
    destruct (Py.len_set string_dec arguments =? List.length arguments) eqn:E;
      [ | reflexivity ].
    apply Nat.eqb_eq, len_set_full_iff in E. contradiction.
  - intros Hnd known bad rest -> Hincl Hbad.
    destruct (init_arguments_loop_known known parser Hincl) as [calls [Hcalls Hloop]].
    exists calls. split; [ | exact Hcalls ].
    unfold init_arguments.
    rewrite (proj2 (len_set_full_iff string_dec _) Hnd), Nat.eqb_refl. simpl.
    rewrite Hloop. simpl. now rewrite (common_argument_unknown bad Hbad).
Qed.

Lemma init_arguments_failures_witness :
  init_arguments ["pdb"; "pdb"] [] = ([], Some AssertionError)
  /\ exists calls,
      init_arguments ["pdb"; "colour"; "title"] [] = ([] ++ calls, Some NameError)
      /\ Forall2 (fun n c => common_argument n = Some c) ["pdb"] calls.
Proof.
  split.
  - apply (proj1 (init_arguments_failures ["pdb"; "pdb"] [])).
    intro H. inversion H as [ | x l Hx _]. apply Hx. now left.
  - apply (proj2 (init_arguments_failures ["pdb"; "colour"; "title"] [])
             ltac:(distinct_strings) ["pdb"] "colour" ["title"] eq_refl).
    + intros n Hn. in_cases Hn; subst n; simpl; tauto.
    + simpl. intuition discriminate.
Defined.

(** ** [parse_label_file] *)

Lemma dict_get_set_other (k k' v : string) (d : dict) :
  k <> k' -> dict_get k (dict_set k' v d) = dict_get k d.
Proof.
  intro Hne. induction d as [ | [k0 v0] d IH]; simpl.
  - destruct (String.eqb_spec k k'); [ contradiction | reflexivity ].
  - destruct (String.eqb_spec k' k0) as [-> | Hk0]; simpl.
    + destruct (String.eqb_spec k k0); [ contradiction | reflexivity ].
    + destruct (String.eqb_spec k k0); [ reflexivity | exact IH ].
Qed.

(** The dictionary read from readable rows holds the last label of every
    name. *)
Lemma read_label_rows_readable (rows : list (list string)) :
  Forall readable_row rows ->
  forall d,
    exists d',
      read_label_rows rows d = Ok d'
      /\ forall name,
          dict_get name d'
          = match label_in rows name with
            | Some l => Some l
            | None => dict_get name d
            end.
Proof.
  induction 1 as [ | row rows Hrow _ IH]; intro d.
  - exists d. split; reflexivity.
  - assert (Hstep : exists d1,
               read_label_rows (row :: rows) d = read_label_rows rows d1
               /\ forall name,
                   dict_get name d1
                   = match row_label name row with
                     | Some l => Some l
                     | None => dict_get name d
                     end).
    { destruct row as [ | row0 fields].
      - destruct Hrow as [[fields H] | H]; [ discriminate | simpl in H; lia ].
      - simpl. destruct (String.eqb row0 "Residue_name") eqn:Hhead.
        + exists d. split; [ reflexivity | ]. intro name. now destruct fields.
        + destruct fields as [ | row1 fields].
          * destruct Hrow as [[fields H] | H]; [ | simpl in H; lia ].
            injection H as ->. discriminate.
          * destruct (String.eqb row1 "") eqn:Hempty; simpl.
            -- exists d. split; reflexivity.
            -- exists (dict_set row0 row1 d). split; [ reflexivity | ].
               intro name. destruct (String.eqb_spec row0 name) as [-> | Hne].
               ++ apply dict_get_set.
               ++ apply dict_get_set_other. congruence. }
    destruct Hstep as [d1 [Hread Hd1]].
    destruct (IH d1) as [d' [Hrest Hd']].
    exists d'. split; [ now rewrite Hread | ].
    intro name. rewrite Hd'. simpl.
    destruct (label_in rows name); [ reflexivity | apply Hd1 ].
Qed.

Lemma setitem_Some (i : nat) (v : string) (l : list string) :
  i < List.length l ->
  exists l',
    setitem i v l = Some l'
    /\ List.length l' = List.length l
    /\ nth_error l' i = Some v
    /\ forall j, j <> i -> nth_error l' j = nth_error l j.
Proof.
  revert i. induction l as [ | x l IH]; intros i Hi; simpl in Hi; [ lia | ].
  destruct i as [ | i]; simpl.
  - exists (v :: l). repeat split. intros [ | j] Hj; [ congruence | reflexivity ].
  - destruct (IH i) as [l' [-> [Hlen [Hi' Hj']]]]; [ lia | ].
    exists (x :: l'). simpl. repeat split; [ now rewrite Hlen | exact Hi' | ].
    intros [ | j] Hj; [ reflexivity | ]. simpl. apply Hj'. congruence.
Qed.

Lemma setitem_None (i : nat) (v : string) (l : list string) :
  List.length l <= i -> setitem i v l = None.
Proof.
  revert i. induction l as [ | x l IH]; intros i Hi; simpl in *;
    [ now destruct i | ].
  destruct i as [ | i]; [ lia | ].
  change (option_map (cons x) (setitem i v l) = None). rewrite IH by lia. reflexivity.
Qed.

Lemma assign_labels_in_range (d : dict) (fnames : list string) :
  forall i labels,
    i + List.length fnames <= List.length labels ->
    exists labels',
      assign_labels i fnames d labels
      = (map label_warning
           (filter (fun n => match dict_get n d with Some _ => false | None => true end)
                   fnames),
         Ok labels')
      /\ List.length labels' = List.length labels
      /\ (forall j name,
             nth_error fnames j = Some name ->
             nth_error labels' (i + j)
             = match dict_get name d with
               | Some l => Some l
               | None => nth_error labels (i + j)
               end)
      /\ forall j, j < i \/ i + List.length fnames <= j ->
                   nth_error labels' j = nth_error labels j.
Proof.
  induction fnames as [ | fname fnames IH]; intros i labels Hlen; simpl in Hlen.
  - exists labels. repeat split; auto. intros [ | j] name H; discriminate.
  - simpl. destruct (dict_get fname d) as [v | ] eqn:Hget.
    + destruct (setitem_Some i v labels) as [l1 [-> [Hlen1 [Hi1 Hj1]]]]; [ lia | ].
      destruct (IH (S i) l1) as [labels' [Hrun [Hlen' [Hnames Hout]]]]; [ lia | ].
      exists labels'. split; [ exact Hrun | split; [ congruence | split ] ].
      * intros [ | j] name Hj; simpl in Hj.
        -- injection Hj as <-. rewrite Hget, Nat.add_0_r.
           rewrite Hout by lia. exact Hi1.
        -- replace (i + S j) with (S i + j) by lia.
           rewrite (Hnames j name Hj), Hj1 by lia. reflexivity.
      * intros j Hj. rewrite Hout by lia. apply Hj1. lia.
    + destruct (IH (S i) labels) as [labels' [Hrun [Hlen' [Hnames Hout]]]]; [ lia | ].
      exists labels'. split; [ | split; [ exact Hlen' | split ] ].
      * unfold bind, log. rewrite Hrun. reflexivity.
      * intros [ | j] name Hj; simpl in Hj.
        -- injection Hj as <-. rewrite Hget, Nat.add_0_r. apply Hout. lia.
        -- replace (i + S j) with (S i + j) by lia. apply (Hnames j name Hj).
      * intros j Hj. apply Hout. lia.
Qed.

(** X18. On a labels file of readable rows, and for no more names than
    default labels, [parse_label_file] returns as many labels as there
    are default labels: at the index of a name, the label of the last
    row of the file that gives this name a non-empty one, and the default
    label when there is none; past the names, the default labels. It
    logs one warning per name without a label, in order. *)
Theorem parse_label_file_labels (csv_fname : string) (rows : list (list string))
  (fnames default_labels : list string) :
  Forall readable_row rows ->
  List.length fnames <= List.length default_labels ->
  exists labels,
    parse_label_file csv_fname (Some rows) fnames default_labels
    = (map label_warning
         (filter (fun n => match label_in rows n with Some _ => false | None => true end)
                 fnames),
       Ok labels)
    /\ List.length labels = List.length default_labels
    /\ (forall i name,
           nth_error fnames i = Some name ->
           nth_error labels i
           = match label_in rows name with
             | Some l => Some l
             | None => nth_error default_labels i
             end)
    /\ forall i, List.length fnames <= i ->
                 nth_error labels i = nth_error default_labels i.
Proof.
  intros Hrows Hlen. unfold parse_label_file.
  destruct (read_label_rows_readable rows Hrows []) as [d [-> Hd]].
  assert (Hget : forall name, dict_get name d = label_in rows name).
  { intro name. rewrite Hd. now destruct (label_in rows name). }
  destruct (assign_labels_in_range d fnames 0 default_labels Hlen)
    as [labels [Hrun [Hlen' [Hnames Hout]]]].
  exists labels. split; [ | split; [ exact Hlen' | split ] ].
  - rewrite Hrun. f_equal. f_equal. apply filter_ext. intro n. now rewrite Hget.
  - intros i name Hi. rewrite <- Hget. apply (Hnames i name Hi).
  - intros i Hi. apply Hout. right. exact Hi.
Qed.

Lemma parse_label_file_labels_witness :
  exists labels,
    parse_label_file "labels.csv"
      (Some [["Residue_name"; "label"]; ["AA1"; "a1"]; ["CA3"; ""]; ["AA1"; "A-1"]])
      ["AA1"; "CA3"] ["A1"; "C3"; "D4"]
    = (map label_warning
         (filter (fun n =>
                    match label_in [["Residue_name"; "label"]; ["AA1"; "a1"]; ["CA3"; ""];
                                    ["AA1"; "A-1"]] n with
                    | Some _ => false
                    | None => true
                    end) ["AA1"; "CA3"]),
       Ok labels)
    /\ List.length labels = List.length ["A1"; "C3"; "D4"]
    /\ (forall i name,
           nth_error ["AA1"; "CA3"] i = Some name ->
           nth_error labels i
           = match label_in [["Residue_name"; "label"]; ["AA1"; "a1"]; ["CA3"; ""];
                             ["AA1"; "A-1"]] name with
             | Some l => Some l
             | None => nth_error ["A1"; "C3"; "D4"] i
             end)
    /\ forall i, List.length ["AA1"; "CA3"] <= i ->
                 nth_error labels i = nth_error ["A1"; "C3"; "D4"] i.
Proof.
  apply (parse_label_file_labels "labels.csv"
           [["Residue_name"; "label"]; ["AA1"; "a1"]; ["CA3"; ""]; ["AA1"; "A-1"]]
           ["AA1"; "CA3"] ["A1"; "C3"; "D4"]).
  - repeat constructor; unfold readable_row; simpl; auto; right; lia.
  - simpl. lia.
Defined.

Example parse_label_file_example :
  parse_label_file "labels.csv"
    (Some [["Residue_name"; "label"]; ["AA1"; "a1"]; ["CA3"; ""]; ["AA1"; "A-1"]])
    ["AA1"; "CA3"] ["A1"; "C3"; "D4"]
  = ([label_warning "CA3"], Ok ["A-1"; "C3"; "D4"]).
Proof. reflexivity. Qed.

Lemma read_label_rows_app (good : list (list string)) :
  Forall readable_row good ->
  forall d, exists d', forall rest,
      read_label_rows (good ++ rest) d = read_label_rows rest d'.
Proof.
  induction 1 as [ | row rows Hrow _ IH]; intro d; [ now exists d | ].
  destruct row as [ | row0 fields].
  - destruct Hrow as [[fields H] | H]; [ discriminate | simpl in H; lia ].
  - simpl. destruct (String.eqb row0 "Residue_name") eqn:Hhead; [ apply IH | ].
    destruct fields as [ | row1 fields].
    + destruct Hrow as [[fields H] | H]; [ | simpl in H; lia ].
      injection H as ->. discriminate.
    + destruct (String.eqb row1 ""); simpl; apply IH.
Qed.

Lemma read_label_rows_short (bad : list string) (rest : list (list string)) (d : dict) :
  ~ readable_row bad -> read_label_rows (bad :: rest) d = Raise IndexError.
Proof.
  intro Hbad. destruct bad as [ | row0 [ | row1 fields]]; simpl; [ reflexivity | | ].
  - destruct (String.eqb_spec row0 "Residue_name") as [-> | _]; [ | reflexivity ].
    exfalso. apply Hbad. left. now exists [].
  - exfalso. apply Hbad. right. simpl. lia.
Qed.

Lemma assign_labels_app (d : dict) (names1 names2 : list string) :
  forall i labels,
    outcome (assign_labels i (names1 ++ names2) d labels)
    = match outcome (assign_labels i names1 d labels) with
      | Ok labels' => outcome (assign_labels (i + List.length names1) names2 d labels')
      | Raise e => Raise e
      end.
Proof.
  induction names1 as [ | n names1 IH]; intros i labels.
  - simpl. now rewrite Nat.add_0_r.
  - cbn [app assign_labels List.length]. destruct (dict_get n d) as [v | ].
    + destruct (setitem i v labels) as [l1 | ]; [ | reflexivity ].
      rewrite IH. now replace (S i + List.length names1) with (i + S (List.length names1)) by lia.
    + rewrite !outcome_bind. cbn [outcome log snd].
      rewrite IH. now replace (S i + List.length names1) with (i + S (List.length names1)) by lia.
Qed.

Lemma assign_labels_skipped (d : dict) (skipped : list string) :
  Forall (fun n => dict_get n d = None) skipped ->
  forall i labels, outcome (assign_labels i skipped d labels) = Ok labels.
Proof.
  induction 1 as [ | n skipped Hn _ IH]; intros i labels; [ reflexivity | ].
  cbn [assign_labels]. rewrite Hn, outcome_bind. cbn [outcome log snd]. apply IH.
Qed.

(** X19. The failures of [parse_label_file]. A file that cannot be opened
    raises [IOError]. The first row that is too short to be read (an
    empty row, or a single field that is not the header) raises
    [IndexError], after one error is logged. And with more names than
    default labels, the first name past the default labels that has a
    label in the file raises [IndexError]. *)
Theorem parse_label_file_failures (csv_fname : string)
  (fnames default_labels : list string) :
  parse_label_file csv_fname None fnames default_labels
  = ([LogRecord ERROR "Labels file couldn't be read" []], Raise IOError)
  /\ (forall good bad rest,
         Forall readable_row good -> ~ readable_row bad ->
         parse_label_file csv_fname (Some (good ++ bad :: rest)) fnames default_labels
         = ([LogRecord ERROR "Labels file couldn't be parsed correctly" []],
            Raise IndexError))
  /\ (forall rows inside skipped name rest l,
         Forall readable_row rows ->
         fnames = inside ++ skipped ++ name :: rest ->
         List.length inside = List.length default_labels ->
         Forall (fun n => label_in rows n = None) skipped ->
         label_in rows name = Some l ->
         outcome (parse_label_file csv_fname (Some rows) fnames default_labels)
         = Raise IndexError).
Proof.
  split; [ reflexivity | split ].
  - intros good bad rest Hgood Hbad. unfold parse_label_file.
    destruct (read_label_rows_app good Hgood []) as [d ->].
    now rewrite (read_label_rows_short bad rest d Hbad).
  - intros rows inside skipped name rest l Hrows -> Hlen Hskipped Hname.
    unfold parse_label_file.
    destruct (read_label_rows_readable rows Hrows []) as [d [-> Hd]].
    assert (Hget : forall n, dict_get n d = label_in rows n).
    { intro n. rewrite Hd. now destruct (label_in rows n). }
    destruct (assign_labels_in_range d inside 0 default_labels)
      as [labels [Hrun [Hlen' _]]]; [ simpl; lia | ].
    rewrite assign_labels_app, Hrun. cbn [outcome snd].
    rewrite assign_labels_app, assign_labels_skipped
      by (eapply Forall_impl; [ | exact Hskipped ]; intros n Hn; now rewrite Hget).
    simpl. rewrite Hget, Hname, setitem_None by lia. reflexivity.
Qed.

Lemma parse_label_file_failures_witness :
  parse_label_file "labels.csv" (Some ([["AA1"; "a1"]] ++ [] :: [["CA3"; "c3"]]))
    ["AA1"; "CA3"] ["A1"]
  = ([LogRecord ERROR "Labels file couldn't be parsed correctly" []], Raise IndexError)
  /\ outcome (parse_label_file "labels.csv" (Some [["AA1"; "a1"]; ["CA3"; "c3"]])
                ["AA1"; "CA3"] ["A1"])
     = Raise IndexError.
Proof.
  split.
  - apply (proj1 (proj2 (parse_label_file_failures "labels.csv" ["AA1"; "CA3"] ["A1"]))).
    + constructor; [ right; simpl; lia | constructor ].
    + intros [[fields H] | H]; [ discriminate | simpl in H; lia ].
  - apply (proj2 (proj2 (parse_label_file_failures "labels.csv" ["AA1"; "CA3"] ["A1"]))
             [["AA1"; "a1"]; ["CA3"; "c3"]] ["AA1"] [] "CA3" [] "c3").
    + constructor; [ right; simpl; lia | ].
      constructor; [ right; simpl; lia | constructor ].
    + reflexivity.
    + reflexivity.
    + constructor.
    + reflexivity.
Defined.

(** ** [safe_makedirs] *)

(** X20. Under the contract of [os.makedirs] (when it returns, the path
    exists and is a directory), [safe_makedirs] raises nothing but
    [IOError]; when it returns, the path exists and is a directory, and a
    second call leaves the file system as it is, logs one warning and
    returns. *)
Theorem safe_makedirs_spec {os : OS} {dirs : OSDirs os} (dirname : string) (s : fs) :
  (forall s', makedirs s dirname = (s', true) ->
              path_exists s' dirname = true /\ path_isdir s' dirname = true) ->
  match outcome (snd (safe_makedirs dirname s)) with
  | Ok _ =>
      let s' := fst (safe_makedirs dirname s) in
      path_exists s' dirname = true
      /\ path_isdir s' dirname = true
      /\ safe_makedirs dirname s'
         = (s', ([LogRecord WARNING "directory %s already exists" [dirname]], Ok tt))
  | Raise e => e = IOError
  end.
Proof.
  intro Hlaw. unfold safe_makedirs at 1 2.
  destruct (path_exists s dirname) eqn:Hex.
  - destruct (path_isdir s dirname) eqn:Hdir; simpl; [ | reflexivity ].
    repeat split; auto. unfold safe_makedirs. now rewrite Hex, Hdir.
  - destruct (makedirs s dirname) as [s' [ | ]] eqn:Hmk; simpl; [ | reflexivity ].
    destruct (Hlaw s' eq_refl) as [Hex' Hdir'].
    repeat split; auto. unfold safe_makedirs. now rewrite Hex', Hdir'.
Qed.

Lemma safe_makedirs_spec_witness :
  @path_exists toy_os (("/work/out/run", ToyFS.Dir) :: file_and_dir)
    "/work/out/run" = true
  /\ path_isdir (("/work/out/run", ToyFS.Dir) :: file_and_dir) "/work/out/run" = true
  /\ safe_makedirs "/work/out/run" (("/work/out/run", ToyFS.Dir) :: file_and_dir)
     = (("/work/out/run", ToyFS.Dir) :: file_and_dir,
        ([LogRecord WARNING "directory %s already exists" ["/work/out/run"]], Ok tt)).
Proof.
  apply (@safe_makedirs_spec toy_os toy_dirs "/work/out/run" file_and_dir).
  intros s' H. injection H as <-. split; reflexivity.
Defined.

(** ** [split_pdb] *)

Lemma string_append_cancel_l (p a b : string) :
  (p ++ a)%string = (p ++ b)%string -> a = b.
Proof. induction p as [ | c p IH]; simpl; [ auto | ]. intro H. injection H. auto. Qed.

Lemma string_length_append (a b : string) :
  String.length (a ++ b) = String.length a + String.length b.
Proof. induction a as [ | c a IH]; simpl; [ reflexivity | now rewrite IH ]. Qed.

Lemma string_append_cancel_r (a b s : string) :
  (a ++ s)%string = (b ++ s)%string -> a = b.
Proof.
  intro H.
  assert (Hlen : String.length a = String.length b).
  { apply (f_equal String.length) in H. rewrite !string_length_append in H. lia. }
  revert b H Hlen. induction a as [ | c a IH]; intros [ | c' b] H Hlen;
    simpl in *; try discriminate; [ reflexivity | ].
  injection H as -> H. f_equal. apply IH; [ exact H | lia ].
Qed.

Lemma fmt_d_injective (a b : Z) : Py.fmt_d a = Py.fmt_d b -> a = b.
Proof.
  intro H. pose proof (int_fmt_d a) as Ha. rewrite H, int_fmt_d in Ha. congruence.
Qed.

Lemma NoDup_map_of_injective {A B} (f : A -> B) (l : list A) :
  (forall a b, f a = f b -> a = b) -> NoDup l -> NoDup (map f l).
Proof.
  intros Hinj Hnd. induction Hnd as [ | x l Hx _ IH]; simpl; constructor; [ | exact IH ].
  intro Hin. apply in_map_iff in Hin. destruct Hin as [y [Hy Hin]].
  apply Hinj in Hy. now subst y.
Qed.

Lemma NoDup_map_injective_on {A B} (f : A -> B) (l : list A) :
  (forall a b, In a l -> In b l -> f a = f b -> a = b) -> NoDup l -> NoDup (map f l).
Proof.
  intros Hinj Hnd. induction Hnd as [ | x l Hx _ IH]; simpl; constructor.
  - intro Hin. apply in_map_iff in Hin. destruct Hin as [y [Hy Hin]].
    apply Hx. rewrite <- (Hinj y x); auto; [ now right | now left ].
  - apply IH. intros a b Ha Hb. apply Hinj; now right.
Qed.

Section SplitPdb.
Context `{OSPath}.

Lemma model_filename_injective (filename : string) (checked : bool) (a b : Z) :
  model_filename filename a checked = model_filename filename b checked -> a = b.
Proof.
  unfold model_filename. intro E.
  apply string_append_cancel_l, string_append_cancel_l in E.
  apply string_append_cancel_r in E.
  now apply fmt_d_injective.
Qed.

Lemma split_pdb_loop_spec (filename : string) (checked : bool) (workdir : string)
  (structure : list (Z * PDB.model)) :
  forall saved pdb_list,
    split_pdb_loop filename structure checked workdir saved pdb_list
    = (saved ++ map (fun im => (path_join workdir
                                  (model_filename filename (fst im) checked), snd im))
                    structure,
       pdb_list ++ map (fun im => model_filename filename (fst im) checked) structure).
Proof.
  induction structure as [ | [model_id model] structure IH]; intros saved pdb_list; simpl.
  - now rewrite !app_nil_r.
  - rewrite IH, <- !app_assoc. reflexivity.
Qed.

Lemma model_filename_relative (filename : string) (model_id : Z) (checked : bool) :
  Py.startswith "/" (fst (splitext (basename filename))) = false ->
  Py.startswith "/" (model_filename filename model_id checked) = false.
Proof.
  unfold model_filename, Py.startswith.
  destruct (fst (splitext (basename filename))) as [ | c stem]; [ reflexivity | ].
  cbn [String.prefix append]. destruct (ascii_dec "/" c); [ | reflexivity ].
  intro Hp. destruct stem; discriminate Hp.
Qed.


End SplitPdb.


Example split_pdb_example :
  split_pdb "dimer" [(0%Z, heterotrimer); (1%Z, heterotrimer)] true "work"
  = ([("work/dimer_model0_checked.pdb", heterotrimer);
      ("work/dimer_model1_checked.pdb", heterotrimer)],
     ["dimer_model0_checked.pdb"; "dimer_model1_checked.pdb"]).
Proof. reflexivity. Qed.
